(** * B.League schedule scraper: a shallow embedding and its properties

    The development follows [b_league_schedule_scraper.py] top to bottom:
    the [Game] record and its row serialisation, the month iterator, the
    text helpers, the structured and heuristic page parsers, the scrape
    driver and the CSV validator.  Definitions come first, theorems after.

    Conventions.
    - A Python [str] is a list of Unicode code points ([text]); literals are
      written as in the source and decoded from UTF-8 by [T].
    - A Python [int] is a [Z].
    - A call that may raise returns a [result]; [Raise] carries the exception
      class.
    - Library behaviour ([re], [datetime], [str] methods) is modelled as
      CPython 3.11 documents and implements it.
    - The guards for a missing [requests] or [bs4] are left out: both
      libraries are taken as installed. *)

From Stdlib Require Import String Ascii.
From Stdlib Require Import ZArith NArith List Bool Lia.
From Stdlib Require Import Sorting.Permutation Sorting.Sorted.
Import ListNotations.

Local Open Scope Z_scope.

(* ================================================================= *)
(** * Part I: the program *)
(* ================================================================= *)

(** ** Exceptions *)

Inductive exn : Type :=
| ValueError
| OverflowError
| FetchError.

Inductive result (A : Type) : Type :=
| Ok (a : A)
| Raise (e : exn).

Arguments Ok {A} a.
Arguments Raise {A} e.

Definition bind {A B : Type} (r : result A) (f : A -> result B) : result B :=
  match r with
  | Ok a => f a
  | Raise e => Raise e
  end.

Notation "x <- r ;; k" := (bind r (fun x => k))
  (at level 61, r at next level, right associativity).

(** ** Text *)

Definition char : Type := N.
Definition text : Type := list char.

(** UTF-8 decoding of a source literal: [need] continuation bytes are still
    expected and [acc] holds the bits read so far. *)
Fixpoint utf8 (s : string) (need : nat) (acc : N) : text :=
  match s with
  | EmptyString => []
  | String a rest =>
      let b := N_of_ascii a in
      if (b <? 128)%N then b :: utf8 rest 0 0%N
      else if (b <? 192)%N then
        let acc' := (acc * 64 + (b - 128))%N in
        match need with
        | O => utf8 rest 0 0%N
        | S O => acc' :: utf8 rest 0 0%N
        | S k => utf8 rest k acc'
        end
      else if (b <? 224)%N then utf8 rest 1 (b - 192)%N
      else if (b <? 240)%N then utf8 rest 2 (b - 224)%N
      else utf8 rest 3 (b - 240)%N
  end.

(** A text literal and a character literal. *)
Definition T (s : string) : text := utf8 s 0 0%N.

Definition chr (s : string) : char := hd 0%N (T s).

Fixpoint text_eqb (a b : text) : bool :=
  match a, b with
  | [], [] => true
  | x :: a', y :: b' => (x =? y)%N && text_eqb a' b'
  | _, _ => false
  end.

(** [a < b] on [str]: lexicographic on code points. *)
Fixpoint text_ltb (a b : text) : bool :=
  match a, b with
  | _, [] => false
  | [], _ :: _ => true
  | x :: a', y :: b' =>
      if (x <? y)%N then true
      else if (x =? y)%N then text_ltb a' b'
      else false
  end.

Definition mem (c : char) (cs : text) : bool :=
  existsb (fun d => (c =? d)%N) cs.

(** [str.isspace], which is also the class [\s] of [re] on [str] patterns. *)
Definition is_space (c : char) : bool :=
  ((9 <=? c) && (c <=? 13) || (28 <=? c) && (c <=? 32)
   || (c =? 133) || (c =? 160) || (c =? 5760)
   || (8192 <=? c) && (c <=? 8202)
   || (c =? 8232) || (c =? 8233) || (c =? 8239) || (c =? 8287)
   || (c =? 12288))%N.

(** The decimal digits of the Unicode database (category Nd, Unicode 14):
    they come in blocks of ten consecutive code points, each listed here by
    its zero.  This is the class [\d], and [int] reads exactly these. *)
Definition decimal_zeros : list N :=
  [48; 1632; 1776; 1984; 2406; 2534; 2662; 2790; 2918; 3046; 3174; 3302;
   3430; 3558; 3664; 3792; 3872; 4160; 4240; 6112; 6160; 6470; 6608; 6784;
   6800; 6992; 7088; 7232; 7248; 42528; 43216; 43264; 43472; 43504; 43600;
   44016; 65296; 66720; 68912; 69734; 69872; 69942; 70096; 70384; 70736;
   70864; 71248; 71360; 71472; 71904; 72016; 72784; 73040; 73120; 92768;
   92864; 93008; 120782; 120792; 120802; 120812; 120822; 123200; 123632;
   125264; 130032]%N.

Definition decimal (c : char) : option Z :=
  match find (fun z => (z <=? c) && (c <=? z + 9))%N decimal_zeros with
  | Some z => Some (Z.of_N (c - z))
  | None => None
  end.

Definition is_digit (c : char) : bool :=
  match decimal c with
  | Some _ => true
  | None => false
  end.

(** [int(s)] for a run of decimal digits. *)
Definition int (s : text) : Z :=
  fold_left (fun acc c => acc * 10 + match decimal c with
                                     | Some d => d
                                     | None => 0
                                     end) s 0.

(** [str(n)] for [n >= 0]; [fuel] bounds the number of digits. *)
Fixpoint dec_digits (fuel : nat) (n : Z) (acc : text) : text :=
  match fuel with
  | O => acc
  | S k =>
      let acc' := Z.to_N (48 + n mod 10) :: acc in
      if n <? 10 then acc' else dec_digits k (n / 10) acc'
  end.

Definition str_of_int (n : Z) : text :=
  dec_digits (S (Z.to_nat (Z.log2 n))) n [].

(** [f"{n:0wd}"] for [n >= 0]: zero-padded to width [w], never cut. *)
Definition fmt0 (w : nat) (n : Z) : text :=
  let s := str_of_int n in
  repeat (chr "0") (w - length s) ++ s.

(** [needle in hay] *)
Fixpoint starts_with (p s : text) : bool :=
  match p, s with
  | [], _ => true
  | x :: p', y :: s' => (x =? y)%N && starts_with p' s'
  | _ :: _, [] => false
  end.

Fixpoint contains (needle hay : text) : bool :=
  starts_with needle hay ||
  match hay with
  | [] => false
  | _ :: hay' => contains needle hay'
  end.

(** [s.strip()] and [s.strip(chars)] *)
Fixpoint lstrip (p : char -> bool) (s : text) : text :=
  match s with
  | [] => []
  | c :: s' => if p c then lstrip p s' else s
  end.

Definition rstrip (p : char -> bool) (s : text) : text :=
  rev (lstrip p (rev s)).

Definition strip (s : text) : text := rstrip is_space (lstrip is_space s).

Definition strip_chars (chars : text) (s : text) : text :=
  rstrip (fun c => mem c chars) (lstrip (fun c => mem c chars) s).

(** [s.upper()], as far as the tests ["HOME" in ...] and ["AWAY" in ...] can
    see: the characters whose upper-case form holds one of the letters
    H, O, M, E, A, W, Y are the ASCII letters and U+1E96, U+1E98, U+1E99,
    U+1E9A (which become a letter followed by a modifier).  ASCII lower-case
    letters are mapped as Python maps them; every other character is left
    as it is. *)
Definition upper_char (c : char) : text :=
  if ((97 <=? c) && (c <=? 122))%N then [(c - 32)%N]
  else if (c =? 7830)%N then [72; 817]%N
  else if (c =? 7832)%N then [87; 778]%N
  else if (c =? 7833)%N then [89; 778]%N
  else if (c =? 7834)%N then [65; 702]%N
  else [c].

Definition upper (s : text) : text := flat_map upper_char s.

(** ** Regular expressions

    The fragment of [re] the program uses, with the matching order of a
    backtracking engine: alternatives left to right, greedy repetitions
    longest first, lazy ones shortest first.  Repetition is over a character
    class, which is all the source's patterns need. *)

Module Re.

Inductive re : Type :=
| Eps
| Cls (p : char -> bool)                       (* one character *)
| Rep (p : char -> bool) (lo : nat) (hi : option nat) (greedy : bool)
| Cat (r1 r2 : re)
| Alt (r1 r2 : re)
| Grp (i : nat) (r : re)                       (* capturing group [i] *)
| Eos.                                         (* [$] *)

Definition caps : Type := list (nat * text).

Definition can_take (hi : option nat) : bool :=
  match hi with
  | Some O => false
  | _ => true
  end.

(** Between [lo] and [hi] more characters of class [p]; [acc] holds the
    characters the repetition has taken so far.  The continuation gets
    the text taken and the text left. *)
Fixpoint rep {A : Type} (p : char -> bool) (greedy : bool)
         (lo : nat) (hi : option nat) (acc : text) (s : text)
         (k : text -> text -> option A) : option A :=
  let more :=
    match s with
    | c :: s' =>
        if p c && can_take hi
        then rep p greedy (pred lo) (option_map pred hi) (acc ++ [c]) s' k
        else None
    | [] => None
    end in
  match lo with
  | S _ => more
  | O =>
      if greedy then
        match more with
        | Some a => Some a
        | None => k acc s
        end
      else
        match k acc s with
        | Some a => Some a
        | None => more
        end
  end.

(** [run r s cs k]: match [r] at the head of [s], then go on with [k],
    which gets the text [r] took, the text left and the groups closed so
    far (the last closed first).  A [None] from [k] makes the engine try
    the next way of matching [r]. *)
Fixpoint run {A : Type} (r : re) (s : text) (cs : caps)
         (k : text -> text -> caps -> option A) : option A :=
  match r with
  | Eps => k [] s cs
  | Cls p =>
      match s with
      | c :: s' => if p c then k [c] s' cs else None
      | [] => None
      end
  | Rep p lo hi g => rep p g lo hi [] s (fun w s' => k w s' cs)
  | Cat r1 r2 =>
      run r1 s cs (fun w1 s1 cs1 =>
      run r2 s1 cs1 (fun w2 s2 cs2 => k (w1 ++ w2) s2 cs2))
  | Alt r1 r2 =>
      match run r1 s cs k with
      | Some a => Some a
      | None => run r2 s cs k
      end
  | Grp i r1 => run r1 s cs (fun w s' cs' => k w s' ((i, w) :: cs'))
  | Eos =>
      match s with
      | [] => k [] s cs
      | [c] => if (c =? 10)%N then k [] s cs else None
      | _ => None
      end
  end.

(** A match object: the text before the match, the groups, the text after. *)
Record m : Type := Match { pre : text; groups : caps; post : text }.

(** [re.match]: the pattern at the start of [s]; the groups and the text
    left. *)
Definition match_here (r : re) (s : text) : option (caps * text) :=
  run r s [] (fun _ s' cs => Some (cs, s')).

(** [re.search]: the leftmost start position at which the pattern
    matches. *)
Fixpoint search_from (r : re) (before : text) (s : text) : option m :=
  match match_here r s with
  | Some (cs, s') => Some (Match (rev before) cs s')
  | None =>
      match s with
      | [] => None
      | c :: s' => search_from r (c :: before) s'
      end
  end.

Definition search (r : re) (s : text) : option m := search_from r [] s.

(** [m.group(i)] *)
Definition group_of (i : nat) (cs : caps) : text :=
  match find (fun g => Nat.eqb (fst g) i) cs with
  | Some g => snd g
  | None => []
  end.

Definition group (i : nat) (x : m) : text := group_of i (groups x).

(** [re.split(r, s)] for a pattern that matches no empty text: the pieces
    between successive matches.  [fuel] bounds the number of pieces. *)
Fixpoint split_fuel (fuel : nat) (r : re) (s : text) : list text :=
  match fuel with
  | O => [s]
  | S f =>
      match search r s with
      | Some x => pre x :: split_fuel f r (post x)
      | None => [s]
      end
  end.

Definition split (r : re) (s : text) : list text :=
  split_fuel (length s) r s.

(** Pattern syntax. *)
Definition one (c : char) : re := Cls (fun d => (d =? c)%N).
Definition any_of (cs : text) : re := Cls (fun d => mem d cs).
Fixpoint lit (s : text) : re :=
  match s with
  | [] => Eps
  | [c] => one c
  | c :: s' => Cat (one c) (lit s')
  end.
Fixpoint cat (rs : list re) : re :=
  match rs with
  | [] => Eps
  | [r] => r
  | r :: rs' => Cat r (cat rs')
  end.
Fixpoint alt (rs : list re) : re :=
  match rs with
  | [] => Eps
  | [r] => r
  | r :: rs' => Alt r (alt rs')
  end.
Definition between (lo hi : char) : re :=
  Cls (fun d => (lo <=? d)%N && (d <=? hi)%N).
Definition digit : re := Cls is_digit.
Definition digits (lo hi : nat) : re := Rep is_digit lo (Some hi) true.
Definition spaces0 : re := Rep is_space 0 None true.   (* [\s*] *)
Definition spaces1 : re := Rep is_space 1 None true.   (* [\s+] *)
Definition dot (c : char) : bool := negb (c =? 10)%N.  (* [.] *)

End Re.

(** ** [datetime]

    Seconds and below are always zero in this program and are left out. *)

Record datetime : Type := Datetime {
  year : Z;
  month : Z;
  day : Z;
  hour : Z;
  minute : Z
}.

Definition is_leap (y : Z) : bool :=
  (y mod 4 =? 0) && (negb (y mod 100 =? 0) || (y mod 400 =? 0)).

Definition days_in_month (y m : Z) : Z :=
  if m =? 2 then (if is_leap y then 29 else 28)
  else if (m =? 4) || (m =? 6) || (m =? 9) || (m =? 11) then 30
  else 31.

Definition valid_date (y m d : Z) : bool :=
  (1 <=? y) && (y <=? 9999) && (1 <=? m) && (m <=? 12)
  && (1 <=? d) && (d <=? days_in_month y m).

Definition valid_time (H M : Z) : bool :=
  (0 <=? H) && (H <=? 23) && (0 <=? M) && (M <=? 59).

(** [datetime(y, m, d, H, M)] for arguments that fit a C int: raises
    [ValueError] out of range.  (Beyond a C int the constructor raises
    [OverflowError] before its range test.  The digits the parsers read
    stay far below that; where the target year varies, the properties bound
    it by [c_int].) *)
Definition datetime_new (y m d H M : Z) : result datetime :=
  if valid_date y m d && valid_time H M
  then Ok (Datetime y m d H M)
  else Raise ValueError.

(** [a < b] and [a == b] on datetimes. *)
Definition datetime_ltb (a b : datetime) : bool :=
  if year a <? year b then true else if year b <? year a then false
  else if month a <? month b then true else if month b <? month a then false
  else if day a <? day b then true else if day b <? day a then false
  else if hour a <? hour b then true else if hour b <? hour a then false
  else minute a <? minute b.

Definition datetime_eqb (a b : datetime) : bool :=
  (year a =? year b) && (month a =? month b) && (day a =? day b)
  && (hour a =? hour b) && (minute a =? minute b).

(** [dt.strftime("%Y-%m-%d")] and [dt.strftime("%H:%M")].  The year is
    written with four digits, which is what every platform does from the
    year 1000 on (the C library of some platforms leaves years below 1000
    unpadded; the properties on the text of a row take the year from 1000
    on, see [four_digit_year]). *)
Definition strftime_ymd (dt : datetime) : text :=
  fmt0 4 (year dt) ++ T "-" ++ fmt0 2 (month dt) ++ T "-" ++ fmt0 2 (day dt).

Definition strftime_HM (dt : datetime) : text :=
  fmt0 2 (hour dt) ++ T ":" ++ fmt0 2 (minute dt).

(** The patterns [_strptime] builds for the directives used here. *)
Definition RE_Y : Re.re := Re.Grp 1 (Re.cat [Re.digit; Re.digit; Re.digit; Re.digit]).

Definition RE_m : Re.re :=
  Re.Grp 2 (Re.alt [Re.Cat (Re.one (chr "1")) (Re.between (chr "0") (chr "2"));
                    Re.Cat (Re.one (chr "0")) (Re.between (chr "1") (chr "9"));
                    Re.between (chr "1") (chr "9")]).

Definition RE_d : Re.re :=
  Re.Grp 3 (Re.alt [Re.Cat (Re.one (chr "3")) (Re.between (chr "0") (chr "1"));
                    Re.Cat (Re.between (chr "1") (chr "2")) Re.digit;
                    Re.Cat (Re.one (chr "0")) (Re.between (chr "1") (chr "9"));
                    Re.between (chr "1") (chr "9");
                    Re.Cat (Re.one (chr " ")) (Re.between (chr "1") (chr "9"))]).

Definition RE_H : Re.re :=
  Re.Grp 4 (Re.alt [Re.Cat (Re.one (chr "2")) (Re.between (chr "0") (chr "3"));
                    Re.Cat (Re.between (chr "0") (chr "1")) Re.digit;
                    Re.digit]).

Definition RE_M : Re.re :=
  Re.Grp 5 (Re.alt [Re.Cat (Re.between (chr "0") (chr "5")) Re.digit;
                    Re.digit]).

(** ["%Y-%m-%d %H:%M"]: white space in a format stands for [\s+]. *)
Definition RE_ymd_HM : Re.re :=
  Re.cat [RE_Y; Re.one (chr "-"); RE_m; Re.one (chr "-"); RE_d;
          Re.spaces1; RE_H; Re.one (chr ":"); RE_M].

(** ["%Y-%m"] *)
Definition RE_ym : Re.re := Re.cat [RE_Y; Re.one (chr "-"); RE_m].

(** [datetime.strptime(s, "%Y-%m-%d %H:%M")]: the pattern must match at the
    start and leave nothing over. *)
Definition strptime_ymd_HM (s : text) : result datetime :=
  match Re.match_here RE_ymd_HM s with
  | Some (cs, []) =>
      datetime_new (int (Re.group_of 1 cs)) (int (Re.group_of 2 cs))
                   (int (Re.group_of 3 cs)) (int (Re.group_of 4 cs))
                   (int (Re.group_of 5 cs))
  | _ => Raise ValueError
  end.

(** [datetime.strptime(s, "%Y-%m")]: the day defaults to 1. *)
Definition strptime_ym (s : text) : result datetime :=
  match Re.match_here RE_ym s with
  | Some (cs, []) =>
      datetime_new (int (Re.group_of 1 cs)) (int (Re.group_of 2 cs)) 1 0 0
  | _ => Raise ValueError
  end.

(** [dt + timedelta(minutes=mins)] for [mins >= 0]. *)
Definition next_day (dt : datetime) : result datetime :=
  if day dt <? days_in_month (year dt) (month dt)
  then Ok (Datetime (year dt) (month dt) (day dt + 1) (hour dt) (minute dt))
  else if month dt <? 12
  then Ok (Datetime (year dt) (month dt + 1) 1 (hour dt) (minute dt))
  else if year dt <? 9999
  then Ok (Datetime (year dt + 1) 1 1 (hour dt) (minute dt))
  else Raise OverflowError.

Definition add_minutes (dt : datetime) (mins : Z) : result datetime :=
  let total := hour dt * 60 + minute dt + mins in
  d <- Nat.iter (Z.to_nat (total / 1440)) (fun r => bind r next_day) (Ok dt) ;;
  Ok (Datetime (year d) (month d) (day d)
               ((total mod 1440) / 60) (total mod 60)).

(** ** The [Game] record and its row *)

Definition GOOGLE_HEADERS : list text :=
  [T "Subject"; T "Start Date"; T "Start Time"; T "End Date"; T "End Time";
   T "All Day Event"; T "Location"].

Definition TIMEDELTA_MINUTES : Z := 150.

Record Game : Type := mkGame {
  home_away : text;
  opponent : text;
  venue : text;
  date : datetime;
  start_time : option text
}.

(** Truth value of an [Optional[str]]: [None] and the empty text are false. *)
Definition truthy (o : option text) : bool :=
  match o with
  | Some (_ :: _) => true
  | _ => false
  end.

Definition to_row (self : Game) : result (list text) :=
  let subject :=
    home_away self ++ T " vs " ++ opponent self ++ T "@" ++ venue self in
  match start_time self with
  | Some (c :: st) =>
      start_dt <- strptime_ymd_HM
                    (strftime_ymd (date self) ++ T " " ++ (c :: st)) ;;
      end_dt <- add_minutes start_dt TIMEDELTA_MINUTES ;;
      Ok [subject;
          strftime_ymd (date self);
          strftime_HM start_dt;
          strftime_ymd start_dt;
          strftime_HM end_dt;
          T "False";
          venue self]
  | _ =>
      Ok [subject ++ T " ※時刻未定";
          strftime_ymd (date self);
          [];
          strftime_ymd (date self);
          [];
          T "True";
          venue self]
  end.

(** ** [month_iter]

    The generator's loop; [fuel] bounds the number of iterations and [None]
    says the bound was reached before the loop condition failed. *)
Fixpoint month_loop (fuel : nat) (y m : Z) (end_ : datetime)
  : option (list (Z * Z)) :=
  if (y <? year end_) || ((y =? year end_) && (m <=? month end_)) then
    match fuel with
    | O => None
    | S f =>
        option_map (cons (y, m))
                   (if m =? 12 then month_loop f (y + 1) 1 end_
                    else month_loop f y (m + 1) end_)
    end
  else Some [].

(** The number of months from [start] to [end_], both included. *)
Definition months_spanned (start end_ : datetime) : Z :=
  12 * (year end_ - year start) + (month end_ - month start) + 1.

Definition month_iter (start end_ : datetime) : option (list (Z * Z)) :=
  month_loop (Z.to_nat (months_spanned start end_))
             (year start) (month start) end_.

(** ** Parsers *)

(** [re.sub(r"\s+", " ", s)]: every maximal run of white space becomes one
    space; [in_run] says the previous character was white space. *)
Fixpoint sub_spaces (in_run : bool) (s : text) : text :=
  match s with
  | [] => []
  | c :: s' =>
      if is_space c
      then (if in_run then sub_spaces true s' else chr " " :: sub_spaces true s')
      else c :: sub_spaces false s'
  end.

Definition _clean_text (s : text) : text := strip (sub_spaces false s).

(** The pattern "(\d{1,2}):(\d{2})" *)
Definition RE_time : Re.re :=
  Re.cat [Re.Grp 1 (Re.digits 1 2); Re.one (chr ":"); Re.Grp 2 (Re.digits 2 2)].

Definition parse_time (s : text) : option text :=
  if contains (T "未定") s then None
  else
    match Re.search RE_time s with
    | None => None
    | Some m =>
        let hh := int (Re.group 1 m) in
        let mm := int (Re.group 2 m) in
        Some (fmt0 2 hh ++ T ":" ++ fmt0 2 mm)
    end.

(** The pattern "(\d{1,2})[./](\d{1,2})" *)
Definition RE_md : Re.re :=
  Re.cat [Re.Grp 1 (Re.digits 1 2); Re.any_of (T "./"); Re.Grp 2 (Re.digits 1 2)].

(** The pattern "(\d{4})[./-](\d{1,2})[./-](\d{1,2})" *)
Definition RE_ymd : Re.re :=
  Re.cat [Re.Grp 1 (Re.digits 4 4); Re.any_of (T "./-");
          Re.Grp 2 (Re.digits 1 2); Re.any_of (T "./-");
          Re.Grp 3 (Re.digits 1 2)].

(** The identity key of a game and the dictionary that removes duplicates.
    A Python [dict] keeps its keys in the order of their first insertion and
    an assignment to a key already present replaces the value in place. *)
Definition key : Type := (text * text * text)%type.

Definition game_key (g : Game) : key :=
  (strftime_ymd (date g), opponent g, venue g).

Definition key_eqb (a b : key) : bool :=
  text_eqb (fst (fst a)) (fst (fst b))
  && text_eqb (snd (fst a)) (snd (fst b))
  && text_eqb (snd a) (snd b).

Fixpoint dict_set (k : key) (g : Game) (d : list (key * Game))
  : list (key * Game) :=
  match d with
  | [] => [(k, g)]
  | (k', g') :: d' =>
      if key_eqb k' k then (k', g) :: d' else (k', g') :: dict_set k g d'
  end.

Definition keyed_values (games : list Game) : list Game :=
  map snd (fold_left (fun d g => dict_set (game_key g) g d) games []).

(** What the selectors of BeautifulSoup find in a page.  An entry of the
    schedule list carries the text of each sub-element [select_one] looks for
    ([None] when there is none), as [get_text(" ", strip=True)] returns it; a
    candidate of the heuristic scan is the element's [get_text(" ")]. *)
Record Item : Type := mkItem {
  day_el : option text;        (* p.day *)
  opp_el : option text;        (* td.team-name p *)
  venue_el : option text;      (* p.stadium-name *)
  time_el : option text;       (* p.start-time *)
  home_el : option text        (* p.a-h *)
}.

Record Soup : Type := mkSoup {
  schedule_items : list Item;      (* div.tmpl_schedule_list ul.schedule-ul > li *)
  alvark_cards : list text;        (* the selector of parse_alvark_month *)
  sunrockers_candidates : list text (* the selector of parse_sunrockers_month *)
}.

(** One turn of the loop of [_parse_schedule_list]: [Ok None] is
    [continue], [Ok (Some g)] appends [g]. *)
Definition schedule_item (year month : Z) (home_keywords : list text)
           (item : Item) : result (option Game) :=
  match day_el item, opp_el item, venue_el item with
  | Some day_text, Some opp_text, Some venue_text =>
      let date_text := _clean_text day_text in
      match Re.search RE_md date_text with
      | None => Ok None
      | Some m =>
          let mo := int (Re.group 1 m) in
          let day := int (Re.group 2 m) in
          if negb (mo =? month) then Ok None
          else
            date <- datetime_new year mo day 0 0 ;;
            let venue := _clean_text venue_text in
            let opponent := _clean_text opp_text in
            let time_raw :=
              match time_el item with
              | Some t => _clean_text t
              | None => []
              end in
            let start_time := parse_time time_raw in
            let home_tag :=
              match home_el item with
              | Some t => upper (_clean_text t)
              | None => []
              end in
            let home_away :=
              if contains (T "HOME") home_tag then T "[HOME]" else T "[AWAY]" in
            let home_away :=
              match home_tag with
              | [] => if existsb (fun keyword => contains keyword venue)
                                 home_keywords
                      then T "[HOME]" else home_away
              | _ => home_away
              end in
            Ok (Some (mkGame home_away opponent venue date start_time))
      end
  | _, _, _ => Ok None
  end.

Fixpoint schedule_loop (year month : Z) (home_keywords : list text)
         (items : list Item) (games : list Game) : result (list Game) :=
  match items with
  | [] => Ok games
  | item :: rest =>
      r <- schedule_item year month home_keywords item ;;
      match r with
      | None => schedule_loop year month home_keywords rest games
      | Some g => schedule_loop year month home_keywords rest (games ++ [g])
      end
  end.

Definition _parse_schedule_list (year month : Z) (soup : Soup)
           (home_keywords : list text) : result (list Game) :=
  games <- schedule_loop year month home_keywords (schedule_items soup) [] ;;
  Ok (keyed_values games).

(** The patterns of the heuristic scan.  Under [re.IGNORECASE] the letter
    [s] also matches U+017F. *)
Definition RE_vs : Re.re :=
  Re.Cat (Re.any_of (T "vV")) (Re.any_of (T "sSſ")).

(** The pattern "vs\s*([^\s@|｜]+)" *)
Definition RE_opponent : Re.re :=
  Re.cat [RE_vs; Re.spaces0;
          Re.Grp 1 (Re.Rep (fun c => negb (is_space c || mem c (T "@|｜")))
                           1 None true)].

(** The pattern "[@＠]|会場|日時|時間" *)
Definition RE_opponent_end : Re.re :=
  Re.alt [Re.any_of (T "@＠"); Re.lit (T "会場"); Re.lit (T "日時");
          Re.lit (T "時間")].

(** The pattern "[@＠]\s*([^\s].+?)(?:\s|$)" *)
Definition RE_at : Re.re :=
  Re.cat [Re.any_of (T "@＠"); Re.spaces0;
          Re.Grp 1 (Re.Cat (Re.Cls (fun c => negb (is_space c)))
                           (Re.Rep Re.dot 1 None false));
          Re.Alt (Re.Cls is_space) Re.Eos].

(** The pattern of the venue label: group 1 is "会場[:：]\s*", group 2 is
    ".+?", and "(?:\s|$)" follows. *)
Definition RE_venue_label : Re.re :=
  Re.cat [Re.Grp 1 (Re.cat [Re.lit (T "会場"); Re.any_of (T ":："); Re.spaces0]);
          Re.Grp 2 (Re.Rep Re.dot 1 None false);
          Re.Alt (Re.Cls is_space) Re.Eos].

(** The date of a node: [Ok None] when neither pattern matches, [Raise]
    when [datetime] refuses the digits. *)
Definition node_date (year : Z) (txt : text) : result (option datetime) :=
  let m1 := Re.search RE_ymd txt in
  let m2 := Re.search RE_md txt in
  match m1, m2 with
  | Some m1, _ =>
      date <- datetime_new (int (Re.group 1 m1)) (int (Re.group 2 m1))
                           (int (Re.group 3 m1)) 0 0 ;;
      Ok (Some date)
  | None, Some m2 =>
      date <- datetime_new year (int (Re.group 1 m2)) (int (Re.group 2 m2)) 0 0 ;;
      Ok (Some date)
  | None, None => Ok None
  end.

Definition node_opponent (txt : text) : option text :=
  let opponent :=
    match Re.search RE_opponent txt with
    | Some op_m => Some (Re.group 1 op_m)
    | None => None
    end in
  if truthy opponent then opponent
  else
    let parts := Re.split RE_vs txt in
    if (2 <=? length parts)%nat then
      let tail := nth 1 parts [] in
      let opponent := _clean_text (hd [] (Re.split RE_opponent_end tail)) in
      Some (strip_chars (T " -|｜:：") opponent)
    else opponent.

Definition node_venue (known_arenas : list text) (txt : text)
  : option text :=
  let venue :=
    match Re.search RE_at txt with
    | Some at_m => Some (strip_chars (T " 、，,)|）)]") (Re.group 1 at_m))
    | None => None
    end in
  let venue :=
    if truthy venue then venue
    else
      match Re.search RE_venue_label txt with
      | Some v_m => Some (strip_chars (T " 、，,)|）)]") (Re.group 2 v_m))
      | None => venue
      end in
  if truthy venue then venue
  else
    match find (fun a => contains a txt) known_arenas with
    | Some a => Some a
    | None => venue
    end.

(** One turn of the loop over the candidate nodes; the three lists are what
    the two team parsers differ in. *)
Definition heuristic_node (markers known_arenas home_arenas : list text)
           (year : Z) (raw : text) : result (option Game) :=
  let txt := _clean_text raw in
  match txt with
  | [] => Ok None
  | _ :: _ =>
      if negb (existsb (fun mk => contains mk txt) markers) then Ok None
      else
        d <- node_date year txt ;;
        match d with
        | None => Ok None
        | Some date =>
            let opponent := node_opponent txt in
            match opponent with
            | Some ((_ :: _) as opponent) =>
                let venue := node_venue known_arenas txt in
                match venue with
                | Some ((_ :: _) as venue) =>
                    let start_time := parse_time txt in
                    let home_away := T "[AWAY]" in
                    let home_away :=
                      if existsb (fun x => contains x venue) home_arenas
                      then T "[HOME]" else home_away in
                    let home_away :=
                      if contains (T "HOME") (upper txt)
                      then T "[HOME]" else home_away in
                    let home_away :=
                      if contains (T "AWAY") (upper txt)
                      then T "[AWAY]" else home_away in
                    Ok (Some (mkGame home_away opponent venue date start_time))
                | _ => Ok None
                end
            | _ => Ok None
            end
        end
  end.

Fixpoint heuristic_loop (markers known_arenas home_arenas : list text)
         (year : Z) (cards : list text) (games : list Game)
  : result (list Game) :=
  match cards with
  | [] => Ok games
  | el :: rest =>
      r <- heuristic_node markers known_arenas home_arenas year el ;;
      match r with
      | None =>
          heuristic_loop markers known_arenas home_arenas year rest games
      | Some g =>
          heuristic_loop markers known_arenas home_arenas year rest
                         (games ++ [g])
      end
  end.

(** The part of a team parser after the structured pass came back empty. *)
Definition heuristic_pass (markers known_arenas home_arenas : list text)
           (year : Z) (cards : list text) : result (list Game) :=
  games <- heuristic_loop markers known_arenas home_arenas year cards [] ;;
  Ok (keyed_values games).

Definition ALVARK_MARKERS : list text :=
  [T "vs"; T "アルバルク東京"; T "東京"].
Definition ALVARK_KNOWN_ARENAS : list text :=
  [T "TOYOTA ARENA TOKYO"; T "おおきにアリーナ舞洲"; T "CNAアリーナ";
   T "ゼビオアリーナ"; T "IGアリーナ"].
Definition ALVARK_HOME : list text := [T "TOYOTA ARENA TOKYO"].

Definition SUNROCKERS_MARKERS : list text := [T "vs"; T "サンロッカーズ"].
Definition SUNROCKERS_KNOWN_ARENAS : list text :=
  [T "青山学院記念館"; T "ひがしんアリーナ"; T "国立代々木競技場 第二体育館";
   T "横浜BUNTAI"; T "IGアリーナ"].
Definition SUNROCKERS_HOME : list text :=
  [T "青山学院記念館"; T "ひがしんアリーナ"].

Definition parse_alvark_month (year month : Z) (soup : Soup)
  : result (list Game) :=
  games <- _parse_schedule_list year month soup ALVARK_HOME ;;
  match games with
  | _ :: _ => Ok games
  | [] =>
      heuristic_pass ALVARK_MARKERS ALVARK_KNOWN_ARENAS ALVARK_HOME
                     year (alvark_cards soup)
  end.

Definition parse_sunrockers_month (year month : Z) (soup : Soup)
  : result (list Game) :=
  games <- _parse_schedule_list year month soup SUNROCKERS_HOME ;;
  match games with
  | _ :: _ => Ok games
  | [] =>
      heuristic_pass SUNROCKERS_MARKERS SUNROCKERS_KNOWN_ARENAS SUNROCKERS_HOME
                     year (sunrockers_candidates soup)
  end.

(** ** [scrape]

    A computation that talks to the network is a pair: the URLs requested,
    in order, and the outcome. *)
Definition io (A : Type) : Type := (list text * result A)%type.

Definition io_ret {A : Type} (a : A) : io A := ([], Ok a).

Definition io_lift {A : Type} (r : result A) : io A := ([], r).

Definition io_bind {A B : Type} (x : io A) (f : A -> io B) : io B :=
  match snd x with
  | Ok a => (fst x ++ fst (f a), snd (f a))
  | Raise e => (fst x, Raise e)
  end.

(** The key of [all_games.sort]: [(g.date, g.start_time or "23:59",
    g.venue)], compared as Python compares tuples: the first components that
    differ decide. *)
Definition sort_key (g : Game) : datetime * text * text :=
  (date g,
   match start_time g with
   | Some (c :: st) => c :: st
   | _ => T "23:59"
   end,
   venue g).

Definition sort_key_ltb (a b : datetime * text * text) : bool :=
  if negb (datetime_eqb (fst (fst a)) (fst (fst b)))
  then datetime_ltb (fst (fst a)) (fst (fst b))
  else if negb (text_eqb (snd (fst a)) (snd (fst b)))
  then text_ltb (snd (fst a)) (snd (fst b))
  else text_ltb (snd a) (snd b).

(** [list.sort] is stable; on a key order that is total every stable sort
    returns the same list, and an insertion sort stands for it: an element
    goes in front of the first later element whose key is not smaller. *)
Fixpoint insert_game (g : Game) (l : list Game) : list Game :=
  match l with
  | [] => [g]
  | h :: t =>
      if sort_key_ltb (sort_key h) (sort_key g)
      then h :: insert_game g t
      else g :: h :: t
  end.

Definition sort_games (l : list Game) : list Game :=
  fold_right insert_game [] l.

Section Scrape.

(** [requests.get(url, timeout=20)], [raise_for_status] and the parse of
    the body by BeautifulSoup: the page behind a URL, or the failure of
    the request. *)
Variable get_page : text -> result Soup.

Definition fetch_month (team : text) (y m : Z) : io Soup :=
  if text_eqb team (T "alvark") then
    let url := T "https://www.alvark-tokyo.jp/schedule/?scheduleYear="
               ++ str_of_int y ++ T "&scheduleMonth=" ++ str_of_int m in
    ([url], get_page url)
  else if text_eqb team (T "sunrockers") then
    let url := T "https://www.sunrockers.jp/schedule/?scheduleYear="
               ++ str_of_int y ++ T "&scheduleMonth=" ++ str_of_int m in
    ([url], get_page url)
  else io_lift (Raise ValueError).

Fixpoint scrape_loop (team : text) (months : list (Z * Z))
         (all_games : list Game) : io (list Game) :=
  match months with
  | [] => io_ret all_games
  | (y, m) :: rest =>
      io_bind (fetch_month team y m) (fun html =>
      io_bind (io_lift (if text_eqb team (T "alvark")
                        then parse_alvark_month y m html
                        else parse_sunrockers_month y m html)) (fun games =>
      scrape_loop team rest (all_games ++ games)))
  end.

(** [None]: the month generator did not come to an end. *)
Definition scrape (team start_ym end_ym : text) : option (io (list Game)) :=
  match strptime_ym start_ym with
  | Raise e => Some (io_lift (Raise e))
  | Ok start =>
      match strptime_ym end_ym with
      | Raise e => Some (io_lift (Raise e))
      | Ok end_ =>
          match month_iter start end_ with
          | None => None
          | Some months =>
              Some (io_bind (scrape_loop team months []) (fun all_games =>
                    io_ret (sort_games all_games)))
          end
      end
  end.

End Scrape.

(** ** [write_google_csv]

    A file is taken as the list of rows handed to [csv.writer], header
    first, which is what [csv.reader] yields for it as long as its cells
    are plain: no lone surrogate (the encoder of the file refuses it), no
    NUL and no cell above the reader's field limit (see [plain_cell]; the
    properties on written files take their cells plain).  A game whose row
    cannot be built ends the writing with its exception; the header and the
    rows before it are in the file by then. *)
Fixpoint write_rows (games : list Game) : list (list text) * result unit :=
  match games with
  | [] => ([], Ok tt)
  | g :: rest =>
      match to_row g with
      | Ok row => (row :: fst (write_rows rest), snd (write_rows rest))
      | Raise e => ([], Raise e)
      end
  end.

Definition write_google_csv (games : list Game)
  : list (list text) * result unit :=
  (GOOGLE_HEADERS :: fst (write_rows games), snd (write_rows games)).

(** ** Validation *)

Fixpoint list_eqb {A : Type} (eqb : A -> A -> bool) (a b : list A) : bool :=
  match a, b with
  | [], [] => true
  | x :: a', y :: b' => eqb x y && list_eqb eqb a' b'
  | _, _ => false
  end.

Definition row_eqb : list text -> list text -> bool := list_eqb text_eqb.
Definition rows_eqb : list (list text) -> list (list text) -> bool :=
  list_eqb row_eqb.

(** A file is what [csv.reader] yields for it, header row first: a file
    that the reader reads to its end (it gives up on a cell above its field
    limit, see [plain_cell]).  [read_csv] checks the header and strips
    every cell. *)
Definition read_csv (file : list (list text)) : result (list (list text)) :=
  let headers := hd [] file in
  if negb (row_eqb (map strip headers) GOOGLE_HEADERS) then Raise ValueError
  else Ok (map (map strip) (tl file)).

(** A line of the report, by its parts: ["Row {n} differs"] with the two
    rows, and ["Length differs"] with the two lengths. *)
Inductive diff_line : Type :=
| RowDiffers (n : nat) (actual expected : list text)
| LengthDiffers (actual expected : nat).

(** The loop [for i in range(n)] of [validate_csv], over the indices still
    to visit; it stops at the tenth difference. *)
Fixpoint diff_loop (act exp : list (list text)) (indices : list nat)
         (diffs : list diff_line) : list diff_line :=
  match indices with
  | [] => diffs
  | i :: rest =>
      if negb (row_eqb (nth i act []) (nth i exp [])) then
        let diffs := diffs ++ [RowDiffers (i + 2) (nth i act []) (nth i exp [])] in
        if (10 <=? length diffs)%nat then diffs
        else diff_loop act exp rest diffs
      else diff_loop act exp rest diffs
  end.

Definition compare_rows (act exp : list (list text)) : bool * list diff_line :=
  let ok := rows_eqb act exp in
  let diffs := [] in
  let diffs :=
    if negb ok then
      let n := Nat.min (length act) (length exp) in
      let diffs := diff_loop act exp (seq 0 n) diffs in
      if negb (length act =? length exp)%nat
      then diffs ++ [LengthDiffers (length act) (length exp)]
      else diffs
    else diffs in
  (ok, diffs).

Definition validate_csv (actual expected : list (list text))
  : result (bool * list diff_line) :=
  act <- read_csv actual ;;
  exp <- read_csv expected ;;
  Ok (compare_rows act exp).

(* ================================================================= *)
(** * Part II: vocabulary of the properties *)
(* ================================================================= *)

(** Every [datetime] object is in range: the constructor refuses the
    others. *)
Definition wf_datetime (dt : datetime) : Prop :=
  valid_date (year dt) (month dt) (day dt)
  && valid_time (hour dt) (minute dt) = true.

(** Order on year-month pairs. *)
Definition ym_lt (a b : Z * Z) : Prop :=
  fst a < fst b \/ (fst a = fst b /\ snd a < snd b).

Definition ym_of (dt : datetime) : Z * Z := (year dt, month dt).

(** [start <= end_] and [start > end_] as months. *)
Definition month_le (start end_ : datetime) : Prop :=
  ym_of start = ym_of end_ \/ ym_lt (ym_of start) (ym_of end_).

Definition month_after (start end_ : datetime) : Prop :=
  ym_lt (ym_of end_) (ym_of start).

(** The calendar month after a month. *)
Definition next_month (ym : Z * Z) : Z * Z :=
  if snd ym =? 12 then (fst ym + 1, 1) else (fst ym, snd ym + 1).

(** [n] calendar months in a row, the first being [ym]. *)
Fixpoint months_from (n : nat) (ym : Z * Z) : list (Z * Z) :=
  match n with
  | O => []
  | S k => ym :: months_from k (next_month ym)
  end.

(** Position of a month on the line of all months. *)
Definition month_index (ym : Z * Z) : Z := 12 * fst ym + snd ym.

(** The report in the words of the specification: one entry for every index
    below both lengths at which the rows differ, numbered [i + 2] (data row
    [i + 1], one more for the header row), and a note when the lengths
    differ. *)
Definition divergence_at (act exp : list (list text)) (i : nat)
  : list diff_line :=
  if row_eqb (nth i act []) (nth i exp []) then []
  else [RowDiffers (i + 2) (nth i act []) (nth i exp [])].

Definition row_divergences (act exp : list (list text)) : list diff_line :=
  flat_map (divergence_at act exp) (seq 0 (Nat.min (length act) (length exp))).

Definition length_note (act exp : list (list text)) : list diff_line :=
  if (length act =? length exp)%nat then []
  else [LengthDiffers (length act) (length exp)].

Definition is_row_entry (d : diff_line) : bool :=
  match d with
  | RowDiffers _ _ _ => true
  | LengthDiffers _ _ => false
  end.

(** Five data rows, and the same with the third changed. *)
Definition sample_rows : list (list text) :=
  [[T "r1"]; [T "r2"]; [T "r3"]; [T "r4"]; [T "r5"]].

Definition sample_rows' : list (list text) :=
  [[T "r1"]; [T "r2"]; [T "changed"]; [T "r4"]; [T "r5"]].

(** The order of the sort, spelled out: date first, then the time of the
    key, then the venue. *)
Definition time_key (g : Game) : text := snd (fst (sort_key g)).

Definition game_le (a b : Game) : Prop :=
  datetime_ltb (date a) (date b) = true \/
  (date a = date b /\
   (text_ltb (time_key a) (time_key b) = true \/
    (time_key a = time_key b /\ text_ltb (venue b) (venue a) = false))).

Definition sort_key_t : Type := (datetime * text * text)%type.

Definition sort_key_eqb (a b : sort_key_t) : bool :=
  datetime_eqb (fst (fst a)) (fst (fst b))
  && text_eqb (snd (fst a)) (snd (fst b))
  && text_eqb (snd a) (snd b).

(** The games of a list that carry a given sort key, in their order. *)
Definition with_key (k : datetime * text * text) (l : list Game) : list Game :=
  filter (fun g => sort_key_eqb (sort_key g) k) l.

(** "Every undecided-time fixture comes after all timed fixtures of its
    date": no undecided game stands at or before a timed game of the same
    date. *)
Definition undecided_after_timed (out : list Game) : Prop :=
  forall i j t u,
    nth_error out i = Some t -> nth_error out j = Some u ->
    date t = date u ->
    truthy (start_time t) = true -> truthy (start_time u) = false ->
    (i < j)%nat.

(** The same for the timed games that start before 23:59. *)
Definition undecided_after_earlier (out : list Game) : Prop :=
  forall i j t u,
    nth_error out i = Some t -> nth_error out j = Some u ->
    date t = date u ->
    truthy (start_time t) = true ->
    text_ltb (time_key t) (T "23:59") = true ->
    truthy (start_time u) = false ->
    (i < j)%nat.

(** Two games of one date: a timed one at 23:59 and one without a time. *)
Definition late_game : Game :=
  mkGame (T "[AWAY]") (T "Rival") (T "B Arena")
         (Datetime 2025 10 4 0 0) (Some (T "23:59")).

Definition undecided_game : Game :=
  mkGame (T "[AWAY]") (T "Other") (T "A Arena")
         (Datetime 2025 10 4 0 0) None.

(** What one month contributes to [scrape]: the games the team's parser
    returns for the page fetched for that month. *)
Definition month_result (get_page : text -> result Soup) (team : text)
           (ym : Z * Z) (games : list Game) : Prop :=
  exists html,
    snd (fetch_month get_page team (fst ym) (snd ym)) = Ok html /\
    (if text_eqb team (T "alvark")
     then parse_alvark_month (fst ym) (snd ym) html
     else parse_sunrockers_month (fst ym) (snd ym) html) = Ok games.

(** A site whose every page has no schedule list and one free-text node
    announcing the game of 3 November 2025, whatever month is asked for. *)
Definition relisting_page : Soup :=
  mkSoup [] [T "vs Rival @Arena 2025.11.3 19:05"] [].

Definition relisting_site (url : text) : result Soup := Ok relisting_page.

(** The dictionary invariant: keys are distinct and each value sits under
    its own key. *)
Definition dict_ok (d : list (key * Game)) : Prop :=
  NoDup (map fst d) /\ Forall (fun kg => game_key (snd kg) = fst kg) d.

Definition relisted_game : Game :=
  mkGame (T "[AWAY]") (T "Rival") (T "Arena")
         (Datetime 2025 11 3 0 0) (Some (T "19:05")).

Definition relisting_log : list text :=
  [T "https://www.alvark-tokyo.jp/schedule/?scheduleYear=2025&scheduleMonth=10";
   T "https://www.alvark-tokyo.jp/schedule/?scheduleYear=2025&scheduleMonth=11"].

(** A time token in a text: at position [i] stand one or two decimal
    digits [h], a colon and two decimal digits [m]. *)
Definition time_token_at (s : text) (i : nat) (h m : text) : Prop :=
  exists post,
    skipn i s = h ++ chr ":" :: m ++ post /\
    (length h = 1 \/ length h = 2)%nat /\ length m = 2%nat /\
    forallb is_digit h = true /\ forallb is_digit m = true.

(** The ASCII digit of a value below ten. *)
Definition digit_char (d : Z) : char := Z.to_N (48 + d).

(** What the pattern of [parse_time] finds at the head of a text: the hour
    digits (two if the pattern can go on after them, else one), the minute
    digits and the text left. *)
Definition time_here (s : text) : option (text * text * text) :=
  match s with
  | a :: s1 =>
      if is_digit a then
        match
          match s1 with
          | b :: c :: d :: e :: r =>
              if is_digit b && (c =? chr ":")%N && is_digit d && is_digit e
              then Some ([a; b], [d; e], r) else None
          | _ => None
          end
        with
        | Some x => Some x
        | None =>
            match s1 with
            | c :: d :: e :: r =>
                if (c =? chr ":")%N && is_digit d && is_digit e
                then Some ([a], [d; e], r) else None
            | _ => None
            end
        end
      else None
  | [] => None
  end.

(** The time part of the pattern of [strptime]. *)
Definition RE_HM : Re.re := Re.cat [RE_H; Re.one (chr ":"); RE_M].

(** The token ["HH:MM"] of two numbers below one hundred, and the check
    that [strptime]'s time pattern reads it back when it is a time of day
    and otherwise fails or leaves text over. *)
Definition hm_token (hh mm : Z) : text := fmt0 2 hh ++ T ":" ++ fmt0 2 mm.

Definition caps_eqb (a b : Re.caps) : bool :=
  list_eqb (fun x y => Nat.eqb (fst x) (fst y) && text_eqb (snd x) (snd y)) a b.

Definition hm_check (n : Z) : bool :=
  let hh := n / 100 in
  let mm := n mod 100 in
  match Re.match_here RE_HM (hm_token hh mm) with
  | Some (cs, []) =>
      caps_eqb cs [(5%nat, fmt0 2 mm); (4%nat, fmt0 2 hh)] && valid_time hh mm
  | _ => negb (valid_time hh mm)
  end.

(** A home game at 22:00, which ends after midnight. *)
Definition night_game : Game :=
  mkGame (T "[HOME]") (T "Rival") (T "Arena")
         (Datetime 2025 10 4 0 0) (Some (T "22:00")).

(** The subject column of a row. *)
Definition subject_of (g : Game) : text :=
  home_away g ++ T " vs " ++ opponent g ++ T "@" ++ venue g.

(** The digits the date patterns of the heuristic scan find in a node: year,
    month and day of the full pattern, else the target year with month and
    day of the short pattern. *)
Definition date_digits (year : Z) (txt : text) : option (Z * Z * Z) :=
  match Re.search RE_ymd txt, Re.search RE_md txt with
  | Some m1, _ =>
      Some (int (Re.group 1 m1), int (Re.group 2 m1), int (Re.group 3 m1))
  | None, Some m2 => Some (year, int (Re.group 1 m2), int (Re.group 2 m2))
  | None, None => None
  end.

(** A candidate node that passes the marker test and whose date digits are
    no calendar date. *)
Definition ill_dated (markers : list text) (year : Z) (raw : text) : Prop :=
  _clean_text raw <> [] /\
  existsb (fun mk => contains mk (_clean_text raw)) markers = true /\
  exists y m d, date_digits year (_clean_text raw) = Some (y, m, d) /\
                valid_date y m d = false.

(** The years [datetime] takes without [OverflowError]: those that fit a C
    int.  Beyond them the constructor raises before its range test. *)
Definition c_int (n : Z) : Prop := -2147483648 <= n <= 2147483647.

(** A candidate node that passes the marker test and names the month
    [month], of a year in range, with a day that month does not have. *)
Definition ill_day_node (markers : list text) (year month : Z) (raw : text)
  : Prop :=
  _clean_text raw <> [] /\
  existsb (fun mk => contains mk (_clean_text raw)) markers = true /\
  exists y d, date_digits year (_clean_text raw) = Some (y, month, d) /\
              1 <= y <= 9999 /\ 1 <= month <= 12 /\
              valid_date y month d = false.

(** Two nodes: the first names the 31st of November, the second is a proper
    fixture; and an entry of a schedule list that names the same day. *)
Definition bad_node : text := T "vs Rival @Arena 11/31".
Definition bad_item : Item :=
  mkItem (Some (T "11.31")) (Some (T "Rival")) (Some (T "Arena")) None None.
Definition good_node : text := T "vs Rival @Arena 11/3 19:05".
Definition good_game : Game :=
  mkGame (T "[AWAY]") (T "Rival") (T "Arena")
         (Datetime 2025 11 3 0 0) (Some (T "19:05")).

(** Proof tools: case analysis on the tests of a goal, and evaluation of
    its closed tests and formats. *)
Ltac split_ifs :=
  repeat match goal with
         | |- context [if ?x <? ?y then _ else _] => destruct (Z.ltb_spec x y)
         end.

(** Evaluate the closed tests of a goal. *)
Ltac eval_tests :=
  repeat match goal with
         | |- context [if ?b then _ else _] =>
             let v := eval vm_compute in b in
             first [constr_eq v true | constr_eq v false];
             change b with v; cbv iota
         end.

Ltac eval_fmt :=
  repeat match goal with
         | |- context [fmt0 2 ?n] =>
             let v := eval vm_compute in (fmt0 2 n) in
             change (fmt0 2 n) with v
         end.

(** The last game of a list that carries a given identity key. *)
Definition last_with_key (k : key) (games : list Game) : option Game :=
  find (fun g => key_eqb (game_key g) k) (rev games).

(** A game dated in a given month. *)
Definition dated_in (ym : Z * Z) (g : Game) : Prop :=
  year (date g) = fst ym /\ month (date g) = snd ym /\ wf_datetime (date g).

(** The identity keys of a list of games in the order of their first
    occurrence; [seen] holds the keys met so far. *)
Fixpoint first_keys (seen : list key) (games : list Game) : list key :=
  match games with
  | [] => []
  | g :: rest =>
      if existsb (fun k => key_eqb k (game_key g)) seen
      then first_keys seen rest
      else game_key g :: first_keys (seen ++ [game_key g]) rest
  end.

(** A text whose only white space is single spaces; [after_space] says a
    space stands just before the text. *)
Fixpoint single_spaced (after_space : bool) (s : text) : Prop :=
  match s with
  | [] => True
  | c :: r =>
      if is_space c
      then c = chr " " /\ after_space = false /\ single_spaced true r
      else single_spaced false r
  end.

Definition not_space (c : char) : bool := negb (is_space c).

(** [parse_time] on the token of the numbers [n / 100] and [n mod 100]
    gives the token back. *)
Definition reparse_check (n : Z) : bool :=
  match parse_time (hm_token (n / 100) (n mod 100)) with
  | Some t => text_eqb t (hm_token (n / 100) (n mod 100))
  | None => false
  end.

(** A game as the parsers build it: one of the two tags, a venue without
    white space at its ends, a date in range and a start time that is
    absent or a token of [parse_time]. *)
Definition tidy (g : Game) : Prop :=
  (home_away g = T "[HOME]" \/ home_away g = T "[AWAY]") /\
  strip (venue g) = venue g /\
  wf_datetime (date g) /\
  (start_time g = None \/
   exists hh mm, 0 <= hh <= 99 /\ 0 <= mm <= 99
                 /\ start_time g = Some (hm_token hh mm)).

(** An entry of the schedule list that has its three required elements and
    names the target month with a day the month does not have. *)
Definition ill_day (y mo : Z) (item : Item) : Prop :=
  exists day_text opp_text venue_text m,
    day_el item = Some day_text /\ opp_el item = Some opp_text /\
    venue_el item = Some venue_text /\
    Re.search RE_md (_clean_text day_text) = Some m /\
    int (Re.group 1 m) = mo /\
    valid_date y mo (int (Re.group 2 m)) = false.

(** What [scrape] asks of the network for one month, and what the month
    comes to: the games of its page, or the exception of the request or of
    the parser. *)
Definition month_requests (get_page : text -> result Soup) (team : text)
           (ym : Z * Z) : list text :=
  fst (fetch_month get_page team (fst ym) (snd ym)).

Definition month_outcome (get_page : text -> result Soup) (team : text)
           (ym : Z * Z) : result (list Game) :=
  html <- snd (fetch_month get_page team (fst ym) (snd ym)) ;;
  if text_eqb team (T "alvark")
  then parse_alvark_month (fst ym) (snd ym) html
  else parse_sunrockers_month (fst ym) (snd ym) html.

(** The months from the month of [start] to the month of [end_], none when
    [start] is the later one. *)
Definition range_months (start end_ : datetime) : list (Z * Z) :=
  months_from (Z.to_nat (months_spanned start end_)) (ym_of start).



(** A site that serves one page for every month: a schedule list with an
    entry for 4 October and one for 3 November. *)
Definition listed_page : Soup :=
  mkSoup [mkItem (Some (T "10.04")) (Some (T "Other")) (Some (T "A Arena"))
                 None None;
          mkItem (Some (T "11.03")) (Some (T "Rival")) (Some (T "Arena"))
                 (Some (T "19:05")) None]
         [] [].

Definition listed_site (url : text) : result Soup := Ok listed_page.

(** The schedule list of a page yields at least one game for the month
    asked: the team's parser then returns the games of the list and leaves
    the free-text scan aside. *)
Definition structured (team : text) (ym : Z * Z) (html : Soup) : Prop :=
  _parse_schedule_list (fst ym) (snd ym) html
    (if text_eqb team (T "alvark") then ALVARK_HOME else SUNROCKERS_HOME)
  <> Ok [].

(** A file's header as [read_csv] wants it. *)
Definition good_header (file : list (list text)) : Prop :=
  map strip (hd [] file) = GOOGLE_HEADERS.


(** A line of the report read from the other side: the two rows, or the
    two lengths, change places. *)
Definition mirror (d : diff_line) : diff_line :=
  match d with
  | RowDiffers n a e => RowDiffers n e a
  | LengthDiffers a e => LengthDiffers e a
  end.

(** An entry of the schedule list that has its three required elements and
    names the month [mo]: the others are passed over. *)
Definition names_month (mo : Z) (item : Item) : bool :=
  match day_el item, opp_el item, venue_el item with
  | Some day_text, Some _, Some _ =>
      match Re.search RE_md (_clean_text day_text) with
      | Some m => int (Re.group 1 m) =? mo
      | None => false
      end
  | _, _, _ => false
  end.

(** Cells the csv round trip keeps as they are: no lone surrogate (the
    encoder of the writer's file refuses them), no NUL, and no more than
    the reader's field limit of 131072 characters. *)
Definition surrogate (c : char) : bool :=
  (55296 <=? c)%N && (c <=? 57343)%N.

Definition plain_cell (s : text) : bool :=
  (Z.of_nat (length s) <=? 131072)
  && forallb (fun c => negb (surrogate c) && negb (c =? 0)%N) s.

Definition plain_file (file : list (list text)) : Prop :=
  forallb (forallb plain_cell) file = true.

(** A game whose date [strftime] writes with a four-digit year on every
    platform. *)
Definition four_digit_year (g : Game) : Prop :=
  wf_datetime (date g) /\ 1000 <= year (date g).

(* ================================================================= *)
(** * Part III: properties *)
(* ================================================================= *)

(** ** The month iterator *)

Lemma wf_datetime_month (dt : datetime) :
  wf_datetime dt -> 1 <= month dt <= 12.
Proof.
  unfold wf_datetime, valid_date. intros H.
  repeat (apply andb_prop in H; destruct H as [H ?]). lia.
Qed.

Lemma month_loop_enough (end_ : datetime) :
  1 <= month end_ <= 12 ->
  forall fuel y m,
    1 <= m <= 12 ->
    12 * (year end_ - y) + (month end_ - m) + 1 <= Z.of_nat fuel ->
    month_loop fuel y m end_ =
    Some (months_from (Z.to_nat (12 * (year end_ - y) + (month end_ - m) + 1))
                      (y, m)).
Proof.
  intros He fuel. induction fuel as [|f IH]; intros y m Hm Hn.
  - cbn [month_loop].
    destruct ((y <? year end_) || ((y =? year end_) && (m <=? month end_)))
      eqn:C.
    + exfalso. apply orb_prop in C. destruct C as [C|C]; [|apply andb_prop in C; destruct C]; lia.
    + replace (Z.to_nat _) with O; [reflexivity|].
      apply orb_false_elim in C. destruct C as [C1 C2].
      apply andb_false_elim in C2. destruct C2; lia.
  - cbn [month_loop].
    destruct ((y <? year end_) || ((y =? year end_) && (m <=? month end_)))
      eqn:C.
    + assert (Hpos : 1 <= 12 * (year end_ - y) + (month end_ - m) + 1).
      { apply orb_prop in C. destruct C as [C|C]; [|apply andb_prop in C; destruct C]; lia. }
      replace (Z.to_nat (12 * (year end_ - y) + (month end_ - m) + 1))
        with (S (Z.to_nat (12 * (year end_ - y) + (month end_ - m)))) by lia.
      cbn [months_from]. unfold next_month. cbn [fst snd].
      destruct (m =? 12) eqn:E.
      * rewrite IH by lia. cbn [option_map]. do 3 f_equal. lia.
      * rewrite IH by lia. cbn [option_map]. do 3 f_equal. lia.
    + replace (Z.to_nat _) with O; [reflexivity|].
      apply orb_false_elim in C. destruct C as [C1 C2].
      apply andb_false_elim in C2. destruct C2; lia.
Qed.

Lemma months_from_length n ym : length (months_from n ym) = n.
Proof.
  revert ym. induction n; intros; cbn; [reflexivity|]. now rewrite IHn.
Qed.

Lemma months_from_nth n ym i :
  (S i < n)%nat ->
  nth (S i) (months_from n ym) (0, 0) =
  next_month (nth i (months_from n ym) (0, 0)).
Proof.
  revert n ym. induction i as [|i IH]; intros n ym H.
  - destruct n as [|[|n]]; try lia. reflexivity.
  - destruct n as [|n]; [lia|].
    change (nth (S (S i)) (months_from (S n) ym) (0, 0))
      with (nth (S i) (months_from n (next_month ym)) (0, 0)).
    rewrite IH by lia. reflexivity.
Qed.

Lemma next_month_index ym :
  1 <= snd ym <= 12 ->
  month_index (next_month ym) = month_index ym + 1 /\
  1 <= snd (next_month ym) <= 12.
Proof.
  unfold next_month, month_index. destruct ym as [y m]. cbn [fst snd].
  intros H. destruct (m =? 12) eqn:E; cbn [fst snd]; lia.
Qed.

Lemma months_from_index n ym i :
  1 <= snd ym <= 12 -> (i < n)%nat ->
  month_index (nth i (months_from n ym) (0, 0)) = month_index ym + Z.of_nat i /\
  1 <= snd (nth i (months_from n ym) (0, 0)) <= 12.
Proof.
  revert ym i. induction n as [|n IH]; intros ym i Hm Hi; [lia|].
  destruct i as [|i]; cbn [months_from nth].
  - split; [lia|exact Hm].
  - destruct (next_month_index ym Hm) as [E1 E2].
    destruct (IH (next_month ym) i E2 ltac:(lia)) as [E3 E4].
    split; [lia|exact E4].
Qed.

Lemma ym_lt_index a b :
  1 <= snd a <= 12 -> 1 <= snd b <= 12 ->
  (ym_lt a b <-> month_index a < month_index b).
Proof. unfold ym_lt, month_index. lia. Qed.

Lemma index_inj a b :
  1 <= snd a <= 12 -> 1 <= snd b <= 12 ->
  month_index a = month_index b -> a = b.
Proof.
  destruct a, b. unfold month_index. cbn [fst snd]. intros.
  f_equal; lia.
Qed.

Lemma last_as_nth (A : Type) (l : list A) (d : A) :
  last l d = nth (length l - 1) l d.
Proof.
  induction l as [|a [|b l] IH]; try reflexivity.
  change (last (a :: b :: l) d) with (last (b :: l) d). rewrite IH.
  cbn [length Nat.sub nth]. now rewrite Nat.sub_0_r.
Qed.

(** C6.  For valid boundaries with start <= end, [month_iter] comes to an end
    and yields exactly the months spanned, both boundaries included: as many
    as [months_spanned] counts, the first is the start month, the last the
    end month, each next one is the calendar successor of the one before (no
    gap), the sequence is strictly ascending, has no repeat, and holds every
    calendar month between the boundaries and no other. *)
Theorem month_iter_spans (start end_ : datetime) :
  wf_datetime start -> wf_datetime end_ -> month_le start end_ ->
  exists months,
    month_iter start end_ = Some months /\
    Z.of_nat (length months) = months_spanned start end_ /\
    hd_error months = Some (ym_of start) /\
    last months (0, 0) = ym_of end_ /\
    (forall i, (S i < length months)%nat ->
               nth (S i) months (0, 0) = next_month (nth i months (0, 0))) /\
    (forall i j, (i < j < length months)%nat ->
                 ym_lt (nth i months (0, 0)) (nth j months (0, 0))) /\
    NoDup months /\
    (forall ym, In ym months <->
                1 <= snd ym <= 12 /\ ~ ym_lt ym (ym_of start)
                /\ ~ ym_lt (ym_of end_) ym).
Proof.
  intros Hs He Hle.
  apply wf_datetime_month in Hs, He.
  assert (Hn : 1 <= months_spanned start end_).
  { unfold months_spanned. destruct Hle as [E|L].
    - unfold ym_of in E. injection E as E1 E2. lia.
    - unfold ym_lt, ym_of in L. cbn [fst snd] in L. lia. }
  set (n := Z.to_nat (months_spanned start end_)).
  assert (Hsm : 1 <= snd (ym_of start) <= 12) by exact Hs.
  assert (Hem : 1 <= snd (ym_of end_) <= 12) by exact He.
  assert (Hidx : month_index (ym_of end_) =
                 month_index (ym_of start) + Z.of_nat n - 1).
  { unfold month_index, ym_of, n, months_spanned in *. cbn [fst snd]. lia. }
  exists (months_from n (ym_of start)).
  assert (Hlen : length (months_from n (ym_of start)) = n)
    by apply months_from_length.
  split.
  { unfold month_iter. rewrite (month_loop_enough end_ He); [|exact Hs|].
    - reflexivity.
    - unfold months_spanned. lia. }
  split; [rewrite Hlen; unfold n; lia|].
  split.
  { destruct n as [|k] eqn:En; [unfold n in En; lia|reflexivity]. }
  split.
  { rewrite last_as_nth, Hlen.
    destruct (months_from_index n (ym_of start) (n - 1) Hsm) as [E1 E2];
      [unfold n; lia|].
    apply index_inj; [exact E2|exact Hem|]. rewrite E1, Hidx. unfold n. lia. }
  split.
  { intros i Hi. rewrite Hlen in Hi. now apply months_from_nth. }
  split.
  { intros i j Hij. rewrite Hlen in Hij.
    destruct (months_from_index n (ym_of start) i Hsm) as [E1 E2]; [lia|].
    destruct (months_from_index n (ym_of start) j Hsm) as [E3 E4]; [lia|].
    apply ym_lt_index; [exact E2|exact E4|]. lia. }
  split.
  { apply (NoDup_nth _ (0, 0)). intros i j Hi Hj E. rewrite Hlen in Hi, Hj.
    destruct (months_from_index n (ym_of start) i Hsm Hi) as [E1 _].
    destruct (months_from_index n (ym_of start) j Hsm Hj) as [E3 _].
    rewrite E in E1. lia. }
  intros ym. split.
  - intros Hin. apply (In_nth _ _ (0, 0)) in Hin.
    destruct Hin as [i [Hi E]]. rewrite Hlen in Hi.
    destruct (months_from_index n (ym_of start) i Hsm Hi) as [E1 E2].
    rewrite E in E1, E2. split; [exact E2|].
    split; intros L.
    + apply ym_lt_index in L; [lia|exact E2|exact Hsm].
    + apply ym_lt_index in L; [lia|exact Hem|exact E2].
  - intros [Hm [L1 L2]].
    assert (B1 : month_index (ym_of start) <= month_index ym).
    { destruct (Z_lt_le_dec (month_index ym) (month_index (ym_of start)))
        as [C|C]; [|exact C].
      exfalso. apply L1. apply ym_lt_index; assumption. }
    assert (B2 : month_index ym <= month_index (ym_of end_)).
    { destruct (Z_lt_le_dec (month_index (ym_of end_)) (month_index ym))
        as [C|C]; [|exact C].
      exfalso. apply L2. apply ym_lt_index; assumption. }
    set (i := Z.to_nat (month_index ym - month_index (ym_of start))).
    assert (Hi : (i < n)%nat) by (unfold i; lia).
    destruct (months_from_index n (ym_of start) i Hsm Hi) as [E1 E2].
    replace ym with (nth i (months_from n (ym_of start)) (0, 0)).
    + apply nth_In. rewrite Hlen. exact Hi.
    + apply index_inj; [exact E2|exact Hm|]. rewrite E1. unfold i. lia.
Qed.

Lemma month_iter_spans_witness :
  exists months,
    month_iter (Datetime 2025 10 1 0 0) (Datetime 2026 5 1 0 0) = Some months
    /\ Z.of_nat (length months) = 8.
Proof.
  destruct (month_iter_spans (Datetime 2025 10 1 0 0)
                             (Datetime 2026 5 1 0 0))
    as [months [H1 [H2 _]]].
  - reflexivity.
  - reflexivity.
  - right. left. cbn. lia.
  - exists months. split; [exact H1|exact H2].
Defined.

Lemma month_loop_after (fuel : nat) (y m : Z) (end_ : datetime) :
  ym_lt (ym_of end_) (y, m) -> month_loop fuel y m end_ = Some [].
Proof.
  unfold ym_lt, ym_of. cbn [fst snd]. intros H.
  assert (C : (y <? year end_) || ((y =? year end_) && (m <=? month end_))
              = false).
  { destruct (Z.ltb_spec y (year end_)), (Z.eqb_spec y (year end_)),
      (Z.leb_spec m (month end_)); cbn; try reflexivity; lia. }
  destruct fuel; cbn [month_loop]; rewrite C; reflexivity.
Qed.

(** C5, as the code has it.  When the start month is strictly after the end
    month, [month_iter] raises nothing: it yields no month at all.  [scrape]
    then requests no page and returns the empty list. *)
Theorem month_iter_reversed_is_empty (start end_ : datetime) :
  month_after start end_ ->
  month_iter start end_ = Some [] /\
  forall get_page team start_ym end_ym,
    strptime_ym start_ym = Ok start ->
    strptime_ym end_ym = Ok end_ ->
    scrape get_page team start_ym end_ym = Some ([], Ok []).
Proof.
  intros H.
  assert (E : month_iter start end_ = Some [])
    by (unfold month_iter; now apply month_loop_after).
  split; [exact E|].
  intros get_page team s e Hs He. unfold scrape. rewrite Hs, He, E.
  reflexivity.
Qed.

Lemma month_iter_reversed_is_empty_witness :
  month_iter (Datetime 2026 5 1 0 0) (Datetime 2025 10 1 0 0) = Some [].
Proof.
  apply (month_iter_reversed_is_empty (Datetime 2026 5 1 0 0)
                                      (Datetime 2025 10 1 0 0)).
  left. cbn. lia.
Defined.

(** C5 as the claim states it fails: with start 2026-05 and end 2025-10,
    whatever the network would answer, [scrape] does not fail: it returns
    the empty list (and requests nothing). *)
Lemma scrape_reversed_range_does_not_fail :
  let run := scrape (fun _ => Raise FetchError)
                    (T "alvark") (T "2026-05") (T "2025-10") in
  run = Some ([], Ok []) /\ ~ (exists log e, run = Some (log, Raise e)).
Proof.
  assert (E : scrape (fun _ => Raise FetchError)
                     (T "alvark") (T "2026-05") (T "2025-10")
              = Some ([], Ok [])) by (vm_compute; reflexivity).
  cbv zeta. split; [exact E|].
  intros [log [e H]]. rewrite E in H. discriminate H.
Qed.

(** ** Equality tests *)

Lemma list_eqb_eq (A : Type) (eqb : A -> A -> bool) :
  (forall x y, eqb x y = true <-> x = y) ->
  forall a b, list_eqb eqb a b = true <-> a = b.
Proof.
  intros H a. induction a as [|x a IH]; intros [|y b]; cbn;
    try (split; [discriminate|discriminate]); try tauto.
  rewrite andb_true_iff, H, IH. split.
  - intros [-> ->]. reflexivity.
  - intros E. injection E as -> ->. tauto.
Qed.

Lemma text_eqb_eq (a b : text) : text_eqb a b = true <-> a = b.
Proof.
  revert b. induction a as [|x a IH]; intros [|y b]; cbn;
    try (split; [discriminate|discriminate]); try tauto.
  rewrite andb_true_iff, N.eqb_eq, IH. split.
  - intros [-> ->]. reflexivity.
  - intros E. injection E as -> ->. tauto.
Qed.

Lemma text_eqb_refl (a : text) : text_eqb a a = true.
Proof. now apply text_eqb_eq. Qed.

Lemma row_eqb_eq (a b : list text) : row_eqb a b = true <-> a = b.
Proof. apply list_eqb_eq, text_eqb_eq. Qed.

Lemma rows_eqb_eq (a b : list (list text)) : rows_eqb a b = true <-> a = b.
Proof. apply list_eqb_eq, row_eqb_eq. Qed.

(** ** The validator *)

Section Validator.

Variables act exp : list (list text).

Lemma diff_loop_firstn (indices : list nat) (diffs : list diff_line) :
  (length diffs < 10)%nat ->
  diff_loop act exp indices diffs
  = firstn 10 (diffs ++ flat_map (divergence_at act exp) indices).
Proof.
  revert diffs. induction indices as [|i rest IH]; intros diffs Hlen.
  - cbn [diff_loop flat_map]. rewrite app_nil_r. symmetry.
    apply firstn_all2. lia.
  - cbn [diff_loop flat_map]. unfold divergence_at at 1.
    destruct (row_eqb (nth i act []) (nth i exp [])) eqn:E; cbn [negb].
    + rewrite IH by exact Hlen. reflexivity.
    + rewrite app_assoc.
      set (d := RowDiffers (i + 2) (nth i act []) (nth i exp [])).
      assert (L : length (diffs ++ [d]) = S (length diffs))
        by (rewrite length_app; cbn [length]; lia).
      destruct (10 <=? length (diffs ++ [d]))%nat eqn:C.
      * apply Nat.leb_le in C.
        rewrite firstn_app.
        replace (10 - length (diffs ++ [d]))%nat with O by lia.
        rewrite firstn_all2 by lia. rewrite firstn_O.
        now rewrite app_nil_r.
      * apply Nat.leb_gt in C. apply IH. exact C.
Qed.

Lemma compare_rows_equal :
  act = exp -> compare_rows act exp = (true, []).
Proof.
  intros E. unfold compare_rows.
  replace (rows_eqb act exp) with true; [reflexivity|].
  symmetry. now apply rows_eqb_eq.
Qed.

Lemma compare_rows_differ :
  act <> exp ->
  compare_rows act exp
  = (false, firstn 10 (row_divergences act exp) ++ length_note act exp).
Proof.
  intros NE. unfold compare_rows.
  destruct (rows_eqb act exp) eqn:E.
  - exfalso. apply NE. now apply rows_eqb_eq.
  - cbn [negb]. rewrite diff_loop_firstn by (cbn [length]; lia).
    cbn [app]. unfold length_note, row_divergences.
    destruct (length act =? length exp)%nat; cbn [negb];
      [now rewrite app_nil_r|reflexivity].
Qed.

Lemma row_divergences_entry (d : diff_line) :
  In d (row_divergences act exp) ->
  exists i, d = RowDiffers (i + 2) (nth i act []) (nth i exp [])
            /\ (i < length act)%nat /\ (i < length exp)%nat
            /\ nth i act [] <> nth i exp [].
Proof.
  unfold row_divergences. rewrite in_flat_map. intros [i [Hi Hin]].
  apply in_seq in Hi. unfold divergence_at in Hin.
  destruct (row_eqb (nth i act []) (nth i exp [])) eqn:E; [destruct Hin|].
  destruct Hin as [<-|[]].
  exists i. repeat split; try lia.
  intros C. apply row_eqb_eq in C. congruence.
Qed.

Lemma length_note_entry (d : diff_line) :
  In d (length_note act exp) ->
  d = LengthDiffers (length act) (length exp) /\ length act <> length exp.
Proof.
  unfold length_note.
  destruct (length act =? length exp)%nat eqn:C; [intros []|].
  apply Nat.eqb_neq in C. intros [<-|[]]. now split.
Qed.

End Validator.

(** C9.  When both files read, the validator answers [true] with an empty
    report exactly when the two sequences of data rows are equal.  When they
    differ it answers [false] and the report is the first ten (at most) row
    divergences in order, each numbered [i + 2] for list index [i] and
    carrying both rows, followed by one length note when the numbers of rows
    differ. *)
Theorem validate_csv_report (actual expected act exp : list (list text)) :
  read_csv actual = Ok act ->
  read_csv expected = Ok exp ->
  exists ok diffs,
    validate_csv actual expected = Ok (ok, diffs) /\
    (ok = true <-> act = exp) /\
    (act = exp -> diffs = []) /\
    (act <> exp ->
     diffs = firstn 10 (row_divergences act exp) ++ length_note act exp) /\
    (length (filter is_row_entry diffs) <= 10)%nat /\
    (forall n a e,
        In (RowDiffers n a e) diffs ->
        exists i, n = (i + 2)%nat /\ (i < length act)%nat
                  /\ (i < length exp)%nat
                  /\ a = nth i act [] /\ e = nth i exp [] /\ a <> e) /\
    (forall x y, In (LengthDiffers x y) diffs ->
                 x = length act /\ y = length exp /\ x <> y) /\
    (act <> exp -> length act <> length exp ->
     last diffs (LengthDiffers 0 0) = LengthDiffers (length act) (length exp)).
Proof.
  intros Ha He. unfold validate_csv. rewrite Ha, He. cbn [bind].
  destruct (list_eq_dec (list_eq_dec (list_eq_dec N.eq_dec)) act exp)
    as [E|NE].
  - rewrite (compare_rows_equal act exp E). exists true, [].
    split; [reflexivity|]. split; [tauto|]. split; [reflexivity|].
    split; [tauto|]. split; [cbn; lia|].
    split; [intros ? ? ? []|]. split; [intros ? ? []|tauto].
  - rewrite (compare_rows_differ act exp NE).
    eexists false, _. split; [reflexivity|].
    split; [split; [discriminate|tauto]|]. split; [tauto|].
    split; [reflexivity|].
    assert (Hrows : forall d, In d (firstn 10 (row_divergences act exp)) ->
              exists i, d = RowDiffers (i + 2) (nth i act []) (nth i exp [])
                        /\ (i < length act)%nat /\ (i < length exp)%nat
                        /\ nth i act [] <> nth i exp []).
    { intros d Hd. apply (row_divergences_entry act exp).
      rewrite <- (firstn_skipn 10). apply in_or_app. now left. }
    split.
    { rewrite filter_app, length_app.
      assert (F1 : (length (filter is_row_entry
                              (firstn 10 (row_divergences act exp))) <= 10)%nat).
      { etransitivity; [apply filter_length_le|].
        apply firstn_le_length. }
      assert (F2 : filter is_row_entry (length_note act exp) = []).
      { unfold length_note. now destruct (length act =? length exp)%nat. }
      rewrite F2. cbn [length]. lia. }
    split.
    { intros n a e Hin. apply in_app_or in Hin. destruct Hin as [Hin|Hin].
      - destruct (Hrows _ Hin) as [i [Ei [H1 [H2 H3]]]].
        injection Ei as -> -> ->. exists i. tauto.
      - apply length_note_entry in Hin. destruct Hin as [Hin _].
        discriminate Hin. }
    split.
    { intros x y Hin. apply in_app_or in Hin. destruct Hin as [Hin|Hin].
      - destruct (Hrows _ Hin) as [i [Ei _]]. discriminate Ei.
      - apply length_note_entry in Hin. destruct Hin as [Hin Hne].
        injection Hin as -> ->. tauto. }
    intros _ Hlen. unfold length_note.
    destruct (length act =? length exp)%nat eqn:C;
      [apply Nat.eqb_eq in C; contradiction|].
    apply last_last.
Qed.

Lemma validate_csv_report_witness :
  exists ok diffs,
    validate_csv (GOOGLE_HEADERS :: sample_rows) (GOOGLE_HEADERS :: sample_rows')
    = Ok (ok, diffs) /\
    diffs = [RowDiffers 4 [T "r3"] [T "changed"]].
Proof.
  destruct (validate_csv_report (GOOGLE_HEADERS :: sample_rows)
                                (GOOGLE_HEADERS :: sample_rows')
                                sample_rows sample_rows'
                                eq_refl eq_refl)
    as [ok [diffs [H1 [_ [_ [H4 _]]]]]].
  exists ok, diffs. split; [exact H1|].
  rewrite H4; [reflexivity|discriminate].
Defined.

(** ** The order of the sort key *)

Lemma text_ltb_irrefl (a : text) : text_ltb a a = false.
Proof.
  induction a as [|x a IH]; [reflexivity|]. cbn.
  now rewrite N.ltb_irrefl, N.eqb_refl.
Qed.

Lemma text_ltb_trans (a b c : text) :
  text_ltb a b = true -> text_ltb b c = true -> text_ltb a c = true.
Proof.
  revert b c. induction a as [|x a IH]; intros [|y b] [|z c]; cbn;
    try discriminate; try reflexivity.
  destruct (N.ltb_spec x y), (N.eqb_spec x y), (N.ltb_spec y z),
    (N.eqb_spec y z), (N.ltb_spec x z), (N.eqb_spec x z);
    try discriminate; try reflexivity; try lia.
  apply IH.
Qed.

Lemma text_ltb_trichotomy (a b : text) :
  text_ltb a b = false -> text_ltb b a = false -> a = b.
Proof.
  revert b. induction a as [|x a IH]; intros [|y b]; cbn;
    try discriminate; try reflexivity.
  destruct (N.ltb_spec x y), (N.eqb_spec x y), (N.ltb_spec y x),
    (N.eqb_spec y x); try discriminate; try lia.
  intros H1 H2. subst y. f_equal. now apply IH.
Qed.

Lemma datetime_eqb_eq (a b : datetime) : datetime_eqb a b = true <-> a = b.
Proof.
  unfold datetime_eqb. destruct a, b. cbn [year month day hour minute].
  rewrite !andb_true_iff, !Z.eqb_eq. split.
  - intros [[[[-> ->] ->] ->] ->]. reflexivity.
  - intros E. injection E as -> -> -> -> ->. tauto.
Qed.

Lemma datetime_ltb_irrefl (a : datetime) : datetime_ltb a a = false.
Proof. unfold datetime_ltb. split_ifs; lia. Qed.

Lemma datetime_ltb_trans (a b c : datetime) :
  datetime_ltb a b = true -> datetime_ltb b c = true ->
  datetime_ltb a c = true.
Proof.
  unfold datetime_ltb. split_ifs; lia.
Qed.

Lemma datetime_ltb_trichotomy (a b : datetime) :
  datetime_ltb a b = false -> datetime_ltb b a = false -> a = b.
Proof.
  unfold datetime_ltb. destruct a, b. cbn [year month day hour minute].
  split_ifs; try discriminate; intros; f_equal; lia.
Qed.

Lemma sort_key_ltb_irrefl (a : sort_key_t) : sort_key_ltb a a = false.
Proof.
  unfold sort_key_ltb.
  replace (datetime_eqb (fst (fst a)) (fst (fst a))) with true
    by (symmetry; now apply datetime_eqb_eq).
  rewrite text_eqb_refl. cbn [negb]. apply text_ltb_irrefl.
Qed.

Lemma sort_key_ltb_cases (a b : sort_key_t) :
  sort_key_ltb a b = true <->
  datetime_ltb (fst (fst a)) (fst (fst b)) = true \/
  (fst (fst a) = fst (fst b) /\
   (text_ltb (snd (fst a)) (snd (fst b)) = true \/
    (snd (fst a) = snd (fst b) /\ text_ltb (snd a) (snd b) = true))).
Proof.
  unfold sort_key_ltb.
  destruct (datetime_eqb (fst (fst a)) (fst (fst b))) eqn:E1; cbn [negb].
  - apply datetime_eqb_eq in E1. rewrite E1, datetime_ltb_irrefl.
    destruct (text_eqb (snd (fst a)) (snd (fst b))) eqn:E2; cbn [negb].
    + apply text_eqb_eq in E2. rewrite E2, text_ltb_irrefl.
      split; [tauto|]. intros [H|[_ [H|[_ H]]]]; try discriminate; exact H.
    + split; [tauto|]. intros [H|[_ [H|[H _]]]]; try discriminate.
      * exact H.
      * apply text_eqb_eq in H. congruence.
  - split; [tauto|]. intros [H|[H _]]; [exact H|].
    apply datetime_eqb_eq in H. congruence.
Qed.

Lemma sort_key_ltb_trans (a b c : sort_key_t) :
  sort_key_ltb a b = true -> sort_key_ltb b c = true ->
  sort_key_ltb a c = true.
Proof.
  rewrite !sort_key_ltb_cases.
  intros [H1|[E1 H1]] [H2|[E2 H2]].
  - left. eapply datetime_ltb_trans; eassumption.
  - left. now rewrite <- E2.
  - left. now rewrite E1.
  - right. split; [congruence|].
    destruct H1 as [H1|[F1 H1]], H2 as [H2|[F2 H2]].
    + left. eapply text_ltb_trans; eassumption.
    + left. now rewrite <- F2.
    + left. now rewrite F1.
    + right. split; [congruence|]. eapply text_ltb_trans; eassumption.
Qed.

Lemma sort_key_ltb_trichotomy (a b : sort_key_t) :
  sort_key_ltb a b = false -> sort_key_ltb b a = false -> a = b.
Proof.
  intros H1 H2.
  assert (D : fst (fst a) = fst (fst b)).
  { apply datetime_ltb_trichotomy.
    - destruct (datetime_ltb (fst (fst a)) (fst (fst b))) eqn:E; [|reflexivity].
      rewrite <- H1. symmetry. apply sort_key_ltb_cases. now left.
    - destruct (datetime_ltb (fst (fst b)) (fst (fst a))) eqn:E; [|reflexivity].
      rewrite <- H2. symmetry. apply sort_key_ltb_cases. now left. }
  assert (S1 : snd (fst a) = snd (fst b)).
  { apply text_ltb_trichotomy.
    - destruct (text_ltb (snd (fst a)) (snd (fst b))) eqn:E; [|reflexivity].
      rewrite <- H1. symmetry. apply sort_key_ltb_cases. right. tauto.
    - destruct (text_ltb (snd (fst b)) (snd (fst a))) eqn:E; [|reflexivity].
      rewrite <- H2. symmetry. apply sort_key_ltb_cases. right.
      split; [congruence|]. now left. }
  assert (S2 : snd a = snd b).
  { apply text_ltb_trichotomy.
    - destruct (text_ltb (snd a) (snd b)) eqn:E; [|reflexivity].
      rewrite <- H1. symmetry. apply sort_key_ltb_cases. right. tauto.
    - destruct (text_ltb (snd b) (snd a)) eqn:E; [|reflexivity].
      rewrite <- H2. symmetry. apply sort_key_ltb_cases. right.
      split; [congruence|]. right. split; [congruence|exact E]. }
  destruct a as [[a1 a2] a3], b as [[b1 b2] b3]. cbn in *. congruence.
Qed.

Lemma sort_key_ltb_asym (a b : sort_key_t) :
  sort_key_ltb a b = true -> sort_key_ltb b a = false.
Proof.
  intros H. destruct (sort_key_ltb b a) eqn:E; [|reflexivity].
  rewrite <- (sort_key_ltb_irrefl a). symmetry.
  eapply sort_key_ltb_trans; eassumption.
Qed.

Lemma sort_key_leb_trans (a b c : sort_key_t) :
  sort_key_ltb b a = false -> sort_key_ltb c b = false ->
  sort_key_ltb c a = false.
Proof.
  intros H1 H2. destruct (sort_key_ltb c a) eqn:E; [|reflexivity].
  destruct (sort_key_ltb a b) eqn:F.
  - rewrite <- H2. symmetry. eapply sort_key_ltb_trans; eassumption.
  - assert (a = b) by now apply sort_key_ltb_trichotomy. subst b.
    congruence.
Qed.

Lemma sort_key_eqb_eq (a b : sort_key_t) : sort_key_eqb a b = true <-> a = b.
Proof.
  unfold sort_key_eqb. destruct a as [[a1 a2] a3], b as [[b1 b2] b3].
  cbn [fst snd]. rewrite !andb_true_iff, datetime_eqb_eq, !text_eqb_eq.
  split.
  - intros [[-> ->] ->]. reflexivity.
  - intros E. injection E as -> -> ->. tauto.
Qed.

Lemma game_le_ltb (a b : Game) :
  game_le a b <-> sort_key_ltb (sort_key b) (sort_key a) = false.
Proof.
  unfold game_le, time_key. split.
  - intros H.
    destruct (sort_key_ltb (sort_key b) (sort_key a)) eqn:E; [|reflexivity].
    exfalso. apply sort_key_ltb_cases in E. cbn [sort_key fst snd] in *.
    destruct H as [H|[D H]].
    + destruct E as [E|[E _]].
      * pose proof (datetime_ltb_trans _ _ _ H E) as C.
        rewrite datetime_ltb_irrefl in C. discriminate.
      * rewrite E, datetime_ltb_irrefl in H. discriminate.
    + destruct E as [E|[_ E]].
      * rewrite D, datetime_ltb_irrefl in E. discriminate.
      * destruct H as [H|[T1 H]], E as [E|[T2 E]].
        -- pose proof (text_ltb_trans _ _ _ H E) as C.
           rewrite text_ltb_irrefl in C. discriminate.
        -- rewrite T2, text_ltb_irrefl in H. discriminate.
        -- rewrite T1, text_ltb_irrefl in E. discriminate.
        -- congruence.
  - intros H.
    destruct (sort_key_ltb (sort_key a) (sort_key b)) eqn:E.
    + apply sort_key_ltb_cases in E. cbn [sort_key fst snd] in *.
      destruct E as [E|[D [E|[T1 E]]]]; [now left|right..].
      * split; [exact D|now left].
      * split; [exact D|]. right. split; [exact T1|].
        destruct (text_ltb (venue b) (venue a)) eqn:F; [|reflexivity].
        pose proof (text_ltb_trans _ _ _ E F) as C.
        rewrite text_ltb_irrefl in C. discriminate.
    + pose proof (sort_key_ltb_trichotomy _ _ E H) as Q.
      injection Q as Q1 Q2 Q3. right. split; [exact Q1|]. right.
      cbn [sort_key fst snd]. split; [exact Q2|].
      rewrite Q3. apply text_ltb_irrefl.
Qed.

(** ** Sorting *)

Lemma insert_game_perm (g : Game) (l : list Game) :
  Permutation (insert_game g l) (g :: l).
Proof.
  induction l as [|h t IH]; cbn [insert_game]; [reflexivity|].
  destruct (sort_key_ltb (sort_key h) (sort_key g)); [|reflexivity].
  rewrite IH. apply perm_swap.
Qed.

Lemma sort_games_perm (l : list Game) : Permutation (sort_games l) l.
Proof.
  induction l as [|g l IH]; cbn [sort_games fold_right]; [reflexivity|].
  rewrite insert_game_perm. now constructor.
Qed.

Lemma insert_game_sorted (g : Game) (l : list Game) :
  StronglySorted game_le l -> StronglySorted game_le (insert_game g l).
Proof.
  induction 1 as [|h t Hs IH Hall]; cbn [insert_game].
  - repeat constructor.
  - destruct (sort_key_ltb (sort_key h) (sort_key g)) eqn:E.
    + constructor; [exact IH|].
      apply (Permutation_Forall (x := g :: t));
        [symmetry; apply insert_game_perm|].
      constructor; [|exact Hall].
      apply game_le_ltb. now apply sort_key_ltb_asym.
    + assert (L : game_le g h) by now apply game_le_ltb.
      constructor; [now constructor|].
      constructor; [exact L|].
      eapply Forall_impl; [|exact Hall].
      intros x Hx. apply game_le_ltb. apply game_le_ltb in L, Hx.
      eapply sort_key_leb_trans; eassumption.
Qed.

Lemma sort_games_sorted (l : list Game) :
  StronglySorted game_le (sort_games l).
Proof.
  induction l as [|g l IH]; cbn [sort_games fold_right]; [constructor|].
  now apply insert_game_sorted.
Qed.

Lemma insert_game_with_key (k : sort_key_t) (g : Game) (l : list Game) :
  with_key k (insert_game g l) = with_key k (g :: l).
Proof.
  unfold with_key. induction l as [|h t IH]; cbn [insert_game]; [reflexivity|].
  destruct (sort_key_ltb (sort_key h) (sort_key g)) eqn:E; [|reflexivity].
  cbn [filter] in *. rewrite IH.
  destruct (sort_key_eqb (sort_key g) k) eqn:Eg; [|reflexivity].
  destruct (sort_key_eqb (sort_key h) k) eqn:Eh; [|reflexivity].
  apply sort_key_eqb_eq in Eg, Eh. rewrite Eg, Eh, sort_key_ltb_irrefl in E.
  discriminate.
Qed.

Lemma sort_games_stable (k : sort_key_t) (l : list Game) :
  with_key k (sort_games l) = with_key k l.
Proof.
  induction l as [|g l IH]; cbn [sort_games fold_right]; [reflexivity|].
  rewrite insert_game_with_key. unfold with_key in *. cbn [filter].
  fold (sort_games l). now rewrite IH.
Qed.

Lemma game_le_total (a b : Game) : game_le a b \/ game_le b a.
Proof.
  rewrite !game_le_ltb.
  destruct (sort_key_ltb (sort_key b) (sort_key a)) eqn:E; [|now left].
  right. now apply sort_key_ltb_asym.
Qed.

Lemma game_le_trans (a b c : Game) :
  game_le a b -> game_le b c -> game_le a c.
Proof. rewrite !game_le_ltb. apply sort_key_leb_trans. Qed.

Lemma game_le_antisym (a b : Game) :
  game_le a b -> game_le b a -> sort_key a = sort_key b.
Proof. rewrite !game_le_ltb. intros. now apply sort_key_ltb_trichotomy. Qed.

Lemma sorted_nth_error (A : Type) (R : A -> A -> Prop) (l : list A) :
  StronglySorted R l ->
  forall i j a b, (i < j)%nat ->
                  nth_error l i = Some a -> nth_error l j = Some b -> R a b.
Proof.
  induction 1 as [|h t Hs IH Hall]; intros i j a b Hij Ha Hb.
  - destruct i; discriminate.
  - destruct j as [|j]; [lia|]. cbn [nth_error] in Hb.
    destruct i as [|i]; cbn [nth_error] in Ha.
    + injection Ha as <-. rewrite Forall_forall in Hall. apply Hall.
      eapply nth_error_In. exact Hb.
    + eapply (IH i j); [lia|eassumption..].
Qed.

Lemma time_key_undecided (u : Game) :
  truthy (start_time u) = false -> time_key u = T "23:59".
Proof.
  unfold time_key, sort_key, truthy. cbn [fst snd].
  destruct (start_time u) as [[|c s]|]; [reflexivity|discriminate|reflexivity].
Qed.

Lemma time_key_timed (t : Game) :
  truthy (start_time t) = true -> start_time t = Some (time_key t).
Proof.
  unfold time_key, sort_key, truthy. cbn [fst snd].
  destruct (start_time t) as [[|c s]|]; [discriminate|reflexivity|discriminate].
Qed.

(** C4, as the code has it.  The merge step returns a permutation of its
    input that is sorted by date, then by the time of the key, then by venue;
    the order is total and the sort is stable (games with the same key keep
    their order).  A game without a start time takes the key time "23:59":
    it comes after every timed game of its date that starts before 23:59
    (not after a game at 23:59 or later, where the venue decides or the
    timed game comes last). *)
Theorem sort_games_order (l : list Game) :
  Permutation (sort_games l) l /\
  StronglySorted game_le (sort_games l) /\
  (forall a b, game_le a b \/ game_le b a) /\
  (forall a b c, game_le a b -> game_le b c -> game_le a c) /\
  (forall a b, game_le a b -> game_le b a -> sort_key a = sort_key b) /\
  (forall k, with_key k (sort_games l) = with_key k l) /\
  (forall u, truthy (start_time u) = false -> time_key u = T "23:59") /\
  (forall t, truthy (start_time t) = true -> start_time t = Some (time_key t)) /\
  undecided_after_earlier (sort_games l).
Proof.
  split; [apply sort_games_perm|].
  split; [apply sort_games_sorted|].
  split; [exact game_le_total|].
  split; [exact game_le_trans|].
  split; [exact game_le_antisym|].
  split; [intros k; apply sort_games_stable|].
  split; [exact time_key_undecided|].
  split; [exact time_key_timed|].
  intros i j t u Ht Hu D Tt L Tu.
  pose proof (time_key_undecided u Tu) as Ku.
  assert (Lt : game_le u t -> False).
  { intros [H|[_ [H|[H _]]]].
    - rewrite D, datetime_ltb_irrefl in H. discriminate.
    - rewrite Ku in H.
      pose proof (text_ltb_trans _ _ _ L H) as C.
      rewrite text_ltb_irrefl in C. discriminate.
    - rewrite Ku in H. rewrite <- H, text_ltb_irrefl in L. discriminate. }
  destruct (Nat.lt_trichotomy i j) as [C|[C|C]]; [exact C|exfalso..].
  - subst j. rewrite Ht in Hu. injection Hu as ->.
    rewrite Tt in Tu. discriminate.
  - apply Lt.
    eapply (sorted_nth_error _ _ _ (sort_games_sorted l) j i); eassumption.
Qed.

Lemma sort_games_order_witness :
  undecided_after_earlier (sort_games [undecided_game; late_game]).
Proof.
  apply (sort_games_order [undecided_game; late_game]).
Defined.

(** C4 as the claim states it fails: a game at 23:59 and a game without a
    time, on one date, come out with the undecided game first (the times of
    the keys tie and the venue decides). *)
Lemma undecided_not_always_last :
  sort_games [late_game; undecided_game] = [undecided_game; late_game] /\
  ~ undecided_after_timed (sort_games [late_game; undecided_game]).
Proof.
  assert (E : sort_games [late_game; undecided_game]
              = [undecided_game; late_game]) by (vm_compute; reflexivity).
  split; [exact E|].
  rewrite E. intros H.
  specialize (H 1%nat 0%nat late_game undecided_game
                eq_refl eq_refl eq_refl eq_refl eq_refl).
  lia.
Qed.

(** ** Removal of duplicates within one month *)

Lemma key_eqb_eq (a b : key) : key_eqb a b = true <-> a = b.
Proof.
  unfold key_eqb. destruct a as [[a1 a2] a3], b as [[b1 b2] b3].
  cbn [fst snd]. rewrite !andb_true_iff, !text_eqb_eq. split.
  - intros [[-> ->] ->]. reflexivity.
  - intros E. injection E as -> -> ->. tauto.
Qed.

Lemma dict_set_keys (k : key) (g : Game) (d : list (key * Game)) :
  map fst (dict_set k g d)
  = if existsb (fun kg => key_eqb (fst kg) k) d then map fst d
    else map fst d ++ [k].
Proof.
  induction d as [|[k' g'] d IH]; cbn [dict_set existsb map fst];
    [reflexivity|].
  destruct (key_eqb k' k) eqn:E; cbn [orb map fst]; [reflexivity|].
  rewrite IH. now destruct (existsb _ d).
Qed.

Lemma dict_set_values (k : key) (g x : Game) (d : list (key * Game)) :
  In x (map snd (dict_set k g d)) -> x = g \/ In x (map snd d).
Proof.
  induction d as [|[k' g'] d IH]; cbn [dict_set map snd].
  - intros [<-|[]]. now left.
  - destruct (key_eqb k' k); cbn [map snd In].
    + intros [<-|H]; [now left|right; now right].
    + intros [<-|H]; [right; now left|].
      destruct (IH H) as [->|H']; [now left|right; now right].
Qed.

Lemma dict_set_ok (g : Game) (d : list (key * Game)) :
  dict_ok d -> dict_ok (dict_set (game_key g) g d).
Proof.
  intros [Hnd Hk]. split.
  - rewrite dict_set_keys.
    destruct (existsb (fun kg => key_eqb (fst kg) (game_key g)) d) eqn:E;
      [exact Hnd|].
    apply NoDup_app; [exact Hnd|repeat constructor; intros []|].
    intros k Hin [<-|[]].
    apply in_map_iff in Hin. destruct Hin as [kg [Ek Hin]].
    assert (C : existsb (fun kg => key_eqb (fst kg) (game_key g)) d = true).
    { apply existsb_exists. exists kg. split; [exact Hin|].
      apply key_eqb_eq. exact Ek. }
    congruence.
  - clear Hnd. induction d as [|[k' g'] d IH]; cbn [dict_set].
    + repeat constructor.
    + inversion Hk as [|? ? H1 H2]; subst.
      destruct (key_eqb k' (game_key g)) eqn:E.
      * constructor; [|exact H2]. cbn [fst snd].
        apply key_eqb_eq in E. now symmetry.
      * constructor; [exact H1|now apply IH].
Qed.

Lemma keyed_fold_ok (games : list Game) (d : list (key * Game)) :
  dict_ok d ->
  dict_ok (fold_left (fun d g => dict_set (game_key g) g d) games d).
Proof.
  revert d. induction games as [|g games IH]; intros d H; cbn [fold_left];
    [exact H|].
  apply IH. now apply dict_set_ok.
Qed.

Lemma keyed_fold_values (games : list Game) (d : list (key * Game)) (x : Game) :
  In x (map snd (fold_left (fun d g => dict_set (game_key g) g d) games d)) ->
  In x games \/ In x (map snd d).
Proof.
  revert d. induction games as [|g games IH]; intros d H; cbn [fold_left] in H;
    [now right|].
  destruct (IH _ H) as [H'|H']; [left; now right|].
  destruct (dict_set_values _ _ _ _ H') as [->|H'']; [left; now left|now right].
Qed.

Lemma keyed_values_incl (games : list Game) (x : Game) :
  In x (keyed_values games) -> In x games.
Proof.
  unfold keyed_values. intros H.
  destruct (keyed_fold_values _ _ _ H) as [H'|[]]. exact H'.
Qed.

Lemma keyed_values_nodup (games : list Game) :
  NoDup (map game_key (keyed_values games)).
Proof.
  unfold keyed_values.
  destruct (keyed_fold_ok games []) as [Hnd Hk]; [split; constructor|].
  set (d := fold_left _ games []) in *.
  replace (map game_key (map snd d)) with (map fst d); [exact Hnd|].
  clearbody d. clear Hnd.
  induction Hk as [|kg d H1 H2 IH]; cbn [map]; [reflexivity|].
  now rewrite IH, H1.
Qed.

(** ** Last record wins *)

Lemma dict_set_entry (g : Game) (d : list (key * Game)) (k : key) (x : Game) :
  dict_ok d ->
  In (k, x) (dict_set (game_key g) g d) ->
  (k = game_key g /\ x = g) \/ (In (k, x) d /\ k <> game_key g).
Proof.
  intros [Hnd Hk]. induction d as [|[k' g'] d IH]; cbn [dict_set].
  - intros [Q|[]]. injection Q as <- <-. now left.
  - cbn [map fst] in Hnd. inversion Hnd as [|? ? Hnot Hnd']; subst.
    inversion Hk as [|? ? H1 H2]; subst.
    destruct (key_eqb k' (game_key g)) eqn:E.
    + apply key_eqb_eq in E. subst k'.
      intros [Q|Hin].
      * injection Q as <- <-. now left.
      * right. split; [now right|]. intros ->. apply Hnot.
        apply in_map_iff. exists (game_key g, x). now split.
    + intros [Q|Hin].
      * injection Q as <- <-. right. split; [now left|].
        intros C. rewrite C in E.
        assert (T : key_eqb (game_key g) (game_key g) = true)
          by now apply key_eqb_eq.
        congruence.
      * destruct (IH Hnd' H2 Hin) as [L|[L1 L2]]; [now left|].
        right. split; [now right|exact L2].
Qed.

Lemma fold_left_snoc (A B : Type) (f : A -> B -> A) (l : list B) (x : B)
      (a : A) :
  fold_left f (l ++ [x]) a = f (fold_left f l a) x.
Proof. now rewrite fold_left_app. Qed.

(** Of the games that share an identity key, the one kept is the last. *)
Lemma keyed_values_last (games : list Game) (g : Game) :
  In g (keyed_values games) ->
  In g games /\ last_with_key (game_key g) games = Some g.
Proof.
  intros H. split; [now apply keyed_values_incl|]. revert g H.
  unfold keyed_values, last_with_key.
  induction games as [|x games IH] using rev_ind; intros g H; [destruct H|].
  rewrite fold_left_snoc in H. rewrite rev_app_distr. cbn [rev app find].
  apply in_map_iff in H. destruct H as [[k g'] [Q Hin]]. cbn [snd] in Q.
  subst g'.
  assert (Ok0 : dict_ok (fold_left (fun d g => dict_set (game_key g) g d)
                                   games []))
    by (apply keyed_fold_ok; split; constructor).
  assert (Ok1 : dict_ok (dict_set (game_key x) x
                           (fold_left (fun d g => dict_set (game_key g) g d)
                                      games [])))
    by now apply dict_set_ok.
  assert (Hk : game_key g = k).
  { destruct Ok1 as [_ F]. rewrite Forall_forall in F. apply (F _ Hin). }
  destruct (dict_set_entry x _ k g Ok0 Hin) as [[E1 E2]|[Hd Hne]].
  - subst g. replace (key_eqb (game_key x) (game_key x)) with true;
      [reflexivity|]. symmetry. now apply key_eqb_eq.
  - replace (key_eqb (game_key x) (game_key g)) with false.
    + apply IH. apply in_map_iff. exists (k, g). now split.
    + symmetry. destruct (key_eqb (game_key x) (game_key g)) eqn:E;
        [|reflexivity].
      apply key_eqb_eq in E. congruence.
Qed.

(** Each team parser returns at most one game per identity key. *)
Lemma heuristic_pass_nodup (mk ka ha : list text) (y : Z) (cards : list text)
      (games : list Game) :
  heuristic_pass mk ka ha y cards = Ok games -> NoDup (map game_key games).
Proof.
  unfold heuristic_pass.
  destruct (heuristic_loop mk ka ha y cards []) as [l|e]; [|discriminate].
  cbn [bind]. intros Q. injection Q as <-. apply keyed_values_nodup.
Qed.

Lemma schedule_list_nodup (y mo : Z) (soup : Soup) (kws : list text)
      (games : list Game) :
  _parse_schedule_list y mo soup kws = Ok games -> NoDup (map game_key games).
Proof.
  unfold _parse_schedule_list.
  destruct (schedule_loop y mo kws (schedule_items soup) []) as [l|e];
    [|discriminate].
  cbn [bind]. intros Q. injection Q as <-. apply keyed_values_nodup.
Qed.

Lemma month_result_nodup (get_page : text -> result Soup) (team : text)
      (ym : Z * Z) (games : list Game) :
  month_result get_page team ym games -> NoDup (map game_key games).
Proof.
  intros [html [_ P]].
  destruct (text_eqb team (T "alvark")).
  - unfold parse_alvark_month in P.
    destruct (_parse_schedule_list (fst ym) (snd ym) html ALVARK_HOME)
      as [[|g l]|e] eqn:E; cbn [bind] in P; [| |discriminate].
    + now apply heuristic_pass_nodup in P.
    + injection P as <-. now apply schedule_list_nodup in E.
  - unfold parse_sunrockers_month in P.
    destruct (_parse_schedule_list (fst ym) (snd ym) html SUNROCKERS_HOME)
      as [[|g l]|e] eqn:E; cbn [bind] in P; [| |discriminate].
    + now apply heuristic_pass_nodup in P.
    + injection P as <-. now apply schedule_list_nodup in E.
Qed.

(** ** The merge in [scrape] *)

Section Merge.

Variable get_page : text -> result Soup.
Variable team : text.

Lemma scrape_loop_ok (months : list (Z * Z)) :
  forall all_games log out,
    scrape_loop get_page team months all_games = (log, Ok out) ->
    exists results,
      Forall2 (month_result get_page team) months results /\
      out = all_games ++ concat results.
Proof.
  induction months as [|[y m] months IH]; intros acc log out H.
  - cbn in H. injection H as <- <-. exists []. split; [constructor|].
    cbn. now rewrite app_nil_r.
  - cbn [scrape_loop] in H. unfold io_bind in H.
    destruct (snd (fetch_month get_page team y m)) as [html|e] eqn:F;
      [|discriminate].
    cbn [io_lift snd fst] in H.
    destruct (if text_eqb team (T "alvark")
              then parse_alvark_month y m html
              else parse_sunrockers_month y m html) as [games|e] eqn:P;
      [|discriminate].
    cbn [app] in H.
    destruct (scrape_loop get_page team months (acc ++ games))
      as [log' r] eqn:L.
    cbn [fst snd] in H. injection H as <- ->.
    destruct (IH _ _ _ L) as [results [HF ->]].
    exists (games :: results). split.
    + constructor; [|exact HF]. exists html. cbn [fst snd]. now split.
    + cbn [concat]. now rewrite app_assoc.
Qed.

(** C3, as the code has it.  When [scrape] returns, its list is the sorted
    concatenation of the per-month results, one per month of the range, each
    with at most one game per identity key (the last seen, by
    [keyed_values_last]).  The output is a permutation of that
    concatenation, so no record is dropped, and two records sharing an
    identity key across months both stay.  The output has at most one game
    per key exactly when the concatenation has. *)
Theorem scrape_merge_keeps_all (start_ym end_ym : text) (log : list text)
        (out : list Game) :
  scrape get_page team start_ym end_ym = Some (log, Ok out) ->
  exists start end_ months results,
    strptime_ym start_ym = Ok start /\
    strptime_ym end_ym = Ok end_ /\
    month_iter start end_ = Some months /\
    Forall2 (month_result get_page team) months results /\
    Forall (fun games => NoDup (map game_key games)) results /\
    out = sort_games (concat results) /\
    Permutation out (concat results) /\
    length out = length (concat results) /\
    (NoDup (map game_key out) <-> NoDup (map game_key (concat results))).
Proof.
  unfold scrape. intros H.
  destruct (strptime_ym start_ym) as [start|e] eqn:Es;
    [|cbn in H; discriminate].
  destruct (strptime_ym end_ym) as [end_|e] eqn:Ee;
    [|cbn in H; discriminate].
  destruct (month_iter start end_) as [months|] eqn:Em; [|discriminate].
  injection H as H. unfold io_bind in H.
  destruct (scrape_loop get_page team months []) as [log' r] eqn:L.
  cbn [fst snd] in H. destruct r as [all_games|e]; [|discriminate].
  cbn [io_ret fst snd] in H. injection H as _ <-.
  destruct (scrape_loop_ok _ _ _ _ L) as [results [HF ->]].
  cbn [app].
  assert (P : Permutation (sort_games (concat results)) (concat results))
    by apply sort_games_perm.
  assert (U : Forall (fun games => NoDup (map game_key games)) results).
  { clear L P Em. induction HF as [|ym games ms rs H1 H2 IH];
      constructor; [now apply month_result_nodup in H1|exact IH]. }
  exists start, end_, months, results.
  repeat split; try assumption; try reflexivity.
  - now apply Permutation_length.
  - apply Permutation_NoDup, Permutation_map. exact P.
  - apply Permutation_NoDup, Permutation_map. symmetry. exact P.
Qed.

End Merge.

Lemma scrape_merge_keeps_all_witness :
  exists results,
    Forall2 (month_result relisting_site (T "alvark"))
            [(2025, 10); (2025, 11)] results /\
    Permutation [relisted_game; relisted_game] (concat results).
Proof.
  destruct (scrape_merge_keeps_all relisting_site (T "alvark")
              (T "2025-10") (T "2025-11") relisting_log
              [relisted_game; relisted_game]
              ltac:(vm_compute; reflexivity))
    as [start [end_ [months [results [H1 [H2 [H3 [H4 [_ [_ [H5 _]]]]]]]]]]].
  exists results. split; [|exact H5].
  vm_compute in H1, H2. injection H1 as <-. injection H2 as <-.
  vm_compute in H3. injection H3 as <-. exact H4.
Defined.

(** C3 as the claim states it fails: over two months of a site that lists
    the same game on both pages, [scrape] returns the game twice; the two
    records have the same identity key. *)
Lemma scrape_keeps_cross_month_duplicates :
  scrape relisting_site (T "alvark") (T "2025-10") (T "2025-11")
  = Some (relisting_log, Ok [relisted_game; relisted_game]) /\
  ~ NoDup (map game_key [relisted_game; relisted_game]).
Proof.
  split; [vm_compute; reflexivity|].
  intros H. inversion H as [|? ? Hin _]; subst. apply Hin. now left.
Qed.

(** ** Texts *)

Lemma starts_with_spec (p s : text) :
  starts_with p s = true <-> exists rest, s = p ++ rest.
Proof.
  revert s. induction p as [|x p IH]; intros s; cbn [starts_with].
  - split; [intros _; now exists s|reflexivity].
  - destruct s as [|y s].
    + split; [discriminate|intros [rest E]; discriminate E].
    + rewrite andb_true_iff, N.eqb_eq, IH. split.
      * intros [-> [rest ->]]. now exists rest.
      * intros [rest E]. injection E as -> ->. split; [reflexivity|now exists rest].
Qed.

Lemma contains_spec (needle hay : text) :
  contains needle hay = true <-> exists pre post, hay = pre ++ needle ++ post.
Proof.
  induction hay as [|c hay IH]; cbn [contains]; rewrite orb_true_iff.
  - rewrite starts_with_spec. split.
    + intros [[rest E]|C]; [|discriminate]. exists [], rest. exact E.
    + intros [pre [post E]]. left. destruct pre; [|discriminate E].
      now exists post.
  - rewrite starts_with_spec, IH. split.
    + intros [[rest E]|[pre [post E]]].
      * exists [], rest. exact E.
      * exists (c :: pre), post. now rewrite E.
    + intros [[|x pre] [post E]].
      * left. now exists post.
      * right. injection E as -> ->. now exists pre, post.
Qed.

(** ** The matching engine *)

Lemma rep_done (A : Type) (p : char -> bool) (g : bool) (acc s : text)
      (k : text -> text -> option A) :
  Re.rep p g 0 (Some 0%nat) acc s k = k acc s.
Proof.
  destruct s as [|c s]; cbn [Re.rep Re.can_take].
  - destruct g; [reflexivity|]. now destruct (k acc []).
  - rewrite andb_false_r. destruct g; [reflexivity|].
    now destruct (k acc (c :: s)).
Qed.

(** [\d{1,2}], longest first. *)
Lemma rep_one_or_two (A : Type) (p : char -> bool) (s : text)
      (k : text -> text -> option A) :
  Re.rep p true 1 (Some 2%nat) [] s k =
  match s with
  | a :: s1 =>
      if p a then
        match
          match s1 with
          | b :: s2 => if p b then k [a; b] s2 else None
          | [] => None
          end
        with
        | Some x => Some x
        | None => k [a] s1
        end
      else None
  | [] => None
  end.
Proof.
  destruct s as [|a [|b s2]]; cbn [Re.rep Re.can_take pred option_map app];
    try reflexivity.
  - now destruct (p a).
  - destruct (p a); [|reflexivity]. cbn [andb].
    destruct (p b); [|reflexivity]. cbn [andb]. now rewrite rep_done.
Qed.

(** [\d{2}] and [\d{4}] *)
Lemma rep_two (A : Type) (p : char -> bool) (s : text)
      (k : text -> text -> option A) :
  Re.rep p true 2 (Some 2%nat) [] s k =
  match s with
  | a :: b :: s2 => if p a && p b then k [a; b] s2 else None
  | _ => None
  end.
Proof.
  destruct s as [|a [|b s2]]; cbn [Re.rep Re.can_take pred option_map app];
    try reflexivity.
  - now destruct (p a).
  - destruct (p a); [|reflexivity]. cbn [andb].
    destruct (p b); [|reflexivity]. cbn [andb]. now rewrite rep_done.
Qed.

Lemma search_from_spec (r : Re.re) (s : text) :
  forall before,
    match Re.search_from r before s with
    | Some x =>
        exists i, (i <= length s)%nat /\
                  Re.match_here r (skipn i s) = Some (Re.groups x, Re.post x) /\
                  Re.pre x = rev before ++ firstn i s /\
                  forall j, (j < i)%nat -> Re.match_here r (skipn j s) = None
    | None =>
        forall j, (j <= length s)%nat -> Re.match_here r (skipn j s) = None
    end.
Proof.
  induction s as [|c s IH]; intros before; cbn [Re.search_from].
  - destruct (Re.match_here r []) as [[cs s']|] eqn:E.
    + exists O. cbn [skipn firstn length]. rewrite app_nil_r.
      repeat split; [lia|exact E|intros; lia].
    + intros j Hj. now destruct j.
  - destruct (Re.match_here r (c :: s)) as [[cs s']|] eqn:E.
    + exists O. cbn [skipn firstn Re.groups Re.post Re.pre].
      rewrite app_nil_r. repeat split; [lia|exact E|intros; lia].
    + specialize (IH (c :: before)).
      destruct (Re.search_from r (c :: before) s) as [x|].
      * destruct IH as [i [Hi [Hm [Hp Hn]]]]. exists (S i).
        cbn [skipn firstn length]. repeat split; [lia|exact Hm| |].
        -- rewrite Hp. cbn [rev]. now rewrite <- app_assoc.
        -- intros [|j] Hj; [exact E|]. apply Hn. lia.
      * intros [|j] Hj; [exact E|]. apply IH. cbn [length] in Hj. lia.
Qed.

Lemma match_here_time (s : text) :
  Re.match_here RE_time s =
  match time_here s with
  | Some (h, m, r) => Some ([(2%nat, m); (1%nat, h)], r)
  | None => None
  end.
Proof.
  unfold Re.match_here, RE_time, Re.cat, Re.digits, Re.one.
  cbn [Re.run]. rewrite rep_one_or_two. unfold time_here.
  destruct s as [|a [|b [|c [|d [|e r]]]]]; try reflexivity;
    rewrite ?rep_two;
    destruct (is_digit a); try reflexivity;
    try (destruct (is_digit b); try reflexivity);
    try (destruct (b =? chr ":")%N; try reflexivity);
    try (destruct (is_digit c); try reflexivity);
    try (destruct (c =? chr ":")%N; try reflexivity);
    try (destruct (is_digit d); try reflexivity);
    try (destruct (d =? chr ":")%N; try reflexivity);
    try (destruct (is_digit e); try reflexivity).
Qed.

Lemma colon_not_digit : is_digit (chr ":") = false.
Proof. reflexivity. Qed.

Lemma time_here_sound (s h m r : text) :
  time_here s = Some (h, m, r) ->
  s = h ++ chr ":" :: m ++ r /\
  (length h = 1 \/ length h = 2)%nat /\ length m = 2%nat /\
  forallb is_digit h = true /\ forallb is_digit m = true.
Proof.
  unfold time_here.
  destruct s as [|a s1]; [discriminate|].
  destruct (is_digit a) eqn:Da; [|discriminate].
  assert (One : match s1 with
                | c :: d :: e :: r =>
                    if (c =? chr ":")%N && is_digit d && is_digit e
                    then Some ([a], [d; e], r) else None
                | _ => None
                end = Some (h, m, r) ->
                a :: s1 = h ++ chr ":" :: m ++ r /\
                (length h = 1 \/ length h = 2)%nat /\ length m = 2%nat /\
                forallb is_digit h = true /\ forallb is_digit m = true).
  { destruct s1 as [|c [|d [|e r']]]; try discriminate.
    destruct (c =? chr ":")%N eqn:Ec; [|discriminate].
    destruct (is_digit d) eqn:Dd; [|discriminate].
    destruct (is_digit e) eqn:De; [|discriminate].
    cbn [andb]. intros E. injection E as <- <- <-.
    apply N.eqb_eq in Ec. subst c. cbn [app length forallb].
    rewrite Da, Dd, De. repeat split; auto. }
  destruct s1 as [|b [|c [|d [|e r']]]]; try exact One.
  destruct (is_digit b && (c =? chr ":")%N && is_digit d && is_digit e) eqn:C;
    [|exact One].
  intros E. injection E as <- <- <-.
  apply andb_prop in C. destruct C as [C De].
  apply andb_prop in C. destruct C as [C Dd].
  apply andb_prop in C. destruct C as [Db Ec].
  apply N.eqb_eq in Ec. subst c. cbn [app length forallb].
  rewrite Da, Db, Dd, De. repeat split; auto.
Qed.

Lemma time_here_complete (h m r : text) :
  (length h = 1 \/ length h = 2)%nat -> length m = 2%nat ->
  forallb is_digit h = true -> forallb is_digit m = true ->
  time_here (h ++ chr ":" :: m ++ r) = Some (h, m, r).
Proof.
  intros Lh Lm Dh Dm.
  destruct m as [|d [|e [|? ?]]]; try discriminate Lm.
  cbn [forallb] in Dm. rewrite andb_true_r in Dm.
  apply andb_prop in Dm. destruct Dm as [Dd De].
  destruct h as [|a [|b [|? ?]]]; cbn [length] in Lh; try lia;
    cbn [forallb] in Dh; rewrite ?andb_true_r in Dh.
  - cbn [app time_here]. rewrite Dh.
    destruct r as [|x r]; rewrite ?colon_not_digit; cbn [andb];
      rewrite N.eqb_refl, Dd, De; reflexivity.
  - apply andb_prop in Dh. destruct Dh as [Da Db].
    cbn [app time_here]. rewrite Da, Db, N.eqb_refl, Dd, De. reflexivity.
Qed.

Lemma time_token_here (s : text) (i : nat) (h m : text) :
  time_token_at s i h m <->
  exists r, time_here (skipn i s) = Some (h, m, r).
Proof.
  unfold time_token_at. split.
  - intros [post [E [Lh [Lm [Dh Dm]]]]]. exists post. rewrite E.
    now apply time_here_complete.
  - intros [r E]. exists r. now apply time_here_sound.
Qed.

(** ** Digits and numbers *)

Lemma decimal_range (c : char) (d : Z) : decimal c = Some d -> 0 <= d <= 9.
Proof.
  unfold decimal.
  destruct (find (fun z => (z <=? c) && (c <=? z + 9))%N decimal_zeros)
    as [z|] eqn:F; [|discriminate].
  apply find_some in F. destruct F as [_ F].
  apply andb_prop in F. destruct F as [F1 F2].
  apply N.leb_le in F1, F2.
  intros E. injection E as <-. lia.
Qed.

Lemma is_digit_decimal (c : char) :
  is_digit c = true -> exists d, decimal c = Some d /\ 0 <= d <= 9.
Proof.
  unfold is_digit. destruct (decimal c) as [d|] eqn:E; [|discriminate].
  intros _. exists d. split; [reflexivity|]. now apply decimal_range in E.
Qed.

Lemma int_one_or_two (h : text) :
  (length h = 1 \/ length h = 2)%nat -> forallb is_digit h = true ->
  0 <= int h <= 99.
Proof.
  intros L D.
  destruct h as [|a [|b [|? ?]]]; cbn [length] in L; try lia;
    cbn [forallb] in D; rewrite ?andb_true_r in D.
  - destruct (is_digit_decimal a D) as [x [E R]].
    unfold int. cbn [fold_left]. rewrite E. lia.
  - apply andb_prop in D. destruct D as [Da Db].
    destruct (is_digit_decimal a Da) as [x [Ex Rx]].
    destruct (is_digit_decimal b Db) as [y [Ey Ry]].
    unfold int. cbn [fold_left]. rewrite Ex, Ey. lia.
Qed.

(** A check that holds on every number of a range holds on each. *)
Lemma forallb_range (P : Z -> bool) (n : Z) :
  forallb P (map Z.of_nat (seq 0 (Z.to_nat n))) = true ->
  forall z, 0 <= z < n -> P z = true.
Proof.
  intros H z Hz. rewrite forallb_forall in H. apply H.
  apply in_map_iff. exists (Z.to_nat z). split; [lia|].
  apply in_seq. lia.
Qed.

Lemma fmt0_two_digits (n : Z) :
  0 <= n <= 99 -> fmt0 2 n = [digit_char (n / 10); digit_char (n mod 10)].
Proof.
  intros H. apply text_eqb_eq.
  apply (forallb_range
           (fun n => text_eqb (fmt0 2 n)
                              [digit_char (n / 10); digit_char (n mod 10)])
           100); [vm_compute; reflexivity|lia].
Qed.

Lemma digit_char_decimal (d : Z) :
  0 <= d <= 9 -> decimal (digit_char d) = Some d.
Proof.
  intros H.
  pose proof (forallb_range
                (fun d => match decimal (digit_char d) with
                          | Some x => x =? d
                          | None => false
                          end) 10 ltac:(vm_compute; reflexivity) d
                ltac:(lia)) as C.
  cbv beta in C. destruct (decimal (digit_char d)); [|discriminate].
  f_equal. lia.
Qed.

(** ** [parse_time] *)

Lemma search_time_first (s : text) (i : nat) (h m : text) :
  time_token_at s i h m ->
  (forall j h' m', (j < i)%nat -> ~ time_token_at s j h' m') ->
  exists x, Re.search RE_time s = Some x /\
            Re.group 1 x = h /\ Re.group 2 x = m.
Proof.
  intros Hi Hfirst. unfold Re.search.
  pose proof (search_from_spec RE_time s []) as S.
  apply time_token_here in Hi. destruct Hi as [r Hi].
  destruct (Re.search_from RE_time [] s) as [x|].
  - destruct S as [i' [Hle [Hm [_ Hn]]]]. exists x. split; [reflexivity|].
    rewrite match_here_time in Hm.
    destruct (time_here (skipn i' s)) as [[[h' m'] r']|] eqn:E;
      [|discriminate].
    destruct (Nat.lt_trichotomy i' i) as [C|[C|C]].
    + exfalso. apply (Hfirst i' h' m' C). apply time_token_here.
      now exists r'.
    + subst i'. rewrite Hi in E. injection E as <- <- <-.
      injection Hm as Hg _. unfold Re.group. rewrite <- Hg. now split.
    + specialize (Hn i C). rewrite match_here_time, Hi in Hn. discriminate.
  - assert (Hle : (i <= length s)%nat).
    { destruct (Nat.le_gt_cases i (length s)) as [C|C]; [exact C|].
      rewrite skipn_all2 in Hi by lia. discriminate. }
    specialize (S i Hle). rewrite match_here_time, Hi in S. discriminate.
Qed.

Lemma parse_time_first (s : text) (i : nat) (h m : text) :
  contains (T "未定") s = false ->
  time_token_at s i h m ->
  (forall j h' m', (j < i)%nat -> ~ time_token_at s j h' m') ->
  0 <= int h <= 99 /\ 0 <= int m <= 99 /\
  parse_time s = Some (fmt0 2 (int h) ++ T ":" ++ fmt0 2 (int m)).
Proof.
  intros C Ht Hfirst.
  destruct (search_time_first s i h m Ht Hfirst) as [x [Ex [G1 G2]]].
  destruct Ht as [post [_ [Lh [Lm [Dh Dm]]]]].
  split; [now apply int_one_or_two|].
  split; [apply int_one_or_two; [now right|exact Dm]|].
  unfold parse_time. rewrite C, Ex, G1, G2. reflexivity.
Qed.

Lemma search_time_none (s : text) :
  (forall i h m, ~ time_token_at s i h m) -> Re.search RE_time s = None.
Proof.
  intros Hnone. unfold Re.search.
  pose proof (search_from_spec RE_time s []) as S.
  destruct (Re.search_from RE_time [] s) as [x|]; [|reflexivity].
  destruct S as [i [_ [Hm _]]]. rewrite match_here_time in Hm.
  destruct (time_here (skipn i s)) as [[[h m] r]|] eqn:E; [|discriminate].
  exfalso. apply (Hnone i h m). apply time_token_here. now exists r.
Qed.

(** C7.  [parse_time] returns nothing whenever the text holds the marker
    of an undecided time, whatever digits it holds as well.  Without the
    marker it returns the first time token of the text (the leftmost place
    where one or two digits, a colon and two digits stand), hour and minutes
    each written with two ASCII digits, the hour padded with a zero; and it
    returns nothing when the text holds no such token. *)
Theorem parse_time_spec (s : text) :
  ((exists pre post, s = pre ++ T "未定" ++ post) -> parse_time s = None) /\
  (~ (exists pre post, s = pre ++ T "未定" ++ post) ->
   (forall i h m,
       time_token_at s i h m ->
       (forall j h' m', (j < i)%nat -> ~ time_token_at s j h' m') ->
       0 <= int h <= 99 /\ 0 <= int m <= 99 /\
       parse_time s = Some (fmt0 2 (int h) ++ T ":" ++ fmt0 2 (int m)) /\
       parse_time s = Some [digit_char (int h / 10); digit_char (int h mod 10);
                            chr ":";
                            digit_char (int m / 10); digit_char (int m mod 10)])
   /\
   ((forall i h m, ~ time_token_at s i h m) -> parse_time s = None)).
Proof.
  split.
  - intros H. apply contains_spec in H. unfold parse_time. now rewrite H.
  - intros H.
    assert (C : contains (T "未定") s = false).
    { destruct (contains (T "未定") s) eqn:E; [|reflexivity].
      exfalso. apply H. now apply contains_spec. }
    split.
    + intros i h m Ht Hfirst.
      destruct (search_time_first s i h m Ht Hfirst) as [x [Ex [G1 G2]]].
      destruct Ht as [post [_ [Lh [Lm [Dh Dm]]]]].
      assert (Rh : 0 <= int h <= 99) by now apply int_one_or_two.
      assert (Rm : 0 <= int m <= 99)
        by (apply int_one_or_two; [now right|exact Dm]).
      assert (P : parse_time s
                  = Some (fmt0 2 (int h) ++ T ":" ++ fmt0 2 (int m))).
      { unfold parse_time. rewrite C, Ex, G1, G2. reflexivity. }
      repeat split; try lia; [exact P|].
      rewrite P, (fmt0_two_digits _ Rh), (fmt0_two_digits _ Rm). reflexivity.
    + intros Hnone. unfold parse_time.
      rewrite C, (search_time_none s Hnone). reflexivity.
Qed.

Lemma parse_time_spec_witness :
  parse_time (T "19:05 tip-off") = Some (T "19:05") /\
  parse_time (T "Gate 19:05 時刻未定") = None.
Proof.
  split.
  - destruct (parse_time_spec (T "19:05 tip-off")) as [_ H].
    assert (N : ~ (exists pre post, T "19:05 tip-off" = pre ++ T "未定" ++ post)).
    { intros C. apply contains_spec in C. vm_compute in C. discriminate C. }
    destruct (H N) as [H1 _].
    destruct (H1 0%nat (T "19") (T "05")) as [_ [_ [E _]]].
    + exists (T " tip-off"). repeat split; auto.
    + intros j h' m' Hj. lia.
    + exact E.
  - destruct (parse_time_spec (T "Gate 19:05 時刻未定")) as [H _].
    apply H. exists (T "Gate 19:05 時刻"), []. reflexivity.
Defined.

(** ** The engine and the groups already closed

    Groups closed before a pattern starts ride along untouched: running
    with [cs ++ cs0] is running with [cs] and adding [cs0] at the end. *)

Section Frame.

Variables A B : Type.
Variable f : A -> B.
Variable cs0 : Re.caps.

Lemma rep_frame (p : char -> bool) (g : bool) (s : text) :
  forall lo hi acc (k1 : text -> text -> option A)
         (k2 : text -> text -> option B),
    (forall w s', k2 w s' = option_map f (k1 w s')) ->
    Re.rep p g lo hi acc s k2 = option_map f (Re.rep p g lo hi acc s k1).
Proof.
  induction s as [|c s IH]; intros lo hi acc k1 k2 H; cbn [Re.rep].
  - destruct lo; [|reflexivity]. rewrite H.
    destruct g; [reflexivity|]. now destruct (k1 acc []).
  - destruct (p c && Re.can_take hi).
    + rewrite (IH _ _ _ k1 k2 H). destruct lo; [|reflexivity].
      rewrite H. destruct g.
      * now destruct (Re.rep p true _ _ _ s k1).
      * now destruct (k1 acc (c :: s)).
    + destruct lo; [|reflexivity]. rewrite H.
      destruct g; [reflexivity|]. now destruct (k1 acc (c :: s)).
Qed.

Lemma run_frame (r : Re.re) :
  forall s cs (k1 : text -> text -> Re.caps -> option A)
         (k2 : text -> text -> Re.caps -> option B),
    (forall w s' c, k2 w s' (c ++ cs0) = option_map f (k1 w s' c)) ->
    Re.run r s (cs ++ cs0) k2 = option_map f (Re.run r s cs k1).
Proof.
  induction r as [|p|p lo hi g|r1 IH1 r2 IH2|r1 IH1 r2 IH2|i r IH|];
    intros s cs k1 k2 H; cbn [Re.run].
  - apply H.
  - destruct s as [|c s]; [reflexivity|]. destruct (p c); [apply H|reflexivity].
  - apply rep_frame. intros w s'. apply H.
  - apply IH1. intros w1 s1 c1. apply IH2. intros w2 s2 c2. apply H.
  - rewrite (IH1 s cs k1 k2 H), (IH2 s cs k1 k2 H).
    now destruct (Re.run r1 s cs k1).
  - apply IH. intros w s' c. apply (H w s' ((i, w) :: c)).
  - destruct s as [|c [|? ?]]; [apply H| |reflexivity].
    destruct (c =? 10)%N; [apply H|reflexivity].
Qed.

End Frame.

Lemma match_from_groups (r : Re.re) (s : text) (cs0 : Re.caps) :
  Re.run r s cs0 (fun _ s' cs => Some (cs, s'))
  = option_map (fun x => (fst x ++ cs0, snd x)) (Re.match_here r s).
Proof.
  unfold Re.match_here.
  apply (run_frame _ _ (fun x : Re.caps * text => (fst x ++ cs0, snd x))
                   cs0 r s []).
  reflexivity.
Qed.

(** ** [strptime] on what [strftime] wrote *)

Lemma digit_char_is_digit (d : Z) :
  0 <= d <= 9 -> is_digit (digit_char d) = true.
Proof.
  intros H. unfold is_digit. now rewrite (digit_char_decimal d H).
Qed.

Lemma fmt0_four_digits (y : Z) :
  0 <= y <= 9999 ->
  fmt0 4 y = [digit_char (y / 1000); digit_char (y / 100 mod 10);
              digit_char (y / 10 mod 10); digit_char (y mod 10)].
Proof.
  intros H. apply text_eqb_eq.
  apply (forallb_range
           (fun y => text_eqb (fmt0 4 y)
                       [digit_char (y / 1000); digit_char (y / 100 mod 10);
                        digit_char (y / 10 mod 10); digit_char (y mod 10)])
           10000); [vm_compute; reflexivity|lia].
Qed.

Lemma run_Y (A : Type) (a b c d : char) (rest : text) (cs : Re.caps)
      (k : text -> text -> Re.caps -> option A) :
  is_digit a = true -> is_digit b = true ->
  is_digit c = true -> is_digit d = true ->
  Re.run RE_Y (a :: b :: c :: d :: rest) cs k
  = k [a; b; c; d] rest ((1%nat, [a; b; c; d]) :: cs).
Proof.
  intros Ha Hb Hc Hd. unfold RE_Y, Re.cat, Re.digit. cbn [Re.run].
  rewrite Ha, Hb, Hc, Hd. reflexivity.
Qed.

Lemma run_m_dash (A : Type) (m : Z) (R : Re.re) (rest : text) (cs : Re.caps)
      (k : text -> text -> Re.caps -> option A) :
  1 <= m <= 12 ->
  Re.run (Re.Cat RE_m (Re.Cat (Re.one (chr "-")) R))
         (fmt0 2 m ++ chr "-" :: rest) cs k
  = Re.run R rest ((2%nat, fmt0 2 m) :: cs)
           (fun w s c => k (fmt0 2 m ++ chr "-" :: w) s c).
Proof.
  intros H.
  assert (C : m = 1 \/ m = 2 \/ m = 3 \/ m = 4 \/ m = 5 \/ m = 6 \/ m = 7
              \/ m = 8 \/ m = 9 \/ m = 10 \/ m = 11 \/ m = 12) by lia.
  unfold RE_m, Re.alt, Re.one, Re.between.
  repeat (destruct C as [->|C]); [..|subst m];
    cbn [Re.run]; eval_fmt; cbn [app]; eval_tests;
    match goal with
    | |- context [match ?x with Some _ => _ | None => _ end] => now destruct x
    | _ => reflexivity
    end.
Qed.

Lemma rep_one_space (A : Type) (c : char) (rest : text)
      (k : text -> text -> option A) :
  is_space c = false ->
  Re.rep is_space true 1 None [] (chr " " :: c :: rest) k
  = k [chr " "] (c :: rest).
Proof.
  intros Hc. cbn [Re.rep Re.can_take pred option_map app].
  change (is_space (chr " ")) with true. cbn [andb]. rewrite Hc.
  reflexivity.
Qed.

Lemma run_d_space (A : Type) (d : Z) (R : Re.re) (c : char) (rest : text)
      (cs : Re.caps) (k : text -> text -> Re.caps -> option A) :
  1 <= d <= 31 -> is_space c = false ->
  Re.run (Re.Cat RE_d (Re.Cat Re.spaces1 R))
         (fmt0 2 d ++ chr " " :: c :: rest) cs k
  = Re.run R (c :: rest) ((3%nat, fmt0 2 d) :: cs)
           (fun w s c' => k (fmt0 2 d ++ chr " " :: w) s c').
Proof.
  intros H Hc.
  assert (C : d = 1 \/ d = 2 \/ d = 3 \/ d = 4 \/ d = 5 \/ d = 6 \/ d = 7
              \/ d = 8 \/ d = 9 \/ d = 10 \/ d = 11 \/ d = 12 \/ d = 13
              \/ d = 14 \/ d = 15 \/ d = 16 \/ d = 17 \/ d = 18 \/ d = 19
              \/ d = 20 \/ d = 21 \/ d = 22 \/ d = 23 \/ d = 24 \/ d = 25
              \/ d = 26 \/ d = 27 \/ d = 28 \/ d = 29 \/ d = 30 \/ d = 31)
    by lia.
  unfold RE_d, Re.alt, Re.one, Re.between, Re.spaces1, Re.digit.
  repeat (destruct C as [->|C]); [..|subst d];
    cbn [Re.run]; eval_fmt; cbn [app];
    rewrite ?(rep_one_space _ c rest _ Hc);
    cbn [Re.rep Re.can_take pred option_map app]; eval_tests;
    match goal with
    | |- context [match ?x with Some _ => _ | None => _ end] => now destruct x
    | _ => reflexivity
    end.
Qed.

Lemma run_cat (A : Type) (r1 r2 : Re.re) (s : text) (cs : Re.caps)
      (k : text -> text -> Re.caps -> option A) :
  Re.run (Re.Cat r1 r2) s cs k
  = Re.run r1 s cs (fun w1 s1 cs1 =>
    Re.run r2 s1 cs1 (fun w2 s2 cs2 => k (w1 ++ w2) s2 cs2)).
Proof. reflexivity. Qed.

Lemma run_one_cat (A : Type) (c : char) (R : Re.re) (rest : text)
      (cs : Re.caps) (k : text -> text -> Re.caps -> option A) :
  Re.run (Re.Cat (Re.one c) R) (c :: rest) cs k
  = Re.run R rest cs (fun w s cs' => k (c :: w) s cs').
Proof. unfold Re.one. cbn [Re.run]. now rewrite N.eqb_refl. Qed.

Lemma wf_datetime_fields (d : datetime) :
  wf_datetime d ->
  1 <= year d <= 9999 /\ 1 <= month d <= 12 /\ 1 <= day d <= 31 /\
  day d <= days_in_month (year d) (month d) /\
  0 <= hour d <= 23 /\ 0 <= minute d <= 59.
Proof.
  unfold wf_datetime, valid_date, valid_time. intros H.
  repeat match goal with
         | H : _ && _ = true |- _ => apply andb_prop in H; destruct H
         end.
  assert (day d <= days_in_month (year d) (month d)) by lia.
  unfold days_in_month in *.
  destruct (month d =? 2), (is_leap (year d)),
    ((month d =? 4) || (month d =? 6) || (month d =? 9) || (month d =? 11));
    lia.
Qed.

(** The date part of the pattern reads back the date [strftime] wrote and
    leaves the time part to the rest of the pattern. *)
Lemma match_after_date (d : datetime) (c : char) (rest : text) :
  wf_datetime d -> is_space c = false ->
  Re.match_here RE_ymd_HM (strftime_ymd d ++ T " " ++ c :: rest)
  = option_map
      (fun x => (fst x ++ [(3%nat, fmt0 2 (day d)); (2%nat, fmt0 2 (month d));
                           (1%nat, fmt0 4 (year d))], snd x))
      (Re.match_here RE_HM (c :: rest)).
Proof.
  intros Hwf Hc.
  destruct (wf_datetime_fields d Hwf) as [Hy [Hm [Hd _]]].
  unfold strftime_ymd.
  change (T "-") with [chr "-"]. change (T " ") with [chr " "].
  rewrite <- !app_assoc. cbn [app].
  rewrite (fmt0_four_digits (year d)) by lia. cbn [app].
  change RE_ymd_HM
    with (Re.Cat RE_Y (Re.Cat (Re.one (chr "-"))
            (Re.Cat RE_m (Re.Cat (Re.one (chr "-"))
               (Re.Cat RE_d (Re.Cat Re.spaces1 RE_HM)))))).
  unfold Re.match_here at 1.
  rewrite run_cat, run_Y
    by (apply digit_char_is_digit; Z.div_mod_to_equations; lia).
  rewrite run_one_cat, run_m_dash, run_d_space by assumption.
  apply match_from_groups.
Qed.

Lemma caps_eqb_eq (a b : Re.caps) : caps_eqb a b = true <-> a = b.
Proof.
  apply list_eqb_eq. intros [i x] [j y]. cbn [fst snd].
  rewrite andb_true_iff, Nat.eqb_eq, text_eqb_eq. split.
  - intros [-> ->]. reflexivity.
  - intros E. injection E as -> ->. tauto.
Qed.

Lemma hm_check_all (n : Z) : 0 <= n < 10000 -> hm_check n = true.
Proof.
  apply (forallb_range hm_check 10000). vm_compute. reflexivity.
Qed.

Lemma int_fmt0_four (y : Z) : 0 <= y <= 9999 -> int (fmt0 4 y) = y.
Proof.
  intros H. apply Z.eqb_eq.
  apply (forallb_range (fun y => int (fmt0 4 y) =? y) 10000);
    [vm_compute; reflexivity|lia].
Qed.

Lemma int_fmt0_two (n : Z) : 0 <= n <= 99 -> int (fmt0 2 n) = n.
Proof.
  intros H. apply Z.eqb_eq.
  apply (forallb_range (fun n => int (fmt0 2 n) =? n) 100);
    [vm_compute; reflexivity|lia].
Qed.

Lemma digit_char_not_space (d : Z) :
  0 <= d <= 9 -> is_space (digit_char d) = false.
Proof.
  intros H. apply negb_true_iff.
  apply (forallb_range (fun d => negb (is_space (digit_char d))) 10);
    [vm_compute; reflexivity|lia].
Qed.

(** [strptime] on a date written by [strftime], a space and a token
    ["HH:MM"]: the datetime when the token is a time of day, [ValueError]
    otherwise. *)
Lemma strptime_token (d : datetime) (hh mm : Z) :
  wf_datetime d -> 0 <= hh <= 99 -> 0 <= mm <= 99 ->
  strptime_ymd_HM (strftime_ymd d ++ T " " ++ hm_token hh mm)
  = if valid_time hh mm
    then Ok (Datetime (year d) (month d) (day d) hh mm)
    else Raise ValueError.
Proof.
  intros Hwf Hh Hm.
  destruct (wf_datetime_fields d Hwf) as [Hy [Hmo [Hd _]]].
  pose proof (hm_check_all (100 * hh + mm) ltac:(lia)) as C.
  unfold hm_check in C. cbv zeta in C.
  replace ((100 * hh + mm) / 100) with hh in C
    by (Z.div_mod_to_equations; lia).
  replace ((100 * hh + mm) mod 100) with mm in C
    by (Z.div_mod_to_equations; lia).
  unfold strptime_ymd_HM.
  assert (E : exists c rest, hm_token hh mm = c :: rest /\ is_space c = false).
  { unfold hm_token. rewrite (fmt0_two_digits hh) by lia. cbn [app].
    eexists _, _. split; [reflexivity|].
    apply digit_char_not_space. Z.div_mod_to_equations; lia. }
  destruct E as [c [rest [E Hc]]]. rewrite E in *.
  rewrite (match_after_date d c rest Hwf Hc).
  destruct (Re.match_here RE_HM (c :: rest)) as [[cs left]|];
    cbn [option_map fst snd].
  - destruct left as [|x left].
    + apply andb_prop in C. destruct C as [C V].
      apply caps_eqb_eq in C. subst cs. rewrite V.
      cbn [app Re.group_of find fst snd Nat.eqb].
      rewrite int_fmt0_four, !int_fmt0_two by lia.
      unfold datetime_new. rewrite V.
      unfold wf_datetime in Hwf. apply andb_prop in Hwf.
      destruct Hwf as [Hv _]. rewrite Hv. reflexivity.
    + apply negb_true_iff in C. rewrite C. reflexivity.
  - apply negb_true_iff in C. rewrite C. reflexivity.
Qed.

(** ** Rows *)

Lemma hm_token_cons (hh mm : Z) :
  0 <= hh <= 99 ->
  hm_token hh mm
  = digit_char (hh / 10) :: digit_char (hh mod 10) :: T ":" ++ fmt0 2 mm.
Proof. intros H. unfold hm_token. now rewrite (fmt0_two_digits hh H). Qed.

(** The row of a game whose start time is a token ["HH:MM"]. *)
Lemma to_row_timed (g : Game) (hh mm : Z) :
  wf_datetime (date g) -> 0 <= hh <= 99 -> 0 <= mm <= 99 ->
  start_time g = Some (hm_token hh mm) ->
  to_row g =
  if valid_time hh mm then
    match add_minutes (Datetime (year (date g)) (month (date g))
                                (day (date g)) hh mm) TIMEDELTA_MINUTES with
    | Ok end_dt =>
        Ok [subject_of g; strftime_ymd (date g); hm_token hh mm;
            strftime_ymd (date g); strftime_HM end_dt; T "False"; venue g]
    | Raise e => Raise e
    end
  else Raise ValueError.
Proof.
  intros Hwf Hh Hm Hs. unfold to_row. rewrite Hs.
  pose proof (strptime_token (date g) hh mm Hwf Hh Hm) as P.
  rewrite (hm_token_cons hh mm Hh) in *. rewrite P.
  destruct (valid_time hh mm); [|reflexivity]. cbn [bind].
  destruct (add_minutes _ TIMEDELTA_MINUTES) as [end_dt|e]; [|reflexivity].
  cbn [bind]. unfold strftime_HM at 1, strftime_ymd, subject_of.
  cbn [year month day hour minute]. rewrite (fmt0_two_digits hh Hh).
  reflexivity.
Qed.

(** The row of a game without a start time. *)
Lemma to_row_undecided (g : Game) :
  truthy (start_time g) = false ->
  to_row g = Ok [subject_of g ++ T " ※時刻未定"; strftime_ymd (date g); [];
                 strftime_ymd (date g); []; T "True"; venue g].
Proof.
  unfold to_row, truthy.
  destruct (start_time g) as [[|c st]|]; [reflexivity|discriminate|reflexivity].
Qed.

(** C10.  [parse_time] does not check the range of the digits it finds:
    when the first time token of a text without the undecided marker has an
    hour above 23 or minutes above 59, it returns that token, zero-padded;
    and serialising any game that carries such a start time raises
    [ValueError] (the row is not built). *)
Theorem parse_time_out_of_range (s : text) (i : nat) (h m : text) :
  ~ (exists pre post, s = pre ++ T "未定" ++ post) ->
  time_token_at s i h m ->
  (forall j h' m', (j < i)%nat -> ~ time_token_at s j h' m') ->
  23 < int h \/ 59 < int m ->
  exists token,
    parse_time s = Some token /\
    token = [digit_char (int h / 10); digit_char (int h mod 10); chr ":";
             digit_char (int m / 10); digit_char (int m mod 10)] /\
    forall g, wf_datetime (date g) -> start_time g = Some token ->
              to_row g = Raise ValueError.
Proof.
  intros Hmark Htok Hfirst Hrange.
  assert (C : contains (T "未定") s = false).
  { destruct (contains (T "未定") s) eqn:E; [|reflexivity].
    exfalso. apply Hmark. now apply contains_spec. }
  destruct (parse_time_first s i h m C Htok Hfirst) as [Rh [Rm E1]].
  exists (hm_token (int h) (int m)). split; [exact E1|].
  split; [unfold hm_token;
          now rewrite (fmt0_two_digits _ Rh), (fmt0_two_digits _ Rm)|].
  intros g Hwf Hs. rewrite (to_row_timed g (int h) (int m) Hwf Rh Rm Hs).
  replace (valid_time (int h) (int m)) with false; [reflexivity|].
  symmetry. unfold valid_time.
  destruct Hrange; [apply andb_false_intro1|]; lia.
Qed.

Lemma parse_time_out_of_range_witness :
  parse_time (T "doors 99:99") = Some (T "99:99") /\
  to_row (mkGame (T "[AWAY]") (T "Rival") (T "Arena")
                 (Datetime 2025 10 4 0 0) (Some (T "99:99")))
  = Raise ValueError.
Proof.
  destruct (parse_time_out_of_range (T "doors 99:99") 6 (T "99") (T "99"))
    as [token [H1 [H2 H3]]].
  - intros C. apply contains_spec in C. vm_compute in C. discriminate C.
  - exists []. repeat split; auto.
  - intros j h' m' Hj [post [E [Lh [Lm [Dh Dm]]]]].
    do 6 (destruct j as [|j]; [destruct Lh as [Lh|Lh];
          destruct h' as [|a [|b [|? ?]]]; try discriminate Lh;
          cbn in E; injection E; intros; subst; cbn in Dh; discriminate Dh|]).
    lia.
  - left. vm_compute. reflexivity.
  - subst token. split; [exact H1|]. apply H3; reflexivity.
Defined.

(** C8, at a game that ends after midnight.  The row of a home game on
    2025-10-04 at 22:00 carries End Time 00:30 and End Date 2025-10-04: the
    End Date column is the date of the start, although the end instant
    computed in the same call falls on 2025-10-05. *)
Theorem to_row_end_date_after_midnight :
  to_row night_game
  = Ok [T "[HOME] vs Rival@Arena"; T "2025-10-04"; T "22:00";
        T "2025-10-04"; T "00:30"; T "False"; T "Arena"] /\
  add_minutes (Datetime 2025 10 4 22 0) TIMEDELTA_MINUTES
  = Ok (Datetime 2025 10 5 0 30) /\
  strftime_ymd (Datetime 2025 10 5 0 30) = T "2025-10-05".
Proof. repeat split; vm_compute; reflexivity. Qed.

(** ** The structured pass *)

Lemma datetime_new_ok (y m d H M : Z) (dt : datetime) :
  datetime_new y m d H M = Ok dt ->
  dt = Datetime y m d H M /\ wf_datetime dt.
Proof.
  unfold datetime_new, wf_datetime.
  destruct (valid_date y m d && valid_time H M) eqn:E; [|discriminate].
  intros Q. injection Q as <-. now split.
Qed.

Lemma schedule_item_month (y mo : Z) (kws : list text) (item : Item)
      (g : Game) :
  schedule_item y mo kws item = Ok (Some g) ->
  year (date g) = y /\ month (date g) = mo /\ wf_datetime (date g).
Proof.
  unfold schedule_item.
  destruct (day_el item) as [day_text|]; [|discriminate].
  destruct (opp_el item) as [opp_text|]; [|discriminate].
  destruct (venue_el item) as [venue_text|]; [|discriminate].
  destruct (Re.search RE_md (_clean_text day_text)) as [m|]; [|discriminate].
  destruct (int (Re.group 1 m) =? mo) eqn:E; cbn [negb]; [|discriminate].
  apply Z.eqb_eq in E.
  destruct (datetime_new y (int (Re.group 1 m)) (int (Re.group 2 m)) 0 0)
    as [dt|e] eqn:D; [|discriminate].
  cbn [bind]. apply datetime_new_ok in D. destruct D as [-> W].
  intros Q. injection Q as <-. cbn [date year month].
  repeat split; [exact E|exact W].
Qed.

Lemma schedule_loop_month (y mo : Z) (kws : list text) (items : list Item) :
  forall games out,
    Forall (fun g => year (date g) = y /\ month (date g) = mo
                     /\ wf_datetime (date g)) games ->
    schedule_loop y mo kws items games = Ok out ->
    Forall (fun g => year (date g) = y /\ month (date g) = mo
                     /\ wf_datetime (date g)) out.
Proof.
  induction items as [|item rest IH]; intros games out Hg H;
    cbn [schedule_loop] in H.
  - injection H as <-. exact Hg.
  - destruct (schedule_item y mo kws item) as [[g|]|e] eqn:E;
      cbn [bind] in H; [| |discriminate].
    + apply (IH _ _ (proj2 (Forall_app _ _ _)
                       (conj Hg (Forall_cons _ (schedule_item_month _ _ _ _ _ E)
                                             (Forall_nil _)))) H).
    + apply (IH _ _ Hg H).
Qed.

(** Every game of the structured pass lies in the target month (and year):
    an entry of another month is left out. *)
Lemma schedule_list_month (y mo : Z) (soup : Soup) (kws : list text)
      (games : list Game) :
  _parse_schedule_list y mo soup kws = Ok games ->
  Forall (fun g => year (date g) = y /\ month (date g) = mo
                   /\ wf_datetime (date g)) games.
Proof.
  unfold _parse_schedule_list.
  destruct (schedule_loop y mo kws (schedule_items soup) []) as [l|e] eqn:E;
    [|discriminate].
  cbn [bind]. intros Q. injection Q as <-.
  pose proof (schedule_loop_month _ _ _ _ _ _ (Forall_nil _) E) as F.
  rewrite Forall_forall in *. intros g Hg. apply F.
  now apply keyed_values_incl.
Qed.

(** C1, at a page of the heuristic pass.  Asked for October 2025, the
    parser of a page without schedule list whose only node announces a game
    on 2025.11.3 returns that game: a record of month 11 in the output for
    month 10.  (The structured pass does leave out the entries of other
    months: [schedule_list_month].) *)
Theorem heuristic_pass_keeps_other_month :
  parse_alvark_month 2025 10 relisting_page = Ok [relisted_game] /\
  month (date relisted_game) = 11 /\
  parse_sunrockers_month 2025 10
    (mkSoup [] [] [T "vs Rival @Arena 2025.11.3 19:05"])
  = Ok [relisted_game].
Proof. repeat split; vm_compute; reflexivity. Qed.

(** ** The heuristic pass *)

Lemma node_date_digits (y : Z) (txt : text) :
  node_date y txt =
  match date_digits y txt with
  | None => Ok None
  | Some (yy, mm, dd) =>
      if valid_date yy mm dd then Ok (Some (Datetime yy mm dd 0 0))
      else Raise ValueError
  end.
Proof.
  unfold node_date, date_digits, datetime_new.
  destruct (Re.search RE_ymd txt) as [m1|].
  - change (valid_time 0 0) with true. rewrite andb_true_r.
    now destruct (valid_date _ _ _).
  - destruct (Re.search RE_md txt) as [m2|]; [|reflexivity].
    change (valid_time 0 0) with true. rewrite andb_true_r.
    now destruct (valid_date _ _ _).
Qed.

Section Heuristic.

Variables markers known_arenas home_arenas : list text.
Variable y : Z.

Lemma heuristic_node_raises (raw : text) (e : exn) :
  heuristic_node markers known_arenas home_arenas y raw = Raise e <->
  e = ValueError /\ ill_dated markers y raw.
Proof.
  unfold heuristic_node, ill_dated.
  destruct (_clean_text raw) as [|c txt] eqn:Ec.
  - split; [discriminate|]. intros [_ [C _]]. now contradiction C.
  - destruct (existsb (fun mk => contains mk (c :: txt)) markers) eqn:Em;
      cbn [negb].
    + rewrite node_date_digits.
      destruct (date_digits y (c :: txt)) as [[[yy mm] dd]|].
      * destruct (valid_date yy mm dd) eqn:V; cbn [bind].
        -- split.
           ++ destruct (node_opponent (c :: txt)) as [[|? ?]|];
                try discriminate.
              destruct (node_venue known_arenas (c :: txt)) as [[|? ?]|];
                discriminate.
           ++ intros [_ [_ [_ [y1 [m1 [d1 [Q V']]]]]]].
              injection Q as <- <- <-. congruence.
        -- split.
           ++ intros Q. injection Q as <-.
              repeat split; try discriminate. now exists yy, mm, dd.
           ++ intros [-> _]. reflexivity.
      * cbn [bind]. split; [discriminate|].
        intros [_ [_ [_ [y1 [m1 [d1 [Q _]]]]]]]. discriminate Q.
    + split; [discriminate|]. intros [_ [_ [C _]]]. discriminate C.
Qed.

Lemma heuristic_loop_outcome (cards : list text) :
  forall games,
    (Exists (ill_dated markers y) cards ->
     heuristic_loop markers known_arenas home_arenas y cards games
     = Raise ValueError) /\
    (~ Exists (ill_dated markers y) cards ->
     exists out,
       heuristic_loop markers known_arenas home_arenas y cards games = Ok out).
Proof.
  induction cards as [|el rest IH]; intros games; cbn [heuristic_loop].
  - split; [intros H; inversion H|intros _; now exists games].
  - destruct (heuristic_node markers known_arenas home_arenas y el)
      as [r|e] eqn:E; cbn [bind].
    + assert (N : ~ ill_dated markers y el).
      { intros C.
        assert (R : heuristic_node markers known_arenas home_arenas y el
                    = Raise ValueError)
          by (apply heuristic_node_raises; now split).
        congruence. }
      split.
      * intros H. inversion H as [? ? H1|? ? H1]; subst; [contradiction|].
        destruct r; now apply IH.
      * intros H.
        assert (H' : ~ Exists (ill_dated markers y) rest)
          by (intros C; apply H; now right).
        destruct r; now apply IH.
    + apply heuristic_node_raises in E. destruct E as [-> I].
      split; [reflexivity|]. intros H. exfalso. apply H. now left.
Qed.

(** C2, as the code has it.  A candidate node that passes the marker test
    and names the target month with a day that month does not have is not
    skipped: the constructor's [ValueError] leaves the scan, and the
    extractor raises it, returning no game at all, whatever the other nodes
    hold. *)
Theorem heuristic_pass_raises_on_ill_formed_date (mo : Z)
        (cards : list text) :
  c_int y ->
  Exists (ill_day_node markers y mo) cards ->
  heuristic_pass markers known_arenas home_arenas y cards = Raise ValueError.
Proof.
  intros _ H. unfold heuristic_pass.
  destruct (heuristic_loop_outcome cards []) as [H1 _].
  rewrite H1; [reflexivity|].
  apply Exists_exists in H. destruct H as [raw [Hin [N [M [yy [d D]]]]]].
  apply Exists_exists. exists raw. split; [exact Hin|].
  split; [exact N|]. split; [exact M|].
  exists yy, mo, d. tauto.
Qed.

End Heuristic.

Lemma heuristic_pass_raises_on_ill_formed_date_witness :
  heuristic_pass ALVARK_MARKERS ALVARK_KNOWN_ARENAS ALVARK_HOME 2025
                 [good_node; bad_node]
  = Raise ValueError.
Proof.
  apply (heuristic_pass_raises_on_ill_formed_date
           ALVARK_MARKERS ALVARK_KNOWN_ARENAS ALVARK_HOME 2025 11
           [good_node; bad_node]).
  - unfold c_int. lia.
  - right. left. unfold ill_day_node. split; [discriminate|].
    split; [reflexivity|]. exists 2025, 31.
    split; [reflexivity|]. split; [lia|]. split; [lia|reflexivity].
Defined.

(** C2 as the claim states it fails: with a node naming the 31st of
    November before a proper fixture node, the parser of the page of
    November raises [ValueError]; the proper node, which alone gives its
    game, is never reached.  The structured pass does the same with an
    entry of its list that names that day. *)
Lemma heuristic_scan_aborts :
  parse_alvark_month 2025 11 (mkSoup [] [bad_node; good_node] [])
  = Raise ValueError /\
  parse_alvark_month 2025 11 (mkSoup [] [good_node] []) = Ok [good_game] /\
  parse_sunrockers_month 2025 11 (mkSoup [] [] [bad_node; good_node])
  = Raise ValueError /\
  _parse_schedule_list 2025 11 (mkSoup [bad_item] [] []) ALVARK_HOME
  = Raise ValueError.
Proof. repeat split; vm_compute; reflexivity. Qed.

(** Both team parsers run the heuristic pass when the structured pass finds
    nothing. *)
Lemma parse_alvark_month_fallback (y mo : Z) (soup : Soup) :
  _parse_schedule_list y mo soup ALVARK_HOME = Ok [] ->
  parse_alvark_month y mo soup
  = heuristic_pass ALVARK_MARKERS ALVARK_KNOWN_ARENAS ALVARK_HOME y
                   (alvark_cards soup).
Proof. intros H. unfold parse_alvark_month. now rewrite H. Qed.

Lemma parse_sunrockers_month_fallback (y mo : Z) (soup : Soup) :
  _parse_schedule_list y mo soup SUNROCKERS_HOME = Ok [] ->
  parse_sunrockers_month y mo soup
  = heuristic_pass SUNROCKERS_MARKERS SUNROCKERS_KNOWN_ARENAS SUNROCKERS_HOME y
                   (sunrockers_candidates soup).
Proof. intros H. unfold parse_sunrockers_month. now rewrite H. Qed.

(** ** The end of a timed row *)

Lemma add_minutes_time (dt e : datetime) (mins : Z) :
  add_minutes dt mins = Ok e ->
  hour e = (hour dt * 60 + minute dt + mins) mod 1440 / 60 /\
  minute e = (hour dt * 60 + minute dt + mins) mod 60.
Proof.
  unfold add_minutes.
  destruct (Nat.iter _ _ _) as [d|x]; cbn [bind]; [|discriminate].
  intros Q. injection Q as <-. now split.
Qed.

(** In every row of a timed game the End Date column is the date of the
    fixture, the End Time column is the start plus 150 minutes taken modulo
    the day, and the all-day column is ["False"]. *)
Lemma to_row_timed_columns (g : Game) (hh mm : Z) (row : list text) :
  wf_datetime (date g) -> 0 <= hh <= 99 -> 0 <= mm <= 99 ->
  start_time g = Some (hm_token hh mm) ->
  to_row g = Ok row ->
  valid_time hh mm = true /\
  nth 1 row [] = strftime_ymd (date g) /\
  nth 2 row [] = hm_token hh mm /\
  nth 3 row [] = strftime_ymd (date g) /\
  nth 4 row [] = hm_token ((hh * 60 + mm + 150) mod 1440 / 60)
                          ((hh * 60 + mm + 150) mod 60) /\
  nth 5 row [] = T "False".
Proof.
  intros Hwf Hh Hm Hs. rewrite (to_row_timed g hh mm Hwf Hh Hm Hs).
  destruct (valid_time hh mm); [|discriminate].
  destruct (add_minutes _ TIMEDELTA_MINUTES) as [e|x] eqn:E; [|discriminate].
  apply add_minutes_time in E. cbn [hour minute] in E. destruct E as [E1 E2].
  intros Q. injection Q as <-. cbn [nth]. unfold strftime_HM.
  rewrite E1, E2. repeat split; reflexivity.
Qed.

(** ** Months that keep to their own dates

    When every game returned for a month is dated in that month, as the
    structured pass ensures, no identity key occurs in two months. *)

Lemma digit_char_inj (a b : Z) :
  0 <= a <= 9 -> 0 <= b <= 9 -> digit_char a = digit_char b -> a = b.
Proof. unfold digit_char. lia. Qed.

Lemma strftime_ymd_inj (d1 d2 : datetime) :
  wf_datetime d1 -> wf_datetime d2 ->
  strftime_ymd d1 = strftime_ymd d2 ->
  year d1 = year d2 /\ month d1 = month d2 /\ day d1 = day d2.
Proof.
  intros W1 W2.
  destruct (wf_datetime_fields d1 W1) as [Y1 [M1 [D1 _]]].
  destruct (wf_datetime_fields d2 W2) as [Y2 [M2 [D2 _]]].
  unfold strftime_ymd.
  rewrite !fmt0_four_digits, !fmt0_two_digits by lia.
  cbn [app]. intros E.
  injection E as E1 E2 E3 E4 E5 E6 E7 E8.
  assert (B : forall n, 0 <= n <= 9999 ->
                         0 <= n / 1000 <= 9 /\ 0 <= n / 100 mod 10 <= 9 /\
                         0 <= n / 10 mod 10 <= 9 /\ 0 <= n mod 10 <= 9 /\
                         0 <= n / 10 <= 999)
    by (intros; Z.div_mod_to_equations; lia).
  pose proof (B (year d1) ltac:(lia)). pose proof (B (year d2) ltac:(lia)).
  pose proof (B (month d1) ltac:(lia)). pose proof (B (month d2) ltac:(lia)).
  pose proof (B (day d1) ltac:(lia)). pose proof (B (day d2) ltac:(lia)).
  apply digit_char_inj in E1, E2, E3, E4, E5, E6, E7, E8; try tauto.
  all: repeat split; Z.div_mod_to_equations; lia.
Qed.

Lemma Forall2_in_right (A B : Type) (R : A -> B -> Prop) (l1 : list A)
      (l2 : list B) (b : B) :
  Forall2 R l1 l2 -> In b l2 -> exists a, In a l1 /\ R a b.
Proof.
  induction 1 as [|x y l1 l2 H HF IH]; intros Hin; [destruct Hin|].
  destruct Hin as [<-|Hin].
  - exists x. split; [now left|exact H].
  - destruct (IH Hin) as [a [Ha Hr]]. exists a. split; [now right|exact Hr].
Qed.

Lemma distinct_months_distinct_keys (months : list (Z * Z))
      (results : list (list Game)) :
  Forall2 (fun ym games => Forall (dated_in ym) games) months results ->
  NoDup months ->
  Forall (fun games => NoDup (map game_key games)) results ->
  NoDup (map game_key (concat results)).
Proof.
  induction 1 as [|ym games months results Hd HF IH]; intros Hm Hu.
  - constructor.
  - inversion Hm as [|? ? Hnot Hm']; subst.
    inversion Hu as [|? ? Hu1 Hu2]; subst.
    cbn [concat]. rewrite map_app. apply NoDup_app.
    + exact Hu1.
    + now apply IH.
    + intros k Hk1 Hk2.
      apply in_map_iff in Hk1. destruct Hk1 as [g1 [E1 G1]].
      apply in_map_iff in Hk2. destruct Hk2 as [g2 [E2 G2]].
      apply in_concat in G2. destruct G2 as [games2 [R2 G2]].
      rewrite Forall_forall in Hd. destruct (Hd g1 G1) as [A1 [A2 A3]].
      destruct (Forall2_in_right _ _ _ _ _ _ HF R2) as [ym2 [I2 F2]].
      rewrite Forall_forall in F2. destruct (F2 g2 G2) as [B1 [B2 B3]].
      assert (Q : strftime_ymd (date g1) = strftime_ymd (date g2)).
      { unfold game_key in E1, E2. congruence. }
      destruct (strftime_ymd_inj _ _ A3 B3 Q) as [Qy [Qm _]].
      apply Hnot. replace ym with ym2; [exact I2|].
      destruct ym, ym2. cbn [fst snd] in *. f_equal; lia.
Qed.

(** ** More on the removal of duplicates *)

Lemma existsb_keys (k : key) (d : list (key * Game)) :
  existsb (fun kg => key_eqb (fst kg) k) d
  = existsb (fun k' => key_eqb k' k) (map fst d).
Proof.
  induction d as [|[k' g'] d IH]; cbn [existsb map fst]; [reflexivity|].
  now rewrite IH.
Qed.

Lemma keyed_fold_keys (games : list Game) :
  forall d,
    map fst (fold_left (fun d g => dict_set (game_key g) g d) games d)
    = map fst d ++ first_keys (map fst d) games.
Proof.
  induction games as [|g games IH]; intros d; cbn [fold_left first_keys].
  - now rewrite app_nil_r.
  - rewrite IH, dict_set_keys, existsb_keys.
    destruct (existsb (fun k' => key_eqb k' (game_key g)) (map fst d));
      [reflexivity|].
    now rewrite <- app_assoc.
Qed.

Lemma dict_values_keys (d : list (key * Game)) :
  dict_ok d -> map game_key (map snd d) = map fst d.
Proof.
  intros [_ Hk]. induction Hk as [|kg d H1 H2 IH]; cbn [map]; [reflexivity|].
  now rewrite IH, H1.
Qed.

Lemma keyed_fold_keeps_keys (games : list Game) :
  forall d k,
    In k (map fst d) \/ In k (map game_key games) ->
    In k (map fst (fold_left (fun d g => dict_set (game_key g) g d) games d)).
Proof.
  induction games as [|g games IH]; intros d k H; cbn [fold_left].
  - destruct H as [H|[]]. exact H.
  - apply IH. rewrite dict_set_keys.
    destruct (existsb (fun kg => key_eqb (fst kg) (game_key g)) d) eqn:E.
    + destruct H as [H|[H|H]]; [now left| |now right].
      left. subst k. apply existsb_exists in E. destruct E as [kg [Hin E]].
      apply key_eqb_eq in E. rewrite <- E. now apply in_map.
    + destruct H as [H|[H|H]]; [left|left|now right];
        apply in_or_app; [now left|right; now left].
Qed.

(** X4.  What the dictionary of a parser keeps: one game per identity key, the
    keys in the order of their first occurrence, under each key the last
    game that carries it, and no key is lost. *)
Theorem keyed_values_spec (games : list Game) :
  NoDup (map game_key (keyed_values games)) /\
  map game_key (keyed_values games) = first_keys [] games /\
  (forall g, In g (keyed_values games) ->
             In g games /\ last_with_key (game_key g) games = Some g) /\
  (forall g, In g games ->
             exists g', In g' (keyed_values games)
                        /\ game_key g' = game_key g).
Proof.
  split; [apply keyed_values_nodup|].
  split.
  { unfold keyed_values. rewrite dict_values_keys.
    - now rewrite keyed_fold_keys.
    - apply keyed_fold_ok. split; constructor. }
  split; [apply keyed_values_last|].
  intros g Hg.
  assert (H : In (game_key g) (map game_key (keyed_values games))).
  { unfold keyed_values. rewrite dict_values_keys.
    - apply keyed_fold_keeps_keys. right. now apply in_map.
    - apply keyed_fold_ok. split; constructor. }
  apply in_map_iff in H. destruct H as [g' [E Hin]]. now exists g'.
Qed.

Lemma dict_set_fresh (k : key) (g : Game) (d : list (key * Game)) :
  ~ In k (map fst d) -> dict_set k g d = d ++ [(k, g)].
Proof.
  induction d as [|[k' g'] d IH]; cbn [dict_set map fst app]; intros H;
    [reflexivity|].
  destruct (key_eqb k' k) eqn:E.
  - apply key_eqb_eq in E. exfalso. apply H. now left.
  - rewrite IH; [reflexivity|]. intros C. apply H. now right.
Qed.

Lemma keyed_fold_distinct (games : list Game) :
  forall d,
    NoDup (map fst d ++ map game_key games) ->
    fold_left (fun d g => dict_set (game_key g) g d) games d
    = d ++ map (fun g => (game_key g, g)) games.
Proof.
  induction games as [|g games IH]; intros d H; cbn [fold_left map].
  - now rewrite app_nil_r.
  - cbn [map] in H.
    rewrite dict_set_fresh.
    + rewrite IH; [now rewrite <- app_assoc|].
      rewrite map_app. cbn [map fst]. now rewrite <- app_assoc.
    + apply NoDup_remove_2 in H. intros C. apply H. apply in_or_app.
      now left.
Qed.

(** X5.  A list that has one game per key already is left as it is; so removing
    duplicates twice is removing them once. *)
Theorem keyed_values_idempotent (games : list Game) :
  (NoDup (map game_key games) -> keyed_values games = games) /\
  keyed_values (keyed_values games) = keyed_values games.
Proof.
  assert (H : forall l, NoDup (map game_key l) -> keyed_values l = l).
  { intros l Hl. unfold keyed_values.
    rewrite keyed_fold_distinct by exact Hl. cbn [app].
    rewrite map_map. cbn [snd]. apply map_id. }
  split; [apply H|]. apply H, keyed_values_nodup.
Qed.

(** ** [_clean_text] *)

Lemma single_spaced_weaken (s : text) :
  single_spaced true s -> single_spaced false s.
Proof.
  destruct s as [|c r]; cbn [single_spaced]; [trivial|].
  destruct (is_space c); [intros [_ [C _]]; discriminate C|trivial].
Qed.

Lemma sub_spaces_single (s : text) :
  forall b, single_spaced b (sub_spaces b s).
Proof.
  induction s as [|c r IH]; intros b; cbn [sub_spaces]; [exact I|].
  destruct (is_space c) eqn:E.
  - destruct b; [apply IH|].
    cbn [single_spaced]. change (is_space (chr " ")) with true.
    repeat split. apply IH.
  - cbn [single_spaced]. rewrite E. apply IH.
Qed.

Lemma single_spaced_fixed (s : text) :
  forall b, single_spaced b s -> sub_spaces b s = s.
Proof.
  induction s as [|c r IH]; intros b H; cbn [sub_spaces]; [reflexivity|].
  cbn [single_spaced] in H. destruct (is_space c).
  - destruct H as [-> [-> H]]. now rewrite (IH true H).
  - now rewrite (IH false H).
Qed.

Lemma single_spaced_suffix (a s : text) :
  forall b, single_spaced b (a ++ s) -> single_spaced false s.
Proof.
  induction a as [|c a IH]; intros b H; cbn [app] in H.
  - destruct b; [now apply single_spaced_weaken|exact H].
  - cbn [single_spaced] in H. destruct (is_space c).
    + destruct H as [_ [_ H]]. now apply (IH true).
    + now apply (IH false).
Qed.

Lemma single_spaced_prefix (a s : text) :
  forall b, single_spaced b (a ++ s) -> single_spaced b a.
Proof.
  induction a as [|c a IH]; intros b H; cbn [app] in *; [exact I|].
  cbn [single_spaced] in *. destruct (is_space c).
  - destruct H as [H1 [H2 H]]. repeat split; try assumption. now apply IH.
  - now apply IH.
Qed.

Lemma lstrip_split (p : char -> bool) (s : text) :
  exists w, s = w ++ lstrip p s /\ forallb p w = true.
Proof.
  induction s as [|c r [w [E F]]]; cbn [lstrip].
  - now exists [].
  - destruct (p c) eqn:P.
    + exists (c :: w). cbn [app forallb]. rewrite P, F. split; [|reflexivity].
      now rewrite <- E.
    + now exists [].
Qed.

Lemma lstrip_head (p : char -> bool) (s : text) :
  match lstrip p s with
  | [] => True
  | c :: _ => p c = false
  end.
Proof.
  induction s as [|c r IH]; cbn [lstrip]; [exact I|].
  destruct (p c) eqn:P; [exact IH|exact P].
Qed.

Lemma lstrip_fixed (p : char -> bool) (s : text) :
  match s with
  | [] => True
  | c :: _ => p c = false
  end ->
  lstrip p s = s.
Proof. destruct s as [|c r]; cbn [lstrip]; [trivial|]. now intros ->. Qed.

Lemma rstrip_split (p : char -> bool) (s : text) :
  exists w, s = rstrip p s ++ w /\ forallb p w = true.
Proof.
  unfold rstrip. destruct (lstrip_split p (rev s)) as [w [E F]].
  exists (rev w). split.
  - rewrite <- rev_app_distr, <- E. now rewrite rev_involutive.
  - rewrite forallb_forall in *. intros x Hx. apply F. now apply in_rev.
Qed.

Lemma rstrip_last (p : char -> bool) (s : text) :
  match rev (rstrip p s) with
  | [] => True
  | c :: _ => p c = false
  end.
Proof. unfold rstrip. rewrite rev_involutive. apply lstrip_head. Qed.

Lemma rstrip_fixed (p : char -> bool) (s : text) :
  match rev s with
  | [] => True
  | c :: _ => p c = false
  end ->
  rstrip p s = s.
Proof.
  intros H. unfold rstrip. rewrite lstrip_fixed by exact H.
  apply rev_involutive.
Qed.

Lemma rstrip_head (p : char -> bool) (c : char) (r : text) :
  p c = false -> exists r', rstrip p (c :: r) = c :: r'.
Proof.
  intros P. destruct (rstrip_split p (c :: r)) as [w [E F]].
  destruct (rstrip p (c :: r)) as [|x r'] eqn:R.
  - cbn [app] in E. subst w. cbn [forallb] in F. rewrite P in F.
    discriminate F.
  - cbn [app] in E. injection E as <- _. now exists r'.
Qed.

Lemma strip_edges (s : text) :
  match strip s with
  | [] => True
  | c :: _ => is_space c = false
  end /\
  match rev (strip s) with
  | [] => True
  | c :: _ => is_space c = false
  end.
Proof.
  unfold strip. split; [|apply rstrip_last].
  pose proof (lstrip_head is_space s) as H.
  destruct (lstrip is_space s) as [|c r]; [exact I|].
  destruct (rstrip_head is_space c r H) as [r' ->]. exact H.
Qed.

Lemma strip_fixed (s : text) :
  match s with
  | [] => True
  | c :: _ => is_space c = false
  end ->
  match rev s with
  | [] => True
  | c :: _ => is_space c = false
  end ->
  strip s = s.
Proof.
  intros H1 H2. unfold strip. rewrite (lstrip_fixed is_space s H1).
  now apply rstrip_fixed.
Qed.

Lemma sub_spaces_keeps (s : text) :
  forall b, filter not_space (sub_spaces b s) = filter not_space s.
Proof.
  induction s as [|c r IH]; intros b; cbn [sub_spaces filter]; [reflexivity|].
  unfold not_space at 2. destruct (is_space c) eqn:E; cbn [negb].
  - destruct b; [apply IH|]. cbn [filter]. apply IH.
  - cbn [filter]. unfold not_space at 1. rewrite E. cbn [negb].
    now rewrite IH.
Qed.

Lemma filter_all_space (w : text) :
  forallb is_space w = true -> filter not_space w = [].
Proof.
  induction w as [|c w IH]; cbn [forallb filter]; [reflexivity|].
  intros H. apply andb_prop in H. destruct H as [H1 H2].
  unfold not_space at 1. rewrite H1. cbn [negb]. now apply IH.
Qed.

Lemma strip_keeps (s : text) :
  filter not_space (strip s) = filter not_space s.
Proof.
  unfold strip.
  destruct (lstrip_split is_space s) as [w1 [E1 F1]].
  destruct (rstrip_split is_space (lstrip is_space s)) as [w2 [E2 F2]].
  rewrite E1 at 2. rewrite E2 at 2.
  rewrite !filter_app, (filter_all_space w1 F1), (filter_all_space w2 F2).
  now rewrite app_nil_r.
Qed.

Lemma strip_single (s : text) :
  single_spaced false s -> single_spaced false (strip s).
Proof.
  intros H. unfold strip.
  destruct (lstrip_split is_space s) as [w1 [E1 F1]].
  destruct (rstrip_split is_space (lstrip is_space s)) as [w2 [E2 F2]].
  rewrite E1 in H. apply single_spaced_suffix in H.
  rewrite E2 in H. now apply single_spaced_prefix in H.
Qed.

Lemma single_spaced_chars (s : text) :
  forall b, single_spaced b s ->
            forall c, In c s -> is_space c = true -> c = chr " ".
Proof.
  induction s as [|x r IH]; intros b H c Hin Hc; [destruct Hin|].
  cbn [single_spaced] in H. destruct Hin as [->|Hin].
  - rewrite Hc in H. tauto.
  - destruct (is_space x); [destruct H as [_ [_ H]]|]; eapply IH; eassumption.
Qed.

Lemma single_spaced_pairs (pre : text) :
  forall b x z post,
    single_spaced b (pre ++ x :: z :: post) ->
    is_space x = true -> is_space z = false.
Proof.
  induction pre as [|c pre IH]; intros b x z post H Hx; cbn [app] in H.
  - cbn [single_spaced] in H. rewrite Hx in H. destruct H as [_ [_ H]].
    destruct (is_space z); [|reflexivity]. destruct H as [_ [C _]].
    discriminate C.
  - cbn [single_spaced] in H.
    destruct (is_space c); [destruct H as [_ [_ H]]|]; eapply IH; eassumption.
Qed.

Lemma clean_text_single (s : text) : single_spaced false (_clean_text s).
Proof. apply strip_single, sub_spaces_single. Qed.

Lemma clean_text_spaces (s : text) (c : char) :
  In c (_clean_text s) -> is_space c = true -> c = chr " ".
Proof. apply (single_spaced_chars _ false), clean_text_single. Qed.

(** X1.  [_clean_text] yields a text in which the only white space is the plain
    space, no two spaces are adjacent and neither end is a space; it keeps
    every other character, in order; and it leaves such a text as it is, so
    cleaning twice is cleaning once. *)
Theorem clean_text_normal_form (s : text) :
  (forall c, In c (_clean_text s) -> is_space c = true -> c = chr " ") /\
  (forall pre x z post,
      _clean_text s = pre ++ x :: z :: post ->
      is_space x = true -> is_space z = false) /\
  (forall c r, _clean_text s = c :: r -> is_space c = false) /\
  (forall c r, rev (_clean_text s) = c :: r -> is_space c = false) /\
  filter not_space (_clean_text s) = filter not_space s /\
  _clean_text (_clean_text s) = _clean_text s.
Proof.
  assert (S1 : single_spaced false (_clean_text s))
    by (apply strip_single, sub_spaces_single).
  destruct (strip_edges (sub_spaces false s)) as [E1 E2].
  fold (_clean_text s) in E1, E2.
  split; [now apply (single_spaced_chars _ false)|].
  split; [intros pre x z post E; rewrite E in S1;
          now apply (single_spaced_pairs pre false x z post)|].
  split; [intros c r E; now rewrite E in E1|].
  split; [intros c r E; now rewrite E in E2|].
  split; [unfold _clean_text; now rewrite strip_keeps, sub_spaces_keeps|].
  unfold _clean_text at 1.
  rewrite (single_spaced_fixed _ false S1). now apply strip_fixed.
Qed.

(** ** The tokens of [parse_time] *)

Lemma parse_time_token (s tok : text) :
  parse_time s = Some tok ->
  exists hh mm, 0 <= hh <= 99 /\ 0 <= mm <= 99 /\ tok = hm_token hh mm.
Proof.
  unfold parse_time. destruct (contains (T "未定") s); [discriminate|].
  pose proof (search_from_spec RE_time s []) as S. unfold Re.search.
  destruct (Re.search_from RE_time [] s) as [x|]; [|discriminate].
  destruct S as [i [_ [Hm _]]]. rewrite match_here_time in Hm.
  destruct (time_here (skipn i s)) as [[[h m] r]|] eqn:E; [|discriminate].
  injection Hm as Hg _. apply time_here_sound in E.
  destruct E as [_ [Lh [Lm [Dh Dm]]]].
  intros Q. injection Q as <-. unfold Re.group. rewrite <- Hg.
  cbn [Re.group_of find fst snd Nat.eqb].
  exists (int h), (int m). split; [now apply int_one_or_two|].
  split; [apply int_one_or_two; [now right|exact Dm]|reflexivity].
Qed.

Lemma reparse_check_all (n : Z) : 0 <= n < 10000 -> reparse_check n = true.
Proof.
  apply (forallb_range reparse_check 10000). vm_compute. reflexivity.
Qed.

(** X2.  Whatever [parse_time] returns is a token of five characters, two ASCII
    digits, a colon and two ASCII digits, and [parse_time] maps it to
    itself: a time that was extracted once can be extracted again without
    change. *)
Theorem parse_time_idempotent (s tok : text) :
  parse_time s = Some tok ->
  (exists hh mm,
      0 <= hh <= 99 /\ 0 <= mm <= 99 /\
      tok = [digit_char (hh / 10); digit_char (hh mod 10); chr ":";
             digit_char (mm / 10); digit_char (mm mod 10)]) /\
  length tok = 5%nat /\
  parse_time tok = Some tok.
Proof.
  intros H. destruct (parse_time_token s tok H) as [hh [mm [Hh [Hm ->]]]].
  split; [|split].
  - exists hh, mm. repeat split; try lia. unfold hm_token.
    now rewrite (fmt0_two_digits hh Hh), (fmt0_two_digits mm Hm).
  - unfold hm_token.
    now rewrite (fmt0_two_digits hh Hh), (fmt0_two_digits mm Hm).
  - pose proof (reparse_check_all (100 * hh + mm) ltac:(lia)) as C.
    unfold reparse_check in C.
    replace ((100 * hh + mm) / 100) with hh in C
      by (Z.div_mod_to_equations; lia).
    replace ((100 * hh + mm) mod 100) with mm in C
      by (Z.div_mod_to_equations; lia).
    destruct (parse_time (hm_token hh mm)) as [t|]; [|discriminate].
    apply text_eqb_eq in C. now subst t.
Qed.

Lemma parse_time_idempotent_witness :
  parse_time (T "19:05") = Some (T "19:05").
Proof.
  apply (parse_time_idempotent (T "tip-off 19:05 (JST)") (T "19:05")).
  vm_compute. reflexivity.
Defined.

(** ** The outcome of [to_row] *)

Lemma days_in_month_bounds (y m : Z) : 28 <= days_in_month y m <= 31.
Proof.
  unfold days_in_month.
  destruct (m =? 2), (is_leap y),
    ((m =? 4) || (m =? 6) || (m =? 9) || (m =? 11)); lia.
Qed.

Lemma wf_datetime_intro (y m d H M : Z) :
  1 <= y <= 9999 -> 1 <= m <= 12 -> 1 <= d <= days_in_month y m ->
  0 <= H <= 23 -> 0 <= M <= 59 ->
  wf_datetime (Datetime y m d H M).
Proof.
  intros. unfold wf_datetime, valid_date, valid_time.
  cbn [year month day hour minute].
  repeat (apply andb_true_intro; split); lia.
Qed.

(** The day after a date is a date, unless the date is the last one. *)
Lemma next_day_outcome (dt : datetime) :
  wf_datetime dt ->
  (next_day dt = Raise OverflowError /\
   year dt = 9999 /\ month dt = 12 /\ day dt = 31) \/
  (exists n, next_day dt = Ok n /\ wf_datetime n /\
             hour n = hour dt /\ minute n = minute dt /\
             datetime_ltb dt n = true /\
             ~ (year dt = 9999 /\ month dt = 12 /\ day dt = 31)).
Proof.
  intros W. destruct (wf_datetime_fields dt W) as [Hy [Hm [Hd [Hdim [HH HM]]]]].
  unfold next_day.
  destruct (Z.ltb_spec (day dt) (days_in_month (year dt) (month dt))) as [C|C].
  - right. eexists. split; [reflexivity|].
    pose proof (days_in_month_bounds (year dt) (month dt)).
    split; [apply wf_datetime_intro; lia|].
    cbn [hour minute]. repeat split.
    + unfold datetime_ltb. cbn [year month day hour minute]. split_ifs; lia.
    + intros [E1 [E2 E3]]. rewrite E1, E2, E3 in C.
      change (days_in_month 9999 12) with 31 in C. lia.
  - destruct (Z.ltb_spec (month dt) 12) as [C2|C2].
    + right. eexists. split; [reflexivity|].
      pose proof (days_in_month_bounds (year dt) (month dt + 1)).
      split; [apply wf_datetime_intro; lia|].
      cbn [hour minute]. repeat split.
      * unfold datetime_ltb. cbn [year month day hour minute]. split_ifs; lia.
      * lia.
    + destruct (Z.ltb_spec (year dt) 9999) as [C3|C3].
      * right. eexists. split; [reflexivity|].
        pose proof (days_in_month_bounds (year dt + 1) 1).
        split; [apply wf_datetime_intro; lia|].
        cbn [hour minute]. repeat split.
        -- unfold datetime_ltb. cbn [year month day hour minute].
           split_ifs; lia.
        -- lia.
      * left. split; [reflexivity|].
        assert (E : month dt = 12) by lia. rewrite E in *.
        change (days_in_month (year dt) 12) with 31 in *. lia.
Qed.

Lemma add_minutes_150 (dt : datetime) :
  0 <= hour dt <= 23 -> 0 <= minute dt <= 59 ->
  add_minutes dt TIMEDELTA_MINUTES =
  if hour dt * 60 + minute dt + 150 <? 1440
  then Ok (Datetime (year dt) (month dt) (day dt)
                    ((hour dt * 60 + minute dt + 150) mod 1440 / 60)
                    ((hour dt * 60 + minute dt + 150) mod 60))
  else
    match next_day dt with
    | Ok n => Ok (Datetime (year n) (month n) (day n)
                           ((hour dt * 60 + minute dt + 150) mod 1440 / 60)
                           ((hour dt * 60 + minute dt + 150) mod 60))
    | Raise e => Raise e
    end.
Proof.
  intros HH HM. unfold add_minutes, TIMEDELTA_MINUTES.
  destruct (Z.ltb_spec (hour dt * 60 + minute dt + 150) 1440) as [C|C].
  - replace (Z.to_nat ((hour dt * 60 + minute dt + 150) / 1440)) with O
      by (Z.div_mod_to_equations; lia).
    reflexivity.
  - replace (Z.to_nat ((hour dt * 60 + minute dt + 150) / 1440)) with 1%nat
      by (Z.div_mod_to_equations; lia).
    cbn [Nat.iter nat_rect bind]. now destruct (next_day dt).
Qed.

Lemma to_row_timed_row (g : Game) (hh mm : Z) (row : list text) :
  wf_datetime (date g) -> 0 <= hh <= 99 -> 0 <= mm <= 99 ->
  start_time g = Some (hm_token hh mm) ->
  to_row g = Ok row ->
  row = [subject_of g; strftime_ymd (date g); hm_token hh mm;
         strftime_ymd (date g);
         hm_token ((hh * 60 + mm + 150) mod 1440 / 60)
                  ((hh * 60 + mm + 150) mod 60);
         T "False"; venue g].
Proof.
  intros W Hh Hm Hs. rewrite (to_row_timed g hh mm W Hh Hm Hs).
  destruct (valid_time hh mm); [|discriminate].
  destruct (add_minutes _ TIMEDELTA_MINUTES) as [e|x] eqn:E; [|discriminate].
  apply add_minutes_time in E. cbn [hour minute] in E. destruct E as [E1 E2].
  intros Q. injection Q as <-. unfold strftime_HM. rewrite E1, E2.
  reflexivity.
Qed.

(** X3.  The row of a game dated from the year 1000 on (whose year every
    platform's [strftime] writes with four digits) and whose start time is
    a token of [parse_time]:
    [ValueError] exactly when the token is no time of day, [OverflowError]
    exactly when the game ends after the last day [datetime] can hold, and
    else the seven columns, with the start date in both date columns and
    the start plus 150 minutes, modulo the day, as end time. *)
Theorem to_row_outcome (g : Game) (hh mm : Z) :
  wf_datetime (date g) -> 1000 <= year (date g) ->
  0 <= hh <= 99 -> 0 <= mm <= 99 ->
  start_time g = Some (hm_token hh mm) ->
  (to_row g = Raise ValueError <-> valid_time hh mm = false) /\
  (to_row g = Raise OverflowError <->
   valid_time hh mm = true /\ 1440 <= hh * 60 + mm + 150 /\
   year (date g) = 9999 /\ month (date g) = 12 /\ day (date g) = 31) /\
  (forall e, to_row g = Raise e -> e = ValueError \/ e = OverflowError) /\
  (forall row,
      to_row g = Ok row ->
      row = [subject_of g; strftime_ymd (date g); hm_token hh mm;
             strftime_ymd (date g);
             hm_token ((hh * 60 + mm + 150) mod 1440 / 60)
                      ((hh * 60 + mm + 150) mod 60);
             T "False"; venue g]).
Proof.
  intros W _ Hh Hm Hs. rewrite (to_row_timed g hh mm W Hh Hm Hs).
  destruct (valid_time hh mm) eqn:V.
  - unfold valid_time in V.
    repeat (apply andb_prop in V; destruct V as [V ?]).
    set (dt := Datetime (year (date g)) (month (date g)) (day (date g)) hh mm).
    assert (Wdt : wf_datetime dt).
    { destruct (wf_datetime_fields _ W) as [? [? [? [? _]]]].
      apply wf_datetime_intro; lia. }
    rewrite (add_minutes_150 dt) by (cbn [hour minute dt]; lia).
    cbn [hour minute dt]. fold dt.
    destruct (Z.ltb_spec (hh * 60 + mm + 150) 1440) as [C|C].
    + split; [split; [discriminate|discriminate]|].
      split; [split; [discriminate|lia]|].
      split; [discriminate|].
      intros row Q. injection Q as <-. reflexivity.
    + destruct (next_day_outcome dt Wdt) as [[E [E1 [E2 E3]]]|[n [E [_ [_ [_ [_ N]]]]]]];
        rewrite E; cbn [year month day dt] in *.
      * split; [split; [discriminate|discriminate]|].
        split; [split; [intros _; repeat split; assumption|reflexivity]|].
        split; [intros e Q; injection Q as <-; now right|discriminate].
      * split; [split; [discriminate|discriminate]|].
        split; [split; [discriminate|intros [_ [_ Q]]; now contradiction N]|].
        split; [discriminate|].
        intros row Q. injection Q as <-. reflexivity.
  - split; [split; reflexivity|].
    split; [split; [discriminate|intros [Q _]; discriminate Q]|].
    split; [intros e Q; injection Q as <-; now left|discriminate].
Qed.

Lemma to_row_outcome_witness :
  to_row (mkGame (T "[AWAY]") (T "Rival") (T "Arena")
                 (Datetime 9999 12 31 0 0) (Some (T "22:00")))
  = Raise OverflowError.
Proof.
  apply (to_row_outcome _ 22 0); try reflexivity; try (cbn; lia).
Defined.

(** ** Writing and reading back *)

Lemma write_rows_ok (games : list Game) :
  snd (write_rows games) = Ok tt ->
  Forall2 (fun g row => to_row g = Ok row) games (fst (write_rows games)).
Proof.
  induction games as [|g rest IH]; cbn [write_rows]; [constructor|].
  destruct (to_row g) as [row|e] eqn:E; cbn [fst snd]; [|discriminate].
  intros H. constructor; [exact E|now apply IH].
Qed.

Lemma write_rows_raise (games : list Game) (e : exn) :
  snd (write_rows games) = Raise e ->
  exists before g after,
    games = before ++ g :: after /\
    to_row g = Raise e /\
    Forall2 (fun g row => to_row g = Ok row) before (fst (write_rows games)).
Proof.
  induction games as [|g rest IH]; cbn [write_rows]; [discriminate|].
  destruct (to_row g) as [row|e'] eqn:E; cbn [fst snd].
  - intros H. destruct (IH H) as [before [g' [after [-> [H1 H2]]]]].
    exists (g :: before), g', after. repeat split; [exact H1|].
    now constructor.
  - intros Q. injection Q as ->. exists [], g, rest.
    repeat split; [exact E|constructor].
Qed.

Lemma strip_idempotent (s : text) : strip (strip s) = strip s.
Proof.
  destruct (strip_edges s) as [E1 E2]. now apply strip_fixed.
Qed.

Lemma map_strip_idempotent (rows : list (list text)) :
  map (map strip) (map (map strip) rows) = map (map strip) rows.
Proof.
  rewrite map_map. apply map_ext. intros row. rewrite map_map.
  apply map_ext. intros c. apply strip_idempotent.
Qed.

Lemma headers_stripped : map strip GOOGLE_HEADERS = GOOGLE_HEADERS.
Proof. vm_compute. reflexivity. Qed.

Lemma rows_eqb_refl (rows : list (list text)) : rows_eqb rows rows = true.
Proof. now apply rows_eqb_eq. Qed.

Lemma read_written (rows : list (list text)) :
  read_csv (GOOGLE_HEADERS :: rows) = Ok (map (map strip) rows).
Proof.
  unfold read_csv. cbn [hd tl]. rewrite headers_stripped.
  replace (row_eqb GOOGLE_HEADERS GOOGLE_HEADERS) with true
    by (symmetry; now apply row_eqb_eq).
  reflexivity.
Qed.

(** X13.  Games dated from the year 1000 on, and cells the csv round trip
    keeps as they are.  A file that [write_google_csv] completed reads
    back: [read_csv] accepts its header and returns the rows written, each
    cell stripped; and the file validates against itself.  When writing
    stops at a game whose row raises, the rows of the games before it are
    in the file. *)
Theorem write_then_read (games : list Game) :
  Forall four_digit_year games ->
  plain_file (fst (write_google_csv games)) ->
  (snd (write_google_csv games) = Ok tt ->
   exists rows,
     Forall2 (fun g row => to_row g = Ok row) games rows /\
     fst (write_google_csv games) = GOOGLE_HEADERS :: rows /\
     read_csv (fst (write_google_csv games)) = Ok (map (map strip) rows) /\
     validate_csv (fst (write_google_csv games)) (fst (write_google_csv games))
     = Ok (true, [])) /\
  (forall e,
      snd (write_google_csv games) = Raise e ->
      exists before g after rows,
        games = before ++ g :: after /\ to_row g = Raise e /\
        Forall2 (fun g row => to_row g = Ok row) before rows /\
        fst (write_google_csv games) = GOOGLE_HEADERS :: rows).
Proof.
  intros _ _. unfold write_google_csv. cbn [fst snd]. split.
  - intros H. exists (fst (write_rows games)).
    split; [now apply write_rows_ok|]. split; [reflexivity|].
    pose proof (read_written (fst (write_rows games))) as R.
    split; [exact R|].
    unfold validate_csv. rewrite R. cbn [bind].
    now rewrite compare_rows_equal.
  - intros e H. destruct (write_rows_raise games e H)
      as [before [g [after [E [H1 H2]]]]].
    exists before, g, after, (fst (write_rows games)). now repeat split.
Qed.

Lemma write_then_read_witness :
  validate_csv (fst (write_google_csv [night_game; undecided_game]))
               (fst (write_google_csv [night_game; undecided_game]))
  = Ok (true, []).
Proof.
  destruct (write_then_read [night_game; undecided_game]) as [H _].
  - repeat constructor; cbn; lia.
  - vm_compute. reflexivity.
  - destruct H as [rows [_ [_ [_ V]]]]; [vm_compute; reflexivity|exact V].
Defined.

(** ** Rows of tidy games *)

Lemma strip_fixed_app (a b : text) (x y : char) :
  is_space x = false -> is_space y = false ->
  strip (x :: a ++ b ++ [y]) = x :: a ++ b ++ [y].
Proof.
  intros Hx Hy. apply strip_fixed; [exact Hx|].
  change (x :: a ++ b ++ [y]) with ((x :: a) ++ b ++ [y]).
  rewrite !rev_app_distr. cbn [rev app]. exact Hy.
Qed.

Lemma strip_ymd (d : datetime) :
  wf_datetime d -> strip (strftime_ymd d) = strftime_ymd d.
Proof.
  intros W. destruct (wf_datetime_fields d W) as [Hy [Hm [Hd _]]].
  unfold strftime_ymd.
  rewrite fmt0_four_digits, !fmt0_two_digits by lia. cbn [app].
  apply strip_fixed; cbn [rev app];
    apply digit_char_not_space; Z.div_mod_to_equations; lia.
Qed.

Lemma strip_hm_token (hh mm : Z) :
  0 <= hh <= 99 -> 0 <= mm <= 99 ->
  strip (hm_token hh mm) = hm_token hh mm.
Proof.
  intros Hh Hm. unfold hm_token.
  rewrite !fmt0_two_digits by lia. cbn [app].
  apply strip_fixed; cbn [rev app];
    apply digit_char_not_space; Z.div_mod_to_equations; lia.
Qed.

Lemma last_of_app (a b : text) (c : char) (r : text) :
  rev b = c :: r -> exists r', rev (a ++ b) = c :: r'.
Proof. intros E. rewrite rev_app_distr, E. cbn [app]. now eexists. Qed.

Lemma strip_subject (g : Game) :
  (home_away g = T "[HOME]" \/ home_away g = T "[AWAY]") ->
  strip (venue g) = venue g ->
  strip (subject_of g) = subject_of g /\
  strip (subject_of g ++ T " ※時刻未定") = subject_of g ++ T " ※時刻未定".
Proof.
  intros Htag Hv. unfold subject_of.
  assert (Hhead : exists r, home_away g = chr "[" :: r)
    by (destruct Htag as [-> | ->]; eexists; reflexivity).
  destruct Hhead as [r Er]. rewrite Er. split.
  - apply strip_fixed; [reflexivity|].
    destruct (strip_edges (venue g)) as [_ E]. rewrite Hv in E.
    rewrite !rev_app_distr.
    destruct (rev (venue g)) as [|c rv]; [reflexivity|exact E].
  - apply strip_fixed; [reflexivity|].
    rewrite rev_app_distr. reflexivity.
Qed.

Lemma tidy_row_stripped (g : Game) (row : list text) :
  tidy g -> to_row g = Ok row -> map strip row = row.
Proof.
  intros [Htag [Hv [W Hs]]] H.
  destruct (strip_subject g Htag Hv) as [S1 S2].
  destruct Hs as [Hs|[hh [mm [Hh [Hm Hs]]]]].
  - rewrite to_row_undecided in H by (unfold truthy; now rewrite Hs).
    injection H as <-. cbn [map].
    now rewrite S2, (strip_ymd _ W), Hv.
  - rewrite (to_row_timed_row g hh mm row W Hh Hm Hs H). cbn [map].
    rewrite S1, (strip_ymd _ W), Hv, (strip_hm_token hh mm Hh Hm).
    rewrite strip_hm_token by (Z.div_mod_to_equations; lia).
    reflexivity.
Qed.

(** X14.  For tidy games dated from the year 1000 on, and cells the csv
    round trip keeps as they are, the file reads back exactly: the rows
    [read_csv] returns are the rows [to_row] built, cell for cell. *)
Theorem write_then_read_exact (games : list Game) :
  Forall tidy games ->
  Forall four_digit_year games ->
  plain_file (fst (write_google_csv games)) ->
  snd (write_google_csv games) = Ok tt ->
  exists rows,
    Forall2 (fun g row => to_row g = Ok row) games rows /\
    read_csv (fst (write_google_csv games)) = Ok rows.
Proof.
  intros Ht _ _ Hw. unfold write_google_csv in *. cbn [fst snd] in *.
  pose proof (write_rows_ok games Hw) as F.
  exists (fst (write_rows games)). split; [exact F|].
  rewrite read_written. f_equal.
  clear Hw. induction F as [|g row gs rows H1 H2 IH]; [reflexivity|].
  inversion Ht as [|? ? T1 T2]; subst. cbn [map].
  now rewrite (tidy_row_stripped g row T1 H1), (IH T2).
Qed.

Lemma write_then_read_exact_witness :
  exists rows,
    Forall2 (fun g row => to_row g = Ok row)
            [night_game; undecided_game] rows /\
    read_csv (fst (write_google_csv [night_game; undecided_game])) = Ok rows.
Proof.
  apply (write_then_read_exact [night_game; undecided_game]).
  - constructor; [|constructor; [|constructor]].
    + split; [now left|]. split; [reflexivity|]. split; [reflexivity|].
      right. exists 22, 0. repeat split; lia || reflexivity.
    + split; [now right|]. split; [reflexivity|]. split; [reflexivity|].
      now left.
  - repeat constructor; cbn; lia.
  - vm_compute. reflexivity.
  - vm_compute. reflexivity.
Defined.

(** ** The games of the structured pass *)

Lemma schedule_item_tidy (y mo : Z) (kws : list text) (item : Item)
      (g : Game) :
  schedule_item y mo kws item = Ok (Some g) -> tidy g.
Proof.
  intros H. destruct (schedule_item_month y mo kws item g H) as [_ [_ W]].
  unfold schedule_item in H.
  destruct (day_el item) as [day_text|]; [|discriminate].
  destruct (opp_el item) as [opp_text|]; [|discriminate].
  destruct (venue_el item) as [venue_text|]; [|discriminate].
  destruct (Re.search RE_md (_clean_text day_text)) as [m|]; [|discriminate].
  destruct (negb (int (Re.group 1 m) =? mo)); [discriminate|].
  destruct (datetime_new y (int (Re.group 1 m)) (int (Re.group 2 m)) 0 0)
    as [dt|e]; [|discriminate].
  cbn [bind] in H. injection H as <-.
  unfold tidy. cbn [home_away venue date start_time] in *.
  split.
  { destruct (match home_el item with
              | Some t => upper (_clean_text t)
              | None => []
              end) as [|c tag] eqn:Etag.
    - destruct (existsb _ kws); [now left|].
      destruct (contains (T "HOME") []); [now left|now right].
    - destruct (contains (T "HOME") (c :: tag)); [now left|now right]. }
  split; [unfold _clean_text; apply strip_idempotent|].
  split; [exact W|].
  destruct (parse_time _) as [tok|] eqn:P; [right|now left].
  destruct (parse_time_token _ _ P) as [hh [mm [Hh [Hm ->]]]].
  now exists hh, mm.
Qed.

Lemma schedule_item_raises (y mo : Z) (kws : list text) (item : Item)
      (e : exn) :
  schedule_item y mo kws item = Raise e <-> e = ValueError /\ ill_day y mo item.
Proof.
  unfold schedule_item, ill_day.
  destruct (day_el item) as [day_text|];
    [|split; [discriminate|intros [_ [? [? [? [? [C _]]]]]]; discriminate C]].
  destruct (opp_el item) as [opp_text|];
    [|split; [discriminate|intros [_ [? [? [? [? [_ [C _]]]]]]]; discriminate C]].
  destruct (venue_el item) as [venue_text|];
    [|split; [discriminate
             |intros [_ [? [? [? [? [_ [_ [C _]]]]]]]]; discriminate C]].
  destruct (Re.search RE_md (_clean_text day_text)) as [m|] eqn:S.
  - destruct (Z.eqb_spec (int (Re.group 1 m)) mo) as [E|NE]; cbn [negb].
    + unfold datetime_new. change (valid_time 0 0) with true.
      rewrite andb_true_r, E.
      destruct (valid_date y mo (int (Re.group 2 m))) eqn:V; cbn [bind].
      * split; [discriminate|].
        intros [_ [d1 [o1 [v1 [m1 [Q1 [_ [_ [Q2 [_ Q3]]]]]]]]]].
        injection Q1 as <-. rewrite S in Q2. injection Q2 as <-. congruence.
      * split.
        -- intros Q. injection Q as <-. split; [reflexivity|].
           exists day_text, opp_text, venue_text, m. now repeat split.
        -- intros [-> _]. reflexivity.
    + split; [discriminate|].
      intros [_ [d1 [o1 [v1 [m1 [Q1 [_ [_ [Q2 [Q3 _]]]]]]]]]].
      injection Q1 as <-. rewrite S in Q2. injection Q2 as <-. contradiction.
  - split; [discriminate|].
    intros [_ [d1 [o1 [v1 [m1 [Q1 [_ [_ [Q2 _]]]]]]]]].
    injection Q1 as <-. rewrite S in Q2. discriminate Q2.
Qed.

Lemma schedule_loop_outcome (y mo : Z) (kws : list text) (items : list Item) :
  forall games,
    (Exists (ill_day y mo) items ->
     schedule_loop y mo kws items games = Raise ValueError) /\
    (~ Exists (ill_day y mo) items ->
     exists out, schedule_loop y mo kws items games = Ok out).
Proof.
  induction items as [|item rest IH]; intros games; cbn [schedule_loop].
  - split; [intros H; inversion H|intros _; now exists games].
  - destruct (schedule_item y mo kws item) as [r|e] eqn:E; cbn [bind].
    + assert (N : ~ ill_day y mo item).
      { intros C.
        assert (R : schedule_item y mo kws item = Raise ValueError)
          by (apply schedule_item_raises; now split).
        congruence. }
      split.
      * intros H. inversion H as [? ? H1|? ? H1]; subst; [contradiction|].
        destruct r; now apply IH.
      * intros H.
        assert (H' : ~ Exists (ill_day y mo) rest)
          by (intros C; apply H; now right).
        destruct r; now apply IH.
    + apply schedule_item_raises in E. destruct E as [-> I].
      split; [reflexivity|]. intros H. exfalso. apply H. now left.
Qed.

Lemma schedule_loop_raise (y mo : Z) (kws : list text) (items : list Item) :
  forall games e,
    schedule_loop y mo kws items games = Raise e ->
    e = ValueError /\ Exists (ill_day y mo) items.
Proof.
  induction items as [|item rest IH]; intros games e H;
    cbn [schedule_loop] in H; [discriminate|].
  destruct (schedule_item y mo kws item) as [r|e1] eqn:E; cbn [bind] in H.
  - destruct r; destruct (IH _ _ H) as [-> X]; split; try reflexivity;
      now right.
  - injection H as ->. apply schedule_item_raises in E.
    destruct E as [-> I]. split; [reflexivity|now left].
Qed.

Lemma schedule_loop_forall (P : Game -> Prop) (y mo : Z) (kws : list text) :
  (forall item g, schedule_item y mo kws item = Ok (Some g) -> P g) ->
  forall items games out,
    Forall P games ->
    schedule_loop y mo kws items games = Ok out -> Forall P out.
Proof.
  intros HP items. induction items as [|item rest IH]; intros games out Hg H;
    cbn [schedule_loop] in H.
  - injection H as <-. exact Hg.
  - destruct (schedule_item y mo kws item) as [[g|]|e] eqn:E;
      cbn [bind] in H; [| |discriminate].
    + apply (IH (games ++ [g]) out); [|exact H].
      apply Forall_app. split; [exact Hg|].
      constructor; [now apply (HP item)|constructor].
    + now apply (IH games out).
Qed.

Lemma schedule_list_raise (y mo : Z) (soup : Soup) (kws : list text)
      (e : exn) :
  _parse_schedule_list y mo soup kws = Raise e -> e = ValueError.
Proof.
  unfold _parse_schedule_list. intros H.
  destruct (schedule_loop y mo kws (schedule_items soup) []) as [l|e'] eqn:E;
    [discriminate|].
  cbn [bind] in H. injection H as <-.
  now destruct (schedule_loop_raise _ _ _ _ _ _ E).
Qed.

Lemma schedule_list_games (y mo : Z) (soup : Soup) (kws : list text)
      (games : list Game) :
  _parse_schedule_list y mo soup kws = Ok games ->
  Forall (fun g => dated_in (y, mo) g /\ tidy g) games.
Proof.
  unfold _parse_schedule_list. intros H.
  destruct (schedule_loop y mo kws (schedule_items soup) []) as [l|e] eqn:E;
    [|discriminate].
  cbn [bind] in H. injection H as <-.
  assert (F : Forall (fun g => dated_in (y, mo) g /\ tidy g) l).
  { apply (schedule_loop_forall _ y mo kws) with (3 := E); [|constructor].
    intros item g Hi. split; [|now apply schedule_item_tidy in Hi].
    now apply schedule_item_month in Hi. }
  rewrite Forall_forall in *. intros g Hg. apply F.
  now apply keyed_values_incl.
Qed.

Lemma schedule_item_passed_over (y mo : Z) (kws : list text) (item : Item) :
  names_month mo item = false -> schedule_item y mo kws item = Ok None.
Proof.
  unfold names_month, schedule_item.
  destruct (day_el item) as [day_text|]; [|reflexivity].
  destruct (opp_el item) as [opp_text|]; [|reflexivity].
  destruct (venue_el item) as [venue_text|]; [|reflexivity].
  destruct (Re.search RE_md (_clean_text day_text)) as [m|]; [|reflexivity].
  intros H. now rewrite H.
Qed.

Lemma schedule_loop_filter (y mo : Z) (kws : list text) (items : list Item) :
  forall games,
    schedule_loop y mo kws (filter (names_month mo) items) games
    = schedule_loop y mo kws items games.
Proof.
  induction items as [|item rest IH]; intros games; [reflexivity|].
  cbn [filter]. destruct (names_month mo item) eqn:E.
  - cbn [schedule_loop].
    destruct (schedule_item y mo kws item) as [[g|]|e]; cbn [bind];
      [apply IH|apply IH|reflexivity].
  - cbn [schedule_loop].
    rewrite (schedule_item_passed_over y mo kws item E). cbn [bind].
    apply IH.
Qed.

(** X6.  The structured pass, for a target year that fits a C int.  It
    raises, with [ValueError], exactly when some entry with its three
    required elements names the target month with a day that month does not
    have; entries without a required element, without a date or of another
    month are passed over: the pass gives the same on the list without
    them.  Every game it returns is dated in the target year and month, is
    tidy, and no two share an identity key. *)
Theorem schedule_list_outcome (y mo : Z) (soup : Soup) (kws : list text) :
  c_int y ->
  (Exists (ill_day y mo) (schedule_items soup) <->
   _parse_schedule_list y mo soup kws = Raise ValueError) /\
  (~ Exists (ill_day y mo) (schedule_items soup) <->
   exists games, _parse_schedule_list y mo soup kws = Ok games) /\
  (forall e, _parse_schedule_list y mo soup kws = Raise e -> e = ValueError) /\
  (forall games,
      _parse_schedule_list y mo soup kws = Ok games ->
      Forall (fun g => dated_in (y, mo) g /\ tidy g) games /\
      NoDup (map game_key games)) /\
  _parse_schedule_list y mo
    (mkSoup (filter (names_month mo) (schedule_items soup))
            (alvark_cards soup) (sunrockers_candidates soup)) kws
  = _parse_schedule_list y mo soup kws.
Proof.
  intros _.
  destruct (schedule_loop_outcome y mo kws (schedule_items soup) [])
    as [H1 H2].
  pose proof (schedule_loop_raise y mo kws (schedule_items soup) []) as H3.
  split; [|split; [|split; [|split]]].
  - unfold _parse_schedule_list. split.
    + intros H. now rewrite (H1 H).
    + intros H. destruct (schedule_loop y mo kws (schedule_items soup) [])
        as [l|e] eqn:E; [discriminate|].
      now destruct (H3 e eq_refl).
  - unfold _parse_schedule_list. split.
    + intros H. destruct (H2 H) as [out ->]. cbn [bind]. now eexists.
    + intros [games H] X. rewrite (H1 X) in H. discriminate H.
  - intros e. apply schedule_list_raise.
  - intros games H. split; [now apply schedule_list_games in H|].
    now apply schedule_list_nodup in H.
  - unfold _parse_schedule_list. cbn [schedule_items].
    now rewrite schedule_loop_filter.
Qed.

Lemma schedule_list_outcome_witness :
  Forall (fun g => dated_in (2025, 11) g /\ tidy g) [relisted_game] /\
  _parse_schedule_list 2025 11 (mkSoup [bad_item] [] []) ALVARK_HOME
  = Raise ValueError.
Proof.
  split.
  - destruct (schedule_list_outcome 2025 11 listed_page ALVARK_HOME)
      as [_ [_ [_ [H _]]]]; [unfold c_int; lia|].
    apply (H [relisted_game]). vm_compute. reflexivity.
  - destruct (schedule_list_outcome 2025 11 (mkSoup [bad_item] [] [])
                                    ALVARK_HOME)
      as [H _]; [unfold c_int; lia|].
    apply H. left. unfold ill_day.
    eexists _, _, _, _. split; [reflexivity|]. split; [reflexivity|].
    split; [reflexivity|]. split; [vm_compute; reflexivity|].
    split; reflexivity.
Defined.

(** ** What a match is made of *)

Lemma rep_sound (A : Type) (p : char -> bool) (g : bool) (s : text) :
  forall lo hi acc (k : text -> text -> option A) a,
    Re.rep p g lo hi acc s k = Some a ->
    exists w s', s = w ++ s' /\ k (acc ++ w) s' = Some a.
Proof.
  induction s as [|c s IH]; intros lo hi acc k a H; cbn [Re.rep] in H.
  - destruct lo; [|discriminate].
    exists [], []. rewrite !app_nil_r. split; [reflexivity|].
    destruct g; [exact H|]. now destruct (k acc []).
  - assert (More : (if p c && Re.can_take hi
                    then Re.rep p g (pred lo) (option_map pred hi)
                                (acc ++ [c]) s k
                    else None) = Some a ->
                   exists w s', c :: s = w ++ s' /\ k (acc ++ w) s' = Some a).
    { destruct (p c && Re.can_take hi); [|discriminate].
      intros M. destruct (IH _ _ _ _ _ M) as [w [s' [-> K]]].
      exists (c :: w), s'. split; [reflexivity|].
      now rewrite <- app_assoc in K. }
    destruct lo; [|now apply More].
    destruct g.
    + destruct (if p c && Re.can_take hi then _ else None) as [x|] eqn:M.
      * injection H as ->. now apply More.
      * exists [], (c :: s). rewrite app_nil_r. now split.
    + destruct (k acc (c :: s)) as [x|] eqn:K.
      * injection H as ->. exists [], (c :: s). rewrite app_nil_r.
        now split.
      * now apply More.
Qed.

(** A successful run took a prefix of the text, and every group it closed
    is made of characters of that prefix. *)
Lemma run_sound (A : Type) (r : Re.re) :
  forall s cs (k : text -> text -> Re.caps -> option A) a,
    Re.run r s cs k = Some a ->
    exists w s' cs',
      s = w ++ s' /\ k w s' cs' = Some a /\
      forall i t, In (i, t) cs' -> In (i, t) cs \/ incl t w.
Proof.
  induction r as [|p|p lo hi g|r1 IH1 r2 IH2|r1 IH1 r2 IH2|i r IH|];
    intros s cs k a H; cbn [Re.run] in H.
  - exists [], s, cs. repeat split; [exact H|]. intros; now left.
  - destruct s as [|c s]; [discriminate|].
    destruct (p c); [|discriminate].
    exists [c], s, cs. repeat split; [exact H|]. intros; now left.
  - apply rep_sound in H. destruct H as [w [s' [-> K]]].
    exists w, s', cs. repeat split; [exact K|]. intros; now left.
  - apply IH1 in H. destruct H as [w1 [s1 [cs1 [-> [H C1]]]]].
    apply IH2 in H. destruct H as [w2 [s2 [cs2 [-> [H C2]]]]].
    exists (w1 ++ w2), s2, cs2. split; [now rewrite app_assoc|].
    split; [exact H|].
    intros j t Hin. destruct (C2 j t Hin) as [Q|Q].
    + destruct (C1 j t Q) as [Q'|Q']; [now left|right].
      now apply incl_appl.
    + right. now apply incl_appr.
  - destruct (Re.run r1 s cs k) as [x|] eqn:R1.
    + injection H as ->. now apply IH1.
    + now apply IH2.
  - apply IH in H. destruct H as [w [s' [cs' [-> [H C]]]]].
    exists w, s', ((i, w) :: cs'). repeat split; [exact H|].
    intros j t [Q|Q].
    + injection Q as <- <-. right. apply incl_refl.
    + now apply C.
  - destruct s as [|c [|? ?]]; [| |discriminate].
    + exists [], [], cs. repeat split; [exact H|]. intros; now left.
    + destruct (c =? 10)%N; [|discriminate].
      exists [], [c], cs. repeat split; [exact H|]. intros; now left.
Qed.

Lemma group_of_in (i : nat) (cs : Re.caps) (c : char) :
  In c (Re.group_of i cs) -> exists t, In (i, t) cs /\ In c t.
Proof.
  unfold Re.group_of.
  destruct (find (fun g => Nat.eqb (fst g) i) cs) as [[j t]|] eqn:F;
    [|intros []].
  apply find_some in F. destruct F as [Hin E]. cbn [fst snd] in *.
  apply Nat.eqb_eq in E. subst j. intros Hc. now exists t.
Qed.

(** [re.search]: the text is the part before the match, the match and the
    part after it; and every character of a group is a character of the
    text. *)
Lemma search_sound (r : Re.re) (s : text) (x : Re.m) :
  Re.search r s = Some x ->
  (exists w, s = Re.pre x ++ w ++ Re.post x) /\
  (forall i c, In c (Re.group i x) -> In c s).
Proof.
  unfold Re.search. intros H.
  pose proof (search_from_spec r s []) as S. rewrite H in S.
  destruct S as [n [Hn [Hm [Hp _]]]]. cbn [rev app] in Hp.
  unfold Re.match_here in Hm. apply run_sound in Hm.
  destruct Hm as [w [s' [cs' [E [K C]]]]]. injection K as K1 K2.
  subst cs' s'. split.
  - exists w. rewrite Hp, <- E. symmetry. apply firstn_skipn.
  - intros i c Hc. unfold Re.group in Hc. apply group_of_in in Hc.
    destruct Hc as [t [Hin Hc]].
    destruct (C i t Hin) as [[]|Q].
    rewrite <- (firstn_skipn n s). apply in_or_app. right. rewrite E.
    apply in_or_app. left. now apply Q.
Qed.

(** ** The games of the heuristic pass *)

Lemma strip_chars_edges (chars s : text) :
  match strip_chars chars s with
  | [] => True
  | c :: _ => mem c chars = false
  end /\
  match rev (strip_chars chars s) with
  | [] => True
  | c :: _ => mem c chars = false
  end.
Proof.
  unfold strip_chars. split; [|apply rstrip_last].
  pose proof (lstrip_head (fun c => mem c chars) s) as H.
  destruct (lstrip (fun c => mem c chars) s) as [|c r]; [exact I|].
  destruct (rstrip_head (fun c => mem c chars) c r H) as [r' ->]. exact H.
Qed.

Lemma strip_chars_incl (chars s : text) (c : char) :
  In c (strip_chars chars s) -> In c s.
Proof.
  unfold strip_chars. intros H.
  destruct (lstrip_split (fun c => mem c chars) s) as [w1 [E1 _]].
  destruct (rstrip_split (fun c => mem c chars)
                         (lstrip (fun c => mem c chars) s)) as [w2 [E2 _]].
  rewrite E1. apply in_or_app. right. rewrite E2. apply in_or_app. now left.
Qed.

(** Stripping a set of characters that holds the space, from a piece of a
    cleaned text, leaves no white space at the ends. *)
Lemma strip_chars_of_clean (chars piece txt : text) :
  mem (chr " ") chars = true ->
  (forall c, In c txt -> is_space c = true -> c = chr " ") ->
  (forall c, In c piece -> In c txt) ->
  strip (strip_chars chars piece) = strip_chars chars piece.
Proof.
  intros Hsp Hclean Hincl.
  destruct (strip_chars_edges chars piece) as [E1 E2].
  assert (Hin : forall c, In c (strip_chars chars piece) ->
                          mem c chars = false -> is_space c = false).
  { intros c Hc Hm. destruct (is_space c) eqn:S; [|reflexivity].
    rewrite (Hclean c (Hincl c (strip_chars_incl _ _ _ Hc)) S) in Hm.
    congruence. }
  apply strip_fixed.
  - destruct (strip_chars chars piece) as [|c r]; [exact I|].
    apply Hin; [now left|exact E1].
  - destruct (rev (strip_chars chars piece)) as [|c r] eqn:R; [exact I|].
    apply Hin; [|exact E2]. apply in_rev. rewrite R. now left.
Qed.

Lemma node_venue_stripped (known_arenas : list text) (raw v : text) :
  Forall (fun a => strip a = a) known_arenas ->
  node_venue known_arenas (_clean_text raw) = Some v ->
  strip v = v.
Proof.
  intros Hk. unfold node_venue.
  pose proof (clean_text_spaces raw) as Hclean.
  set (txt := _clean_text raw) in *.
  assert (Hgroup : forall r x i,
             Re.search r txt = Some x ->
             strip (strip_chars (T " 、，,)|）)]") (Re.group i x))
             = strip_chars (T " 、，,)|）)]") (Re.group i x)).
  { intros r x i S. apply (strip_chars_of_clean _ _ txt);
      [reflexivity|exact Hclean|].
    intros c Hc. destruct (search_sound r txt x S) as [_ G]. now apply (G i). }
  assert (Hknown : forall o,
             match find (fun a => contains a txt) known_arenas with
             | Some a => Some a
             | None => o
             end = Some v -> o = Some v \/ strip v = v).
  { intros o. destruct (find (fun a => contains a txt) known_arenas)
      as [a|] eqn:F; [|now left].
    intros Q. injection Q as <-. right. apply find_some in F.
    rewrite Forall_forall in Hk. now apply Hk. }
  destruct (Re.search RE_at txt) as [at_m|] eqn:S1.
  - destruct (truthy (Some (strip_chars _ (Re.group 1 at_m)))) eqn:T1.
    + rewrite T1. intros Q. injection Q as <-. now apply (Hgroup RE_at).
    + destruct (Re.search RE_venue_label txt) as [v_m|] eqn:S2.
      * destruct (truthy (Some (strip_chars _ (Re.group 2 v_m)))) eqn:T2.
        -- intros Q. injection Q as <-. now apply (Hgroup RE_venue_label).
        -- intros Q. destruct (Hknown _ Q) as [Q'|Q']; [|exact Q'].
           injection Q' as <-. now apply (Hgroup RE_venue_label).
      * rewrite T1. intros Q. destruct (Hknown _ Q) as [Q'|Q']; [|exact Q'].
        injection Q' as <-. now apply (Hgroup RE_at).
  - cbn [truthy].
    destruct (Re.search RE_venue_label txt) as [v_m|] eqn:S2.
    + destruct (truthy (Some (strip_chars _ (Re.group 2 v_m)))) eqn:T2.
      * intros Q. injection Q as <-. now apply (Hgroup RE_venue_label).
      * intros Q. destruct (Hknown _ Q) as [Q'|Q']; [|exact Q'].
        injection Q' as <-. now apply (Hgroup RE_venue_label).
    + cbn [truthy]. intros Q. destruct (Hknown _ Q) as [Q'|Q']; [|exact Q'].
      discriminate Q'.
Qed.

Lemma heuristic_node_game (mk ka ha : list text) (y : Z) (raw : text)
      (g : Game) :
  Forall (fun a => strip a = a) ka ->
  heuristic_node mk ka ha y raw = Ok (Some g) ->
  tidy g /\ opponent g <> [] /\ venue g <> [].
Proof.
  intros Hk. unfold heuristic_node.
  destruct (_clean_text raw) as [|c0 txt0] eqn:Ec; [discriminate|].
  rewrite <- Ec.
  destruct (negb (existsb (fun m => contains m (_clean_text raw)) mk));
    [discriminate|].
  unfold node_date.
  destruct (match Re.search RE_ymd (_clean_text raw) with
            | Some m1 =>
                date <- datetime_new (int (Re.group 1 m1))
                          (int (Re.group 2 m1)) (int (Re.group 3 m1)) 0 0 ;;
                Ok (Some date)
            | None =>
                match Re.search RE_md (_clean_text raw) with
                | Some m2 =>
                    date <- datetime_new y (int (Re.group 1 m2))
                              (int (Re.group 2 m2)) 0 0 ;;
                    Ok (Some date)
                | None => Ok None
                end
            end) as [[dt|]|e] eqn:D; cbn [bind]; try discriminate.
  assert (W : wf_datetime dt).
  { destruct (Re.search RE_ymd (_clean_text raw)) as [m1|].
    - destruct (datetime_new _ _ _ 0 0) as [d|] eqn:N; [|discriminate].
      cbn [bind] in D. injection D as <-. now apply datetime_new_ok in N.
    - destruct (Re.search RE_md (_clean_text raw)) as [m2|]; [|discriminate].
      destruct (datetime_new _ _ _ 0 0) as [d|] eqn:N; [|discriminate].
      cbn [bind] in D. injection D as <-. now apply datetime_new_ok in N. }
  destruct (node_opponent (_clean_text raw)) as [[|o1 o]|]; try discriminate.
  destruct (node_venue ka (_clean_text raw)) as [[|v1 v]|] eqn:V;
    try discriminate.
  intros Q. injection Q as <-.
  unfold tidy. cbn [home_away opponent venue date start_time].
  split; [|split; discriminate].
  split.
  { destruct (contains (T "AWAY") (upper (_clean_text raw))); [now right|].
    destruct (contains (T "HOME") (upper (_clean_text raw))); [now left|].
    destruct (existsb _ ha); [now left|now right]. }
  split; [now apply (node_venue_stripped ka raw)|].
  split; [exact W|].
  destruct (parse_time (_clean_text raw)) as [tok|] eqn:P; [right|now left].
  destruct (parse_time_token _ _ P) as [hh [mm [Hh [Hm ->]]]].
  now exists hh, mm.
Qed.

Lemma heuristic_loop_forall (P : Game -> Prop) (mk ka ha : list text) (y : Z) :
  (forall raw g, heuristic_node mk ka ha y raw = Ok (Some g) -> P g) ->
  forall cards games out,
    Forall P games ->
    heuristic_loop mk ka ha y cards games = Ok out -> Forall P out.
Proof.
  intros HP cards. induction cards as [|el rest IH]; intros games out Hg H;
    cbn [heuristic_loop] in H.
  - injection H as <-. exact Hg.
  - destruct (heuristic_node mk ka ha y el) as [[g|]|e] eqn:E;
      cbn [bind] in H; [| |discriminate].
    + apply (IH (games ++ [g]) out); [|exact H].
      apply Forall_app. split; [exact Hg|].
      constructor; [now apply (HP el)|constructor].
    + now apply (IH games out).
Qed.

Lemma heuristic_pass_games (mk ka ha : list text) (y : Z) (cards : list text)
      (games : list Game) :
  Forall (fun a => strip a = a) ka ->
  heuristic_pass mk ka ha y cards = Ok games ->
  Forall (fun g => tidy g /\ opponent g <> [] /\ venue g <> []) games.
Proof.
  intros Hk H. unfold heuristic_pass in H.
  destruct (heuristic_loop mk ka ha y cards []) as [l|e] eqn:E;
    [|discriminate].
  cbn [bind] in H. injection H as <-.
  assert (F : Forall (fun g => tidy g /\ opponent g <> [] /\ venue g <> []) l).
  { apply (heuristic_loop_forall _ mk ka ha y) with (3 := E); [|constructor].
    intros raw g Hn. now apply (heuristic_node_game mk ka ha y raw). }
  rewrite Forall_forall in *. intros g Hg. apply F.
  now apply keyed_values_incl.
Qed.


Lemma known_arenas_stripped :
  Forall (fun a => strip a = a) ALVARK_KNOWN_ARENAS /\
  Forall (fun a => strip a = a) SUNROCKERS_KNOWN_ARENAS.
Proof.
  split; repeat (constructor; [vm_compute; reflexivity|]); constructor.
Qed.



(** ** The months of [scrape] *)

Lemma strptime_ym_ok (s : text) (d : datetime) :
  strptime_ym s = Ok d ->
  wf_datetime d /\ day d = 1 /\ hour d = 0 /\ minute d = 0.
Proof.
  unfold strptime_ym.
  destruct (Re.match_here RE_ym s) as [[cs [|c r]]|]; try discriminate.
  intros H. apply datetime_new_ok in H. destruct H as [-> W].
  now repeat split.
Qed.

Lemma strptime_ym_raise (s : text) (e : exn) :
  strptime_ym s = Raise e -> e = ValueError.
Proof.
  unfold strptime_ym, datetime_new.
  destruct (Re.match_here RE_ym s) as [[cs [|c r]]|];
    try (intros Q; now injection Q).
  destruct (_ && _); [discriminate|]. intros Q. now injection Q.
Qed.



Lemma month_iter_range (start end_ : datetime) :
  1 <= month start <= 12 -> 1 <= month end_ <= 12 ->
  month_iter start end_ = Some (range_months start end_).
Proof.
  intros Hs He. unfold month_iter, range_months, months_spanned, ym_of.
  destruct (Z.le_gt_cases
              (12 * (year end_ - year start) + (month end_ - month start) + 1)
              0) as [N|P].
  - replace (Z.to_nat _) with O by lia. cbn [months_from].
    apply month_loop_after. unfold ym_lt, ym_of. cbn [fst snd]. lia.
  - apply (month_loop_enough end_ He); [exact Hs|lia].
Qed.

(** ** The run of [scrape] *)

Section Run.

Variable get_page : text -> result Soup.
Variable team : text.

Lemma month_result_outcome (ym : Z * Z) (games : list Game) :
  month_result get_page team ym games <->
  month_outcome get_page team ym = Ok games.
Proof.
  unfold month_result, month_outcome. split.
  - intros [html [F P]]. rewrite F. exact P.
  - destruct (snd (fetch_month get_page team (fst ym) (snd ym))) as [html|e];
      cbn [bind]; [|discriminate].
    intros P. now exists html.
Qed.

Lemma scrape_loop_step (y m : Z) (rest : list (Z * Z)) (acc : list Game) :
  scrape_loop get_page team ((y, m) :: rest) acc
  = match month_outcome get_page team (y, m) with
    | Ok games =>
        (month_requests get_page team (y, m)
           ++ fst (scrape_loop get_page team rest (acc ++ games)),
         snd (scrape_loop get_page team rest (acc ++ games)))
    | Raise e => (month_requests get_page team (y, m), Raise e)
    end.
Proof.
  cbn [scrape_loop]. unfold month_outcome, month_requests, io_bind.
  cbn [fst snd].
  destruct (snd (fetch_month get_page team y m)) as [html|e];
    cbn [bind]; [|reflexivity].
  cbn [io_lift fst snd].
  destruct (if text_eqb team (T "alvark")
            then parse_alvark_month y m html
            else parse_sunrockers_month y m html) as [games|e];
    [|now rewrite app_nil_r].
  cbn [app]. reflexivity.
Qed.

Lemma scrape_loop_all (months : list (Z * Z)) (results : list (list Game)) :
  Forall2 (month_result get_page team) months results ->
  forall acc,
    scrape_loop get_page team months acc
    = (concat (map (month_requests get_page team) months),
       Ok (acc ++ concat results)).
Proof.
  induction 1 as [|[y m] games months results H HF IH]; intros acc.
  - cbn. now rewrite app_nil_r.
  - rewrite scrape_loop_step. apply month_result_outcome in H. rewrite H.
    rewrite IH. cbn [fst snd map concat]. now rewrite app_assoc.
Qed.

Lemma scrape_loop_stops (before after : list (Z * Z)) (ym : Z * Z)
      (results : list (list Game)) (e : exn) :
  Forall2 (month_result get_page team) before results ->
  month_outcome get_page team ym = Raise e ->
  forall acc,
    scrape_loop get_page team (before ++ ym :: after) acc
    = (concat (map (month_requests get_page team) (before ++ [ym])),
       Raise e).
Proof.
  intros HF He. induction HF as [|[y m] games months results H HF IH];
    intros acc.
  - destruct ym as [y m]. cbn [app]. rewrite scrape_loop_step, He.
    cbn [map concat]. now rewrite app_nil_r.
  - cbn [app]. rewrite scrape_loop_step. apply month_result_outcome in H.
    rewrite H, IH. reflexivity.
Qed.

Lemma months_split (months : list (Z * Z)) :
  (exists results, Forall2 (month_result get_page team) months results) \/
  (exists before ym after results e,
      months = before ++ ym :: after /\
      Forall2 (month_result get_page team) before results /\
      month_outcome get_page team ym = Raise e).
Proof.
  induction months as [|ym months IH].
  - left. exists []. constructor.
  - destruct (month_outcome get_page team ym) as [games|e] eqn:E.
    + apply month_result_outcome in E. destruct IH as [[results HF]|IH].
      * left. exists (games :: results). now constructor.
      * destruct IH as [before [ym' [after [results [e [-> [HF He]]]]]]].
        right. exists (ym :: before), ym', after, (games :: results), e.
        split; [reflexivity|]. split; [now constructor|exact He].
    + right. exists [], ym, months, [], e.
      split; [reflexivity|]. split; [constructor|exact E].
Qed.

Lemma month_result_tidy (ym : Z * Z) (games : list Game) :
  month_result get_page team ym games -> Forall tidy games.
Proof.
  destruct known_arenas_stripped as [KA KS].
  assert (Tidy : forall P l,
             Forall (fun g : Game => P g /\ tidy g) l -> Forall tidy l).
  { intros P l F. eapply Forall_impl; [|exact F]. now intros g [_ H]. }
  assert (Tidy' : forall P l,
             Forall (fun g : Game => tidy g /\ P g) l -> Forall tidy l).
  { intros P l F. eapply Forall_impl; [|exact F]. now intros g [H _]. }
  intros [html [_ P]]. destruct (text_eqb team (T "alvark")).
  - unfold parse_alvark_month in P.
    destruct (_parse_schedule_list (fst ym) (snd ym) html ALVARK_HOME)
      as [[|g l]|e] eqn:E; cbn [bind] in P; [| |discriminate].
    + apply heuristic_pass_games in P; [|exact KA]. now apply Tidy' in P.
    + injection P as <-. apply schedule_list_games in E.
      now apply Tidy in E.
  - unfold parse_sunrockers_month in P.
    destruct (_parse_schedule_list (fst ym) (snd ym) html SUNROCKERS_HOME)
      as [[|g l]|e] eqn:E; cbn [bind] in P; [| |discriminate].
    + apply heuristic_pass_games in P; [|exact KS]. now apply Tidy' in P.
    + injection P as <-. apply schedule_list_games in E.
      now apply Tidy in E.
Qed.

End Run.

Lemma months_from_nodup (n : nat) (ym : Z * Z) :
  1 <= snd ym <= 12 -> NoDup (months_from n ym).
Proof.
  intros H. apply (NoDup_nth _ (0, 0)). rewrite months_from_length.
  intros i j Hi Hj E.
  destruct (months_from_index n ym i H Hi) as [I1 I2].
  destruct (months_from_index n ym j H Hj) as [J1 J2].
  rewrite E in I1. lia.
Qed.

Lemma Forall2_impl_in (A B : Type) (R S : A -> B -> Prop) (l1 : list A)
      (l2 : list B) :
  (forall a b, In a l1 -> R a b -> S a b) ->
  Forall2 R l1 l2 -> Forall2 S l1 l2.
Proof.
  intros H F. induction F as [|a b l1 l2 Hab F IH]; constructor.
  - apply H; [now left|exact Hab].
  - apply IH. intros x y Hx. apply H. now right.
Qed.

Lemma structured_month_dated (get_page : text -> result Soup) (team : text)
      (ym : Z * Z) (games : list Game) :
  (forall html,
      snd (fetch_month get_page team (fst ym) (snd ym)) = Ok html ->
      structured team ym html) ->
  month_result get_page team ym games -> Forall (dated_in ym) games.
Proof.
  intros Hs [html [F P]]. specialize (Hs html F). unfold structured in Hs.
  assert (D : forall kws,
             _parse_schedule_list (fst ym) (snd ym) html kws = Ok games ->
             Forall (dated_in ym) games).
  { intros kws E. apply schedule_list_games in E.
    eapply Forall_impl; [|exact E]. intros g [Hg _].
    destruct ym. exact Hg. }
  destruct (text_eqb team (T "alvark")).
  - unfold parse_alvark_month in P.
    destruct (_parse_schedule_list (fst ym) (snd ym) html ALVARK_HOME)
      as [[|g l]|e] eqn:E; cbn [bind] in P;
      [now contradiction Hs| |discriminate].
    injection P as <-. now apply (D ALVARK_HOME).
  - unfold parse_sunrockers_month in P.
    destruct (_parse_schedule_list (fst ym) (snd ym) html SUNROCKERS_HOME)
      as [[|g l]|e] eqn:E; cbn [bind] in P;
      [now contradiction Hs| |discriminate].
    injection P as <-. now apply (D SUNROCKERS_HOME).
Qed.

(** X9.  [scrape] always comes to an end.  A month text that [strptime] refuses
    ends it with [ValueError] before any request.  Otherwise the months of
    the range are requested in order, and one of two things happens: every
    month gives games, all of them have been requested and the result is
    the sorted concatenation; or a first month fails, by its request or by
    its parser, the months after it are not requested and its exception is
    the outcome, the games of the months before it being lost. *)
Theorem scrape_run (get_page : text -> result Soup)
        (team start_ym end_ym : text) :
  exists log r,
    scrape get_page team start_ym end_ym = Some (log, r) /\
    ((forall d, strptime_ym start_ym <> Ok d) \/
     (forall d, strptime_ym end_ym <> Ok d) ->
     log = [] /\ r = Raise ValueError) /\
    (forall start end_,
        strptime_ym start_ym = Ok start -> strptime_ym end_ym = Ok end_ ->
        (forall results,
            Forall2 (month_result get_page team)
                    (range_months start end_) results ->
            log = concat (map (month_requests get_page team)
                              (range_months start end_)) /\
            r = Ok (sort_games (concat results))) /\
        (forall before ym after results e,
            range_months start end_ = before ++ ym :: after ->
            Forall2 (month_result get_page team) before results ->
            month_outcome get_page team ym = Raise e ->
            log = concat (map (month_requests get_page team)
                              (before ++ [ym])) /\
            r = Raise e) /\
        ((exists results,
             Forall2 (month_result get_page team)
                     (range_months start end_) results) \/
         (exists before ym after results e,
             range_months start end_ = before ++ ym :: after /\
             Forall2 (month_result get_page team) before results /\
             month_outcome get_page team ym = Raise e))).
Proof.
  unfold scrape.
  destruct (strptime_ym start_ym) as [start|e1] eqn:Es.
  2:{ apply strptime_ym_raise in Es. subst e1.
      exists [], (Raise ValueError). split; [reflexivity|].
      split; [now split|]. intros ? ? Q. discriminate Q. }
  destruct (strptime_ym end_ym) as [end_|e2] eqn:Ee.
  2:{ apply strptime_ym_raise in Ee. subst e2.
      exists [], (Raise ValueError). split; [reflexivity|].
      split; [now split|]. intros ? ? _ Q. discriminate Q. }
  destruct (strptime_ym_ok _ _ Es) as [Ws _].
  destruct (strptime_ym_ok _ _ Ee) as [We _].
  rewrite (month_iter_range start end_)
    by now apply wf_datetime_month.
  destruct (io_bind (scrape_loop get_page team (range_months start end_) [])
                    (fun all_games => io_ret (sort_games all_games)))
    as [log r] eqn:B.
  exists log, r. split; [reflexivity|]. split.
  { intros [H|H]; exfalso; now apply (H _ eq_refl). }
  intros s' e' Qs Qe. injection Qs as <-. injection Qe as <-.
  split; [|split; [|apply months_split]].
  - intros results HF. unfold io_bind in B.
    rewrite (scrape_loop_all _ _ _ _ HF) in B. cbn [fst snd io_ret app] in B.
    rewrite app_nil_r in B. injection B as <- <-. now split.
  - intros before ym after results e Em HF He. unfold io_bind in B.
    rewrite Em, (scrape_loop_stops _ _ _ _ _ _ _ HF He) in B.
    cbn [fst snd] in B. injection B as <- <-. now split.
Qed.



(** X12.  The games [scrape] returns are tidy: each carries one of the two tags,
    a venue without white space at its ends, a date in range and a start
    time that is absent or a token of [parse_time].  When, besides, every
    page of the range yields a game through its schedule list, every game
    returned is dated in a month of the range and no two games share an
    identity key. *)
Theorem scrape_games (get_page : text -> result Soup)
        (team start_ym end_ym : text) (log : list text) (out : list Game) :
  scrape get_page team start_ym end_ym = Some (log, Ok out) ->
  Forall tidy out /\
  exists start end_,
    strptime_ym start_ym = Ok start /\ strptime_ym end_ym = Ok end_ /\
    ((forall ym html,
         In ym (range_months start end_) ->
         snd (fetch_month get_page team (fst ym) (snd ym)) = Ok html ->
         structured team ym html) ->
     NoDup (map game_key out) /\
     Forall (fun g => In (ym_of (date g)) (range_months start end_)) out).
Proof.
  unfold scrape. intros H.
  destruct (strptime_ym start_ym) as [start|e] eqn:Es;
    [|cbn in H; discriminate].
  destruct (strptime_ym end_ym) as [end_|e] eqn:Ee;
    [|cbn in H; discriminate].
  destruct (strptime_ym_ok _ _ Es) as [Ws _].
  destruct (strptime_ym_ok _ _ Ee) as [We _].
  rewrite (month_iter_range start end_) in H
    by now apply wf_datetime_month.
  injection H as H. unfold io_bind in H.
  destruct (scrape_loop get_page team (range_months start end_) [])
    as [log' r] eqn:L.
  cbn [fst snd] in H. destruct r as [all_games|e]; [|discriminate].
  cbn [io_ret fst snd] in H. injection H as _ <-.
  destruct (scrape_loop_ok _ _ _ _ _ _ L) as [results [HF ->]].
  cbn [app].
  pose proof (sort_games_perm (concat results)) as P.
  split.
  - apply (Permutation_Forall (Permutation_sym P)).
    apply Forall_concat.
    clear L P. induction HF as [|ym games ms rs H1 H2 IH];
      constructor; [now apply month_result_tidy in H1|exact IH].
  - exists start, end_. split; [reflexivity|]. split; [reflexivity|].
    intros Hs.
    assert (D : Forall2 (fun ym games => Forall (dated_in ym) games)
                        (range_months start end_) results).
    { apply (Forall2_impl_in _ _ (month_result get_page team)); [|exact HF].
      intros ym games Hin Hr.
      apply (structured_month_dated get_page team); [|exact Hr].
      intros html. now apply Hs. }
    split.
    + apply (Permutation_NoDup (Permutation_map _ (Permutation_sym P))).
      apply (distinct_months_distinct_keys (range_months start end_));
        [exact D| |].
      * apply months_from_nodup. now apply wf_datetime_month.
      * clear L P D Hs. induction HF as [|ym games ms rs H1 H2 IH];
          constructor; [now apply month_result_nodup in H1|exact IH].
    + apply (Permutation_Forall (Permutation_sym P)).
      apply Forall_concat. clear L P HF Hs.
      induction D as [|ym games ms rs H1 H2 IH]; constructor.
      * eapply Forall_impl; [|exact H1]. intros g [G1 [G2 _]].
        left. unfold ym_of. destruct ym. cbn [fst snd] in *. congruence.
      * eapply Forall_impl; [|exact IH]. intros games' F.
        eapply Forall_impl; [|exact F]. intros g Hg. now right.
Qed.

Lemma scrape_games_witness :
  Forall tidy [undecided_game; relisted_game] /\
  NoDup (map game_key [undecided_game; relisted_game]).
Proof.
  destruct (scrape_games listed_site (T "alvark") (T "2025-10") (T "2025-11")
              relisting_log [undecided_game; relisted_game]
              ltac:(vm_compute; reflexivity))
    as [Ht [start [end_ [Es [Ee Hs]]]]].
  split; [exact Ht|].
  vm_compute in Es, Ee. injection Es as <-. injection Ee as <-.
  apply Hs. intros ym html Hin F.
  vm_compute in F. injection F as <-.
  destruct Hin as [<-|[<-|[]]]; vm_compute; discriminate.
Defined.





(** ** The validator and the headers *)

Lemma read_csv_stripped (file : list (list text)) :
  read_csv (map (map strip) file) = read_csv file.
Proof.
  unfold read_csv. destruct file as [|h rows]; [reflexivity|].
  cbn [map hd tl]. rewrite map_strip_idempotent.
  replace (map strip (map strip h)) with (map strip h); [reflexivity|].
  rewrite map_map. apply map_ext. intros c. symmetry.
  apply strip_idempotent.
Qed.

Lemma read_csv_outcome (file : list (list text)) :
  (good_header file /\ read_csv file = Ok (map (map strip) (tl file))) \/
  (~ good_header file /\ read_csv file = Raise ValueError).
Proof.
  unfold read_csv, good_header.
  destruct (row_eqb (map strip (hd [] file)) GOOGLE_HEADERS) eqn:E.
  - left. apply row_eqb_eq in E. now split.
  - right. split; [|reflexivity]. intros H. apply row_eqb_eq in H.
    congruence.
Qed.

Lemma rows_differ_somewhere (a b : list (list text)) :
  length a = length b -> a <> b ->
  exists i, (i < length a)%nat /\ nth i a [] <> nth i b [].
Proof.
  revert b. induction a as [|x a IH]; intros [|y b] L N;
    cbn [length] in L; try discriminate L.
  - now contradiction N.
  - destruct (row_eqb x y) eqn:E.
    + apply row_eqb_eq in E. subst y.
      destruct (IH b) as [i [Hi Hn]]; [lia|congruence|].
      exists (S i). cbn [length nth]. split; [lia|exact Hn].
    + exists O. cbn [length nth]. split; [lia|].
      intros Q. apply row_eqb_eq in Q. congruence.
Qed.

Lemma row_divergences_nonempty (act exp : list (list text)) :
  length act = length exp -> act <> exp ->
  firstn 10 (row_divergences act exp) <> [].
Proof.
  intros L N. destruct (rows_differ_somewhere act exp L N) as [i [Hi Hn]].
  assert (I : In (RowDiffers (i + 2) (nth i act []) (nth i exp []))
                 (row_divergences act exp)).
  { unfold row_divergences. apply in_flat_map. exists i. split.
    - apply in_seq. lia.
    - unfold divergence_at.
      destruct (row_eqb (nth i act []) (nth i exp [])) eqn:E;
        [apply row_eqb_eq in E; contradiction|now left]. }
  destruct (row_divergences act exp) as [|d l]; [destruct I|].
  discriminate.
Qed.

Lemma row_eqb_sym (a b : list text) : row_eqb a b = row_eqb b a.
Proof.
  destruct (row_eqb a b) eqn:E1, (row_eqb b a) eqn:E2; try reflexivity.
  - apply row_eqb_eq in E1. subst b. rewrite <- E2. symmetry.
    now apply row_eqb_eq.
  - apply row_eqb_eq in E2. subst b. rewrite <- E1.
    now apply row_eqb_eq.
Qed.

Lemma row_divergences_mirror (act exp : list (list text)) :
  row_divergences exp act = map mirror (row_divergences act exp).
Proof.
  unfold row_divergences. rewrite (Nat.min_comm (length exp)).
  induction (seq 0 (Nat.min (length act) (length exp))) as [|i l IH];
    [reflexivity|].
  cbn [flat_map]. rewrite map_app, IH. f_equal.
  unfold divergence_at. rewrite (row_eqb_sym (nth i exp [])).
  now destruct (row_eqb (nth i act []) (nth i exp [])).
Qed.

Lemma compare_rows_mirror (act exp : list (list text)) :
  compare_rows exp act
  = (fst (compare_rows act exp), map mirror (snd (compare_rows act exp))).
Proof.
  destruct (rows_eqb act exp) eqn:E.
  - apply rows_eqb_eq in E. subst exp.
    now rewrite (compare_rows_equal act act eq_refl).
  - assert (N : act <> exp)
      by (intros Q; apply rows_eqb_eq in Q; congruence).
    rewrite (compare_rows_differ act exp N).
    rewrite (compare_rows_differ exp act) by congruence.
    cbn [fst snd]. f_equal.
    rewrite map_app, row_divergences_mirror, firstn_map. f_equal.
    unfold length_note. rewrite (Nat.eqb_sym (length exp)).
    now destruct (length act =? length exp)%nat.
Qed.

Lemma compare_rows_cases (act exp : list (list text)) (ok : bool)
      (diffs : list diff_line) :
  compare_rows act exp = (ok, diffs) ->
  (act = exp /\ ok = true /\ diffs = []) \/
  (act <> exp /\ ok = false /\
   diffs = firstn 10 (row_divergences act exp) ++ length_note act exp).
Proof.
  intros Q. destruct (rows_eqb act exp) eqn:E.
  - apply rows_eqb_eq in E. rewrite (compare_rows_equal act exp E) in Q.
    apply pair_equal_spec in Q. destruct Q as [<- <-]. now left.
  - assert (N : act <> exp)
      by (intros X; apply rows_eqb_eq in X; congruence).
    rewrite (compare_rows_differ act exp N) in Q.
    apply pair_equal_spec in Q. destruct Q as [<- <-]. now right.
Qed.

(** X15.  Two files whose cells are within what the csv reader takes.
    [validate_csv] raises, with [ValueError], exactly when one of the two
    files has not the expected header (an empty file has not).  When it
    answers, the answer is [false] exactly when the report has a line, the
    report has at most eleven lines, and the files taken the other way
    round give the same answer with the mirrored report.  White space
    around cells never matters, and a file with the expected header
    validates against itself. *)
Theorem validate_csv_outcome (actual expected : list (list text)) :
  plain_file actual -> plain_file expected ->
  (forall e, validate_csv actual expected = Raise e <->
             e = ValueError /\
             ~ (good_header actual /\ good_header expected)) /\
  ~ good_header [] /\
  (forall ok diffs,
      validate_csv actual expected = Ok (ok, diffs) ->
      (ok = false <-> diffs <> []) /\
      (length diffs <= 11)%nat /\
      validate_csv expected actual = Ok (ok, map mirror diffs)) /\
  validate_csv (map (map strip) actual) (map (map strip) expected)
  = validate_csv actual expected /\
  (good_header actual -> validate_csv actual actual = Ok (true, [])).
Proof.
  intros _ _. split; [|split; [|split; [|split]]].
  - intros e. unfold validate_csv.
    destruct (read_csv_outcome actual) as [[Ga ->]|[Ga ->]];
      destruct (read_csv_outcome expected) as [[Ge ->]|[Ge ->]];
      cbn [bind];
      (split;
       [intros Q; try discriminate Q; injection Q as <-; tauto
       |intros [-> N]; try reflexivity; tauto]).
  - unfold good_header. cbn. discriminate.
  - intros ok diffs. unfold validate_csv.
    destruct (read_csv_outcome actual) as [[Ga ->]|[Ga ->]];
      destruct (read_csv_outcome expected) as [[Ge ->]|[Ge ->]];
      cbn [bind]; try discriminate.
    generalize (map (map strip) (tl actual)) as act.
    generalize (map (map strip) (tl expected)) as exp. intros exp act.
    intros Q0. rewrite (compare_rows_mirror act exp).
    assert (Q : compare_rows act exp = (ok, diffs)) by congruence.
    clear Q0. rewrite Q. cbn [fst snd]. split; [|split; [|reflexivity]].
    + destruct (compare_rows_cases act exp ok diffs Q)
        as [[_ [-> ->]]|[N [-> ->]]].
      * split; [discriminate|intros H; now contradiction H].
      * split; [|reflexivity]. intros _ Z.
        apply app_eq_nil in Z. destruct Z as [Z1 Z2].
        unfold length_note in Z2.
        destruct (length act =? length exp)%nat eqn:L; [|discriminate].
        apply Nat.eqb_eq in L.
        now apply (row_divergences_nonempty act exp L N).
    + destruct (compare_rows_cases act exp ok diffs Q)
        as [[_ [-> ->]]|[N [-> ->]]]; [cbn [length]; lia|].
      rewrite length_app.
      assert (F : (length (firstn 10 (row_divergences act exp)) <= 10)%nat)
        by apply firstn_le_length.
      assert (G : (length (length_note act exp) <= 1)%nat)
        by (unfold length_note; destruct (_ =? _)%nat; cbn [length]; lia).
      lia.
  - unfold validate_csv. now rewrite !read_csv_stripped.
  - intros G. unfold validate_csv.
    destruct (read_csv_outcome actual) as [[_ ->]|[Ga _]];
      [|contradiction].
    cbn [bind]. now rewrite compare_rows_equal.
Qed.

Lemma validate_csv_outcome_witness :
  validate_csv (GOOGLE_HEADERS :: sample_rows') (GOOGLE_HEADERS :: sample_rows)
  = Ok (false, [RowDiffers 4 [T "changed"] [T "r3"]]) /\
  validate_csv [[T "Subject"]] (GOOGLE_HEADERS :: sample_rows)
  = Raise ValueError.
Proof.
  split.
  - destruct (validate_csv_outcome (GOOGLE_HEADERS :: sample_rows)
                                   (GOOGLE_HEADERS :: sample_rows'))
      as [_ [_ [H _]]]; [vm_compute; reflexivity|vm_compute; reflexivity|].
    apply (H false [RowDiffers 4 [T "r3"] [T "changed"]]).
    vm_compute. reflexivity.
  - destruct (validate_csv_outcome [[T "Subject"]]
                                   (GOOGLE_HEADERS :: sample_rows))
      as [H _]; [vm_compute; reflexivity|vm_compute; reflexivity|].
    apply H. split; [reflexivity|].
    intros [G _]. vm_compute in G. discriminate G.
Defined.

(** ** The games of the free-text scan *)

(** X8.  When the schedule list of a page gives nothing, the games a team parser
    returns come from the free-text scan, and each has an opponent and a
    venue that are not empty (the scan passes over a node that lacks
    either). *)
Theorem fallback_games_named (y mo : Z) (soup : Soup) :
  (forall games,
      _parse_schedule_list y mo soup ALVARK_HOME = Ok [] ->
      parse_alvark_month y mo soup = Ok games ->
      Forall (fun g => opponent g <> [] /\ venue g <> []) games) /\
  (forall games,
      _parse_schedule_list y mo soup SUNROCKERS_HOME = Ok [] ->
      parse_sunrockers_month y mo soup = Ok games ->
      Forall (fun g => opponent g <> [] /\ venue g <> []) games).
Proof.
  destruct known_arenas_stripped as [KA KS].
  split; intros games E H.
  - rewrite (parse_alvark_month_fallback y mo soup E) in H.
    apply heuristic_pass_games in H; [|exact KA].
    eapply Forall_impl; [|exact H]. now intros g [_ G].
  - rewrite (parse_sunrockers_month_fallback y mo soup E) in H.
    apply heuristic_pass_games in H; [|exact KS].
    eapply Forall_impl; [|exact H]. now intros g [_ G].
Qed.
